(** * The Everlasting Synthesizer: the synthesis core of [echo_synthv6.cpp]

    A shallow embedding of the audio callback (envelopes, detuned
    oscillator bank, mixer, feedback delay) and of the keyboard listener,
    over IEEE-754 binary32 ([float]) and binary64 ([double]) arithmetic as
    specified by the standard library's [SpecFloat]. *)

From stdpp Require Import gmap list strings.
From Stdlib Require Import ZArith Lia Bool Ascii SpecFloat.

Local Open Scope Z_scope.

(** ** Number formats

    C++ [float] and [double] are both carried by [spec_float]; the format
    is fixed by the precision and exponent bound handed to each operation.
    Arithmetic is round-to-nearest-even, evaluated in the format of the
    operands after the usual conversions (no extended precision, no fused
    multiply-add). *)
Definition float : Type := spec_float.
Definition double : Type := spec_float.

Module F32.
Definition prec : Z := 24.
Definition emax : Z := 128.
Definition add : float -> float -> float := SFadd prec emax.
Definition sub : float -> float -> float := SFsub prec emax.
Definition mul : float -> float -> float := SFmul prec emax.
Definition div : float -> float -> float := SFdiv prec emax.
Definition leb : float -> float -> bool := SFleb.
Definition geb (x y : float) : bool := SFleb y x.
Definition valid : float -> bool := valid_binary prec emax.
(** [(float) z] for an integer [z]. *)
Definition of_Z (z : Z) : float := binary_normalize prec emax z 0 false.
(** The literal [n/d] written in decimal with an [f] suffix: the nearest
    binary32 value, which is what one correctly rounded division yields. *)
Definition lit (n d : Z) : float := div (of_Z n) (of_Z d).
Definition zero : float := S754_zero false.
Definition one : float := Eval vm_compute in of_Z 1.
End F32.

Module F64.
Definition prec : Z := 53.
Definition emax : Z := 1024.
Definition add : double -> double -> double := SFadd prec emax.
Definition sub : double -> double -> double := SFsub prec emax.
Definition mul : double -> double -> double := SFmul prec emax.
Definition div : double -> double -> double := SFdiv prec emax.
Definition leb : double -> double -> bool := SFleb.
Definition valid : double -> bool := valid_binary prec emax.
Definition of_Z (z : Z) : double := binary_normalize prec emax z 0 false.
Definition lit (n d : Z) : double := div (of_Z n) (of_Z d).
Definition zero : double := S754_zero false.
Definition one : double := Eval vm_compute in of_Z 1.
(** Widening [float] to [double] is exact: only the representation is
    renormalised. *)
Definition of_float (x : float) : double :=
  match x with
  | S754_finite s m e => binary_round prec emax s m e
  | _ => x
  end.
(** Narrowing [double] to [float] rounds to nearest even. *)
Definition to_float (x : double) : float :=
  match x with
  | S754_finite s m e => binary_round F32.prec F32.emax s m e
  | _ => x
  end.
(** [floor] of <cmath>: the largest integral value not above [x]. *)
Definition floor (x : double) : double :=
  match x with
  | S754_finite s m e =>
      if 0 <=? e then x
      else binary_normalize prec emax (Z.shiftr (cond_Zopp s (Zpos m)) (- e)) 0 s
  | _ => x
  end.
End F64.

Definition is_nan (x : spec_float) : bool :=
  match x with S754_nan => true | _ => false end.

Definition is_finite (x : spec_float) : bool :=
  match x with S754_zero _ | S754_finite _ _ _ => true | _ => false end.

Definition is_zero (x : spec_float) : bool :=
  match x with S754_zero _ => true | _ => false end.

(** Two floats denote the same number: identical, or both zeros (of either
    sign). *)
Definition same_number (x y : spec_float) : Prop :=
  x = y \/ (is_zero x = true /\ is_zero y = true).

(** ** Configuration constants *)
Definition SAMPLE_RATE : Z := 44100.
Definition VOLUME : float := Eval vm_compute in F32.lit 65 100.
Definition NUM_VOICES : Z := 121.
Definition DELAY_SIZE : Z := SAMPLE_RATE * 2.
Definition REVERB_MIX : float := Eval vm_compute in F32.lit 5 10.
Definition REVERB_DECAY : float := Eval vm_compute in F32.lit 5 10.

Definition ATTACK_TIME : float := Eval vm_compute in F32.lit 1 100.
Definition DECAY_TIME : float := Eval vm_compute in F32.lit 1 10.
Definition SUSTAIN_LEVEL : float := Eval vm_compute in F32.lit 8 10.
Definition RELEASE_TIME : float := Eval vm_compute in F32.lit 5 10.

Definition keyNoteMap : gmap ascii Z :=
  list_to_map
    [("A"%char, 57); ("W"%char, 58); ("S"%char, 59); ("E"%char, 60);
     ("D"%char, 61); ("F"%char, 62); ("T"%char, 63); ("G"%char, 64);
     ("Y"%char, 65); ("H"%char, 66); ("U"%char, 67); ("J"%char, 68);
     ("K"%char, 69); ("O"%char, 70); ("L"%char, 71); ("P"%char, 72);
     (";"%char, 73); ("'"%char, 74); ("Q"%char, 72); ("Z"%char, 48);
     ("X"%char, 50); ("C"%char, 52); ("V"%char, 53); ("B"%char, 55);
     ("N"%char, 57)].

(** ** Data model *)
Inductive EnvelopeStage := OFF | ATTACK | DECAY | SUSTAIN | RELEASE.

#[global] Instance EnvelopeStage_eq_dec : EqDecision EnvelopeStage.
Proof. solve_decision. Defined.

Record Voice := mkVoice {
  note : Z;
  phase : double;
  time : double;
  stage : EnvelopeStage;
  envelope : float;
  keyDown : bool
}.

(** The value-initialised [Voice] that [voices[note]] inserts for a new key. *)
Definition Voice_default : Voice :=
  {| note := 0; phase := F64.zero; time := F64.zero; stage := OFF;
     envelope := F32.zero; keyDown := false |}.

(** The globals of the program. *)
Record Engine := mkEngine {
  voices : gmap Z Voice;
  reverbDelayBuffer : list float;
  reverbIndex : Z;
  reverbFeedback : float;
  running : bool
}.

Definition Engine_init : Engine :=
  {| voices := ∅;
     reverbDelayBuffer := replicate (Z.to_nat DELAY_SIZE) F32.zero;
     reverbIndex := 0;
     reverbFeedback := REVERB_DECAY;
     running := true |}.

Definition with_time (v : Voice) (t : double) : Voice :=
  {| note := note v; phase := phase v; time := t; stage := stage v;
     envelope := envelope v; keyDown := keyDown v |}.

Definition with_envelope (v : Voice) (x : float) : Voice :=
  {| note := note v; phase := phase v; time := time v; stage := stage v;
     envelope := x; keyDown := keyDown v |}.

Definition with_stage (v : Voice) (s : EnvelopeStage) : Voice :=
  {| note := note v; phase := phase v; time := time v; stage := s;
     envelope := envelope v; keyDown := keyDown v |}.

Definition with_voices (st : Engine) (vs : gmap Z Voice) : Engine :=
  {| voices := vs; reverbDelayBuffer := reverbDelayBuffer st;
     reverbIndex := reverbIndex st; reverbFeedback := reverbFeedback st;
     running := running st |}.

Definition stage_eqb (a b : EnvelopeStage) : bool :=
  match a, b with
  | OFF, OFF | ATTACK, ATTACK | DECAY, DECAY | SUSTAIN, SUSTAIN | RELEASE, RELEASE => true
  | _, _ => false
  end.

(** ** Envelope state machine (the [switch] of [audioCallback]) *)
Definition attack_inc : float :=
  Eval vm_compute in F32.div (F32.of_Z 1) (F32.mul ATTACK_TIME (F32.of_Z SAMPLE_RATE)).
Definition decay_dec : float :=
  Eval vm_compute in
    F32.div (F32.sub (F32.of_Z 1) SUSTAIN_LEVEL) (F32.mul DECAY_TIME (F32.of_Z SAMPLE_RATE)).
Definition release_dec : float :=
  Eval vm_compute in F32.div SUSTAIN_LEVEL (F32.mul RELEASE_TIME (F32.of_Z SAMPLE_RATE)).

(** One pass through the [switch].  The boolean tells whether the
    [continue] of the RELEASE case was taken. *)
Definition envelope_switch (voice : Voice) : Voice * bool :=
  match stage voice with
  | ATTACK =>
      let voice := with_envelope voice (F32.add (envelope voice) attack_inc) in
      if F32.geb (envelope voice) F32.one
      then (with_stage (with_envelope voice F32.one) DECAY, false)
      else (voice, false)
  | DECAY =>
      let voice := with_envelope voice (F32.sub (envelope voice) decay_dec) in
      if F32.leb (envelope voice) SUSTAIN_LEVEL
      then (with_stage (with_envelope voice SUSTAIN_LEVEL) SUSTAIN, false)
      else (voice, false)
  | SUSTAIN => (voice, false)
  | RELEASE =>
      let voice := with_envelope voice (F32.sub (envelope voice) release_dec) in
      if F32.leb (envelope voice) F32.zero
      then (with_stage (with_envelope voice F32.zero) OFF, true)
      else (voice, false)
  | OFF => (voice, false)
  end.

Definition dt : double := Eval vm_compute in F64.div (F64.of_Z 1) (F64.of_Z SAMPLE_RATE).

(** The bounds of [for (int i = -13; i < 14; ++i)]. *)
Definition detune_offsets : list Z := seqZ (-13) 27.
Definition detune_step : double := Eval vm_compute in F64.lit 5 1000.

Section Synth.
(** [tanh] and [pow] of <cmath> are taken as they come from the C library. *)
Variable tanh : double -> double.
Variable pow : double -> double -> double.

Definition midiToFreq (midiNote : Z) : double :=
  F64.mul (F64.of_Z 440)
          (pow (F64.of_Z 2) (F64.div (F64.of_Z (midiNote - 69)) (F64.of_Z 12))).

Definition getSaw (t freq : double) : float :=
  let rawSample :=
    F64.mul (F64.of_Z 2)
            (F64.sub (F64.mul t freq)
                     (F64.floor (F64.add (F64.mul t freq) (F64.lit 5 10)))) in
  F64.to_float (tanh (F64.mul rawSample (F64.of_Z 6))).

(** The inner loop: the running sum of the detuned saws. *)
Definition saw_bank (phase freq : double) : double :=
  foldl (fun sample i =>
           F64.add sample
             (F64.of_float (getSaw phase (F64.add freq (F64.mul (F64.of_Z i) detune_step)))))
        F64.zero detune_offsets.

(** What a voice that reaches the end of the loop body adds to [mixed]. *)
Definition voice_sample (voice : Voice) (freq : double) : double :=
  let sample := saw_bank (time voice) freq in
  let sample := F64.div sample (F64.of_Z NUM_VOICES) in
  F64.mul sample (F64.of_float (envelope voice)).

(** The body of the loop over [voices], for one voice: the voice as it is
    left, and its term of [mixed] when the body runs to its end. *)
Definition process_voice (voice : Voice) : Voice * option double :=
  if stage_eqb (stage voice) OFF then (voice, None)
  else
    let freq := midiToFreq (note voice) in
    let voice := with_time voice (F64.add (time voice) dt) in
    let '(voice, skipped) := envelope_switch voice in
    if skipped then (voice, None)
    else (voice, Some (voice_sample voice freq)).

Definition loop_body (acc : gmap Z Voice * double * Z) (entry : Z * Voice)
    : gmap Z Voice * double * Z :=
  let '(m, mixed, active) := acc in
  let '(k, voice) := entry in
  match process_voice voice with
  | (voice', Some s) => (<[k := voice']> m, F64.add mixed s, active + 1)
  | (voice', None) => (<[k := voice']> m, mixed, active)
  end.

(** [for (auto& noteVoice : voices)], in the iteration order of the map. *)
Definition voice_loop (vs : gmap Z Voice) : gmap Z Voice * double * Z :=
  foldl loop_body (vs, F64.zero, 0) (map_to_list vs).

(** The terms added to [mixed] during one frame, in iteration order. *)
Definition contributions (vs : gmap Z Voice) : list double :=
  omap (fun entry : Z * Voice => snd (process_voice entry.2)) (map_to_list vs).

(** The entries whose voice is not OFF once its envelope has been
    advanced, in iteration order: the voices that sound in this frame. *)
Definition sounding (vs : gmap Z Voice) : list (Z * Voice) :=
  filter (fun entry : Z * Voice => stage (fst (process_voice entry.2)) <> OFF)
         (map_to_list vs).

(** The sample such a voice adds to [mixed]. *)
Definition rendered (entry : Z * Voice) : double :=
  voice_sample (fst (process_voice entry.2)) (midiToFreq (note entry.2)).

(** [if (active > 0) mixed = (mixed / active) * VOLUME;] *)
Definition normalize (mixed : double) (active : Z) : double :=
  if 0 <? active
  then F64.mul (F64.div mixed (F64.of_Z active)) (F64.of_float VOLUME)
  else mixed.

(** The value of [mixed] just before the reverb lines. *)
Definition dry_mix (st : Engine) : double :=
  let '(_, mixed, active) := voice_loop (voices st) in normalize mixed active.

(** One iteration of the frame loop.  [None] stands for the out-of-range
    access to [reverbDelayBuffer] that C++ leaves undefined. *)
Definition audio_frame (st : Engine) : option (Engine * (float * float)) :=
  let '(vs, mixed, active) := voice_loop (voices st) in
  let mixed := normalize mixed active in
  if 0 <=? reverbIndex st then
    match reverbDelayBuffer st !! Z.to_nat (reverbIndex st) with
    | None => None
    | Some stored =>
        let reverbSample := F32.mul stored (reverbFeedback st) in
        let mixed := F64.add mixed (F64.of_float reverbSample) in
        let out := F64.to_float mixed in
        Some ({| voices := vs;
                 reverbDelayBuffer := <[Z.to_nat (reverbIndex st) := out]> (reverbDelayBuffer st);
                 reverbIndex := Z.rem (reverbIndex st + 1) DELAY_SIZE;
                 reverbFeedback := reverbFeedback st;
                 running := running st |},
              (out, out))
    end
  else None.

(** [audioCallback] for [framesPerBuffer] frames: the final state and the
    interleaved stereo buffer. *)
Fixpoint audioCallback (framesPerBuffer : nat) (st : Engine) : option (Engine * list float) :=
  match framesPerBuffer with
  | O => Some (st, [])
  | S n =>
      match audio_frame st with
      | None => None
      | Some (st, (l, r)) =>
          match audioCallback n st with
          | None => None
          | Some (st, out) => Some (st, l :: r :: out)
          end
      end
  end.
End Synth.

(** ** Keyboard listener *)
Definition toupper (c : ascii) : ascii :=
  let n := N_of_ascii c in
  if ((97 <=? n) && (n <=? 122))%N then ascii_of_N (n - 32) else c.

Definition ESC : ascii := ascii_of_N 27.

Definition is_key (c : ascii) : bool := bool_decide (is_Some (keyNoteMap !! c)).

(** First half of a loop iteration, up to the [sleep_for]: quit on ESC,
    trigger the voice of a mapped key. *)
Definition key_down (c : ascii) (st : Engine) : Engine :=
  if bool_decide (c = ESC) then
    {| voices := voices st; reverbDelayBuffer := reverbDelayBuffer st;
       reverbIndex := reverbIndex st; reverbFeedback := reverbFeedback st;
       running := false |}
  else
    match keyNoteMap !! c with
    | Some n =>
        let voice := default Voice_default (voices st !! n) in
        with_voices st
          (<[n := {| note := n; phase := phase voice; time := F64.zero; stage := ATTACK;
                     envelope := envelope voice; keyDown := true |}]> (voices st))
    | None => st
    end.

(** Second half, after the [sleep_for]: the key-up scan. *)
Definition release_voice (c : ascii) (voice : Voice) : Voice :=
  if keyDown voice && negb (is_key c)
  then {| note := note voice; phase := phase voice; time := time voice; stage := RELEASE;
          envelope := envelope voice; keyDown := false |}
  else voice.

Definition key_up_scan (c : ascii) (st : Engine) : Engine :=
  with_voices st (release_voice c <$> voices st).

Definition listener_iteration (input : ascii) (st : Engine) : Engine :=
  let c := toupper input in
  key_up_scan c (key_down c st).

(** [keyboardListener] fed with the characters [getchar] returns. *)
Fixpoint keyboardListener (input : list ascii) (st : Engine) : Engine :=
  match input with
  | [] => st
  | c :: rest => if running st then keyboardListener rest (listener_iteration c st) else st
  end.

(** ** Interleavings of the two threads

    The audio thread runs frames; the listener thread runs the two halves
    of its loop body, separated by its 30 ms sleep.  Each of the three is
    taken as one atomic step.  The program has no synchronisation: the
    writes of one thread can land inside a step of the other, which [step]
    does not model (see [raced_frame]). *)
Inductive event := Frame | KeyDown (c : ascii) | KeyUpScan (c : ascii).

Definition step (tanh : double -> double) (pow : double -> double -> double)
    (st : Engine) (ev : event) : option Engine :=
  match ev with
  | Frame => fst <$> audio_frame tanh pow st
  | KeyDown c => Some (if running st then key_down (toupper c) st else st)
  | KeyUpScan c => Some (key_up_scan (toupper c) st)
  end.

Inductive reachable (tanh : double -> double) (pow : double -> double -> double)
  : Engine -> Prop :=
| reachable_init : reachable tanh pow Engine_init
| reachable_step st ev st' :
    reachable tanh pow st -> step tanh pow st ev = Some st' -> reachable tanh pow st'.

(** ** Auxiliary notions for the rounding proofs *)

(** Number of binary digits of a mantissa. *)
Definition Zdig (p : positive) : Z := Zpos (digits2_pos p).

(** [mrs] is [M] shifted right by [k] bits ... *)
Definition shr_bounds (M k : Z) (mrs : shr_record) : Prop :=
  0 <= shr_m mrs /\ shr_m mrs * 2 ^ k <= M < (shr_m mrs + 1) * 2 ^ k.

(** ... and its round and sticky bits are clear exactly when nothing was
    lost. *)
Definition shr_exact (M k : Z) (mrs : shr_record) : Prop :=
  shr_r mrs || shr_s mrs = false <-> M = shr_m mrs * 2 ^ k.

Definition pack (prec emax : Z) (s : bool) (m : positive) (e : Z) : spec_float :=
  if Z.leb e (Z.sub emax prec) then S754_finite s m e else S754_infinity s.

(** What [binary_round_aux] builds from the rounded mantissa [m2] at
    exponent [e']. *)
Inductive packs (prec emax : Z) (s : bool) (m2 e' : Z) : spec_float -> Prop :=
| packs_zero : m2 = 0 -> packs prec emax s m2 e' (S754_zero s)
| packs_some m3 e3 :
    Zpos m3 * 2 ^ (e3 - e') = m2 -> e' <= e3 <= e' + 1 ->
    canonical_mantissa prec emax m3 e3 = true ->
    packs prec emax s m2 e' (pack prec emax s m3 e3).

(** The value [m * 2^e] on the integer scale [2^-K]. *)
Definition Fval (K : Z) (m : positive) (e : Z) : Z := Zpos m * 2 ^ (e + K).

(** [(m, e)] is canonical and is [M * 2^ex] itself when that lies on the
    grid of its binade, one of its two grid neighbours otherwise. *)
Definition rounded (prec emax K : Z) (M : positive) (ex : Z) (m : positive) (e : Z) : Prop :=
  let e' := fexp prec emax (Zdig M + ex) in
  canonical_mantissa prec emax m e = true /\ e' <= e /\
  (Fval K m e = Fval K M ex \/
   (~ (2 ^ (e' + K) | Fval K M ex) /\
    Fval K M ex - 2 ^ (e' + K) < Fval K m e < Fval K M ex + 2 ^ (e' + K))).

(** The common scale for binary32 and binary64: both formats have their
    exponents above [-1074]. *)
Definition scale : Z := 1074.

(** The value of a non-negative float on that scale. *)
Definition Fmag (x : spec_float) : Z :=
  match x with
  | S754_finite _ m e => Fval scale m e
  | _ => 0
  end.

(** [+0], or a positive binary32 number. *)
Definition F32_nonneg (x : float) : Prop :=
  x = F32.zero \/
  exists m e, x = S754_finite false m e /\ bounded F32.prec F32.emax m e = true.

(** Zero of either sign, or negative. *)
Definition nonpos (x : spec_float) : Prop :=
  match x with
  | S754_zero _ | S754_finite true _ _ | S754_infinity true => True
  | _ => False
  end.

(** The values an envelope takes: [+0], or a positive binary32 number not
    above [1.0f]. *)
Definition env_range (x : float) : Prop :=
  F32_nonneg x /\ Fmag x <= Fmag F32.one.

(** ** Invariants of the engine *)
Definition voice_inv (v : Voice) : Prop :=
  env_range (envelope v) /\
  (stage v = DECAY -> Fmag SUSTAIN_LEVEL <= Fmag (envelope v)) /\
  (stage v = OFF -> envelope v = F32.zero /\ keyDown v = false) /\
  (stage v = RELEASE -> keyDown v = false).

Definition engine_inv (st : Engine) : Prop :=
  (forall k v, voices st !! k = Some v -> voice_inv v) /\
  length (reverbDelayBuffer st) = Z.to_nat DELAY_SIZE /\
  0 <= reverbIndex st < DELAY_SIZE.

(** ** Notions used to state the properties *)

(** What the C library promises of [tanh]: NaN for NaN, and otherwise a
    [double] between [-1.0] and [1.0]. *)
Definition tanh_contract (tanh : double -> double) : Prop :=
  tanh S754_nan = S754_nan /\
  forall x, is_nan x = false ->
    F64.valid (tanh x) = true /\
    F64.leb (F64.of_Z (-1)) (tanh x) = true /\ F64.leb (tanh x) F64.one = true.

(** The coarsest function within that contract: the sign of its argument,
    saturated.  It stands in for [tanh] where a concrete function is
    needed. *)
Definition tanh_sat (x : double) : double :=
  match x with
  | S754_nan => S754_nan
  | S754_zero s => S754_zero s
  | S754_infinity s | S754_finite s _ _ => if s then F64.of_Z (-1) else F64.one
  end.

(** Likewise for [pow]: the constant [1.0], so that every note sounds at
    440 Hz. *)
Definition pow_unit (x y : double) : double := F64.one.

(** [-1.0f <= x && x <= 1.0f]. *)
Definition in_unit (x : float) : Prop :=
  F32.leb (F32.of_Z (-1)) x = true /\ F32.leb x F32.one = true.

(** The ADSR rules as the specification words them, on a stage and an
    envelope value. *)
Definition adsr_rule (s : EnvelopeStage) (env : float) : EnvelopeStage * float :=
  match s with
  | ATTACK =>
      let e := F32.add env (F32.div (F32.of_Z 1) (F32.mul ATTACK_TIME (F32.of_Z SAMPLE_RATE))) in
      if F32.geb e (F32.of_Z 1) then (DECAY, F32.of_Z 1) else (ATTACK, e)
  | DECAY =>
      let e := F32.sub env (F32.div (F32.sub (F32.of_Z 1) SUSTAIN_LEVEL)
                                    (F32.mul DECAY_TIME (F32.of_Z SAMPLE_RATE))) in
      if F32.leb e SUSTAIN_LEVEL then (SUSTAIN, SUSTAIN_LEVEL) else (DECAY, e)
  | SUSTAIN => (SUSTAIN, env)
  | RELEASE =>
      let e := F32.sub env (F32.div SUSTAIN_LEVEL (F32.mul RELEASE_TIME (F32.of_Z SAMPLE_RATE))) in
      if F32.leb e F32.zero then (OFF, F32.zero) else (RELEASE, e)
  | OFF => (OFF, env)
  end.

(** The voice after [n] passes through the envelope switch. *)
Definition envelope_after (n : positive) (v : Voice) : Voice :=
  Pos.iter (fun v => fst (envelope_switch v)) v n.

(** Voice [k] was held before and has been sent to RELEASE after. *)
Definition released (before after : Engine) (k : Z) : Prop :=
  exists v w, voices before !! k = Some v /\ keyDown v = true /\
              voices after !! k = Some w /\ stage w = RELEASE /\ keyDown w = false.

(** The voice a key-down on note [n] leaves in the registry when [v] was
    there before. *)
Definition retriggered (n : Z) (v : Voice) : Voice :=
  {| note := n; phase := phase v; time := F64.zero; stage := ATTACK;
     envelope := envelope v; keyDown := true |}.

(** ** Sample inputs *)

(** The voice of the first key of the listener's table, just triggered. *)
Definition voice_A : Voice :=
  {| note := 57; phase := F64.zero; time := F64.zero; stage := ATTACK;
     envelope := F32.zero; keyDown := true |}.

(** The [double] [2^600] (about [4.1e180]): finite, with an overflowing
    square. *)
Definition two_pow_600 : double := S754_finite false 4503599627370496 548.

(** The engine after a key-down on [A]: one voice, in ATTACK. *)
Definition engine_A : Engine := key_down "A"%char Engine_init.

(** The engine with the voices of [A] and [S] both held. *)
Definition engine_AS : Engine :=
  listener_iteration "s"%char (listener_iteration "a"%char Engine_init).

(** ** Notions used to state further properties *)

(** The key of the voice is held: its stage is one of the three a
    key-down leads to. *)
Definition held (v : Voice) : Prop :=
  stage v = ATTACK \/ stage v = DECAY \/ stage v = SUSTAIN.

(** The notes the key table can trigger. *)
Definition table_notes : gset Z := list_to_set (map_to_list keyNoteMap).*2.

(** What every entry [k |-> v] of the registry satisfies. *)
Definition entry_inv (k : Z) (v : Voice) : Prop :=
  note v = k /\ k ∈ table_notes /\ phase v = F64.zero /\
  (keyDown v = true <-> held v) /\
  (stage v = SUSTAIN -> envelope v = SUSTAIN_LEVEL) /\
  (stage v = DECAY -> F32.leb (envelope v) SUSTAIN_LEVEL = false).

Definition registry_inv (st : Engine) : Prop :=
  forall k v, voices st !! k = Some v -> entry_inv k v.

(** The delay line has its full length and the cursor points into it. *)
Definition line_ok (st : Engine) : Prop :=
  length (reverbDelayBuffer st) = Z.to_nat DELAY_SIZE /\
  0 <= reverbIndex st < DELAY_SIZE.

(** The cell of the delay line the cursor points to [j] frames from
    now. *)
Definition cell_after (st : Engine) (j : nat) : nat :=
  Z.to_nat ((reverbIndex st + Z.of_nat j) mod DELAY_SIZE).

(** The host calls the callback once per buffer; [sizes] are the
    [framesPerBuffer] of the successive calls. *)
Fixpoint audio_stream (tanh : double -> double) (pow : double -> double -> double)
    (sizes : list nat) (st : Engine) : option (Engine * list float) :=
  match sizes with
  | [] => Some (st, [])
  | n :: rest =>
      match audioCallback tanh pow n st with
      | None => None
      | Some (st, out) =>
          match audio_stream tanh pow rest st with
          | None => None
          | Some (st, out') => Some (st, out ++ out')
          end
      end
  end.

(** No voice of the registry is sounding. *)
Definition all_off (st : Engine) : Prop :=
  forall k v, voices st !! k = Some v -> stage v = OFF.

(** The delay line holds nothing but zeros. *)
Definition line_silent (st : Engine) : Prop :=
  forall x, x ∈ reverbDelayBuffer st -> is_zero x = true.

(** Every cell of the delay line is a binary32 value, and the feedback
    coefficient is the one the program starts with. *)
Definition line_valid (st : Engine) : Prop :=
  (forall x, x ∈ reverbDelayBuffer st -> F32.valid x = true) /\
  reverbFeedback st = REVERB_DECAY.

(** The voice after [n] frames of the callback, without key events. *)
Definition voice_after (tanh : double -> double) (pow : double -> double -> double)
    (n : nat) (v : Voice) : Voice :=
  Nat.iter n (fun v => fst (process_voice tanh pow v)) v.

(** The spacing of binary32 numbers just below [1.0f], on the common
    scale: [2^-24]. *)
Definition ulp_below_one : Z := 2 ^ (scale - 24).

(** The engine after a key-down on [A] and the key-up scan of a
    character that is no key: one voice, in RELEASE. *)
Definition engine_A_up : Engine := key_up_scan " "%char engine_A.

(** What a frame at least adds to an envelope in ATTACK below [1.0f], and
    at least takes from one in DECAY or in RELEASE: the step of the stage
    less one grid step. *)
Definition attack_gain : Z := Fmag attack_inc - ulp_below_one.
Definition decay_loss : Z := Fmag decay_dec - ulp_below_one.
Definition release_loss : Z := Fmag release_dec - ulp_below_one.

(** The [double] [2^k], for [k] an exponent of a normal number. *)
Definition two_to (k : Z) : double := S754_finite false 4503599627370496 (k - 52).

(** The [double] [440 * 2^k]. *)
Definition A440_times_two_to (k : Z) : double := S754_finite false 7740561859543040 (k - 44).

(** ** Magnitudes of signed floats *)

(** A scale below every product and every quotient of two binary64
    numbers. *)
Definition wide : Z := 2200.

(** The magnitude of a finite float, on the scale [2^-K]. *)
Definition mag (K : Z) (x : spec_float) : Z :=
  match x with
  | S754_finite _ m e => Fval K m e
  | _ => 0
  end.

(** [x] is a number of the format: finite, of magnitude at most [B]. *)
Definition within (prec emax K B : Z) (x : spec_float) : Prop :=
  valid_binary prec emax x = true /\ is_finite x = true /\ mag K x <= B.

(** [B] is a multiple of [2^b] that a float of exponent [b] can hold. *)
Definition grid_bound (prec emax K b B : Z) : Prop :=
  emin prec emax <= b /\ b + prec <= emax /\
  (2 ^ (b + K) | B) /\ 0 <= B < 2 ^ (b + prec + K).

(** ** Half scale *)

(** [0.5f] and [-0.5f]. *)
Definition half : float := Eval vm_compute in F32.lit 1 2.
Definition minus_half : float := Eval vm_compute in F32.lit (-1) 2.

(** [-0.5f <= x && x <= 0.5f]. *)
Definition in_half (x : float) : Prop :=
  F32.leb minus_half x = true /\ F32.leb x half = true.

(** Every sample in the delay line is within half scale. *)
Definition line_bounded (st : Engine) : Prop :=
  forall x, x ∈ reverbDelayBuffer st -> in_half x.

(** No oscillator of the coming frame overflows: for every voice that is
    not OFF, the products [t * freq] of its 27 saws at the time of that
    frame are finite. *)
Definition frame_finite (pow : double -> double -> double) (st : Engine) : Prop :=
  forall k v i,
    voices st !! k = Some v -> stage v <> OFF -> i ∈ detune_offsets ->
    is_finite (F64.mul (F64.add (time v) dt)
                 (F64.add (midiToFreq pow (note v)) (F64.mul (F64.of_Z i) detune_step)))
    = true.

(** No oscillator overflows during the next [n] frames. *)
Definition frames_finite (tanh : double -> double) (pow : double -> double -> double)
    (n : nat) (st : Engine) : Prop :=
  forall j st' out,
    (j < n)%nat -> audioCallback tanh pow j st = Some (st', out) -> frame_finite pow st'.

(** The initial engine with a NaN in the first cell of the delay line. *)
Definition engine_poisoned : Engine :=
  {| voices := ∅;
     reverbDelayBuffer := <[0%nat := S754_nan]> (replicate (Z.to_nat DELAY_SIZE) F32.zero);
     reverbIndex := 0;
     reverbFeedback := REVERB_DECAY;
     running := true |}.

(** ** A key-down inside a frame

    The callback completes a release in two writes, [voice.envelope = 0.0f]
    and [voice.stage = OFF] (lines 104 and 105), and the listener writes the
    same [Voice] without synchronisation.  When the four writes of a
    key-down on the note (lines 165 to 168) land between the two, line 105
    overwrites the stage the key-down has just set. *)
Definition raced_voice (n : Z) (voice : Voice) : Voice :=
  let voice := with_time voice (F64.add (time voice) dt) in                  (* line 81 *)
  let voice := with_envelope voice (F32.sub (envelope voice) release_dec) in (* line 102 *)
  let voice := with_envelope voice F32.zero in                               (* line 104 *)
  let voice := retriggered n voice in                                        (* lines 165-168 *)
  with_stage voice OFF.                                                      (* line 105 *)

(** The frame in which this happens to the voice of key [c]: the listener
    is running, the voice is in RELEASE and its release completes in this
    frame.  The voice takes the [continue] of line 106, so the other voices,
    the delay line and the output are those of the frame. *)
Definition raced_frame (tanh : double -> double) (pow : double -> double -> double)
    (c : ascii) (st : Engine) : option Engine :=
  match keyNoteMap !! toupper c, audio_frame tanh pow st with
  | Some n, Some (st', _) =>
      match voices st !! n with
      | Some voice =>
          if running st && stage_eqb (stage voice) RELEASE
             && F32.leb (F32.sub (envelope voice) release_dec) F32.zero
          then Some (with_voices st' (<[n := raced_voice n voice]> (voices st')))
          else None
      | None => None
      end
  | _, _ => None
  end.

(** The states reached when such frames are allowed among the atomic
    steps. *)
Inductive reachable_raced (tanh : double -> double) (pow : double -> double -> double)
  : Engine -> Prop :=
| raced_init : reachable_raced tanh pow Engine_init
| raced_step st ev st' :
    reachable_raced tanh pow st -> step tanh pow st ev = Some st' ->
    reachable_raced tanh pow st'
| raced_race st c st' :
    reachable_raced tanh pow st -> raced_frame tanh pow c st = Some st' ->
    reachable_raced tanh pow st'.

(** ** Further sample inputs *)

(** The engine [n] frames later, with the stand-ins for [tanh] and
    [pow]. *)
Definition frames_later (n : nat) (st : Engine) : Engine :=
  match audioCallback tanh_sat pow_unit n st with
  | Some (st', _) => st'
  | None => st
  end.

(** Three voices: the one of [A], released before its first frame, is OFF;
    the one of [S], just released, is in RELEASE with its envelope at
    [0.0f]; the one of [D] is held. *)
Definition engine_released : Engine :=
  key_down "D"%char
    (key_up_scan " "%char (key_down "S"%char (frames_later 1 engine_A_up))).

(** [A] held for 4858 frames, then [S] held with it for 441 frames. *)
Definition engine_sustain_decay : Engine :=
  frames_later 441 (key_down "S"%char (frames_later (Z.to_nat 4858) engine_A)).

(** [A] held for one frame, released, and one turn of the delay line
    completed: the cursor is back on the output of that first frame. *)
Definition engine_tail : Engine :=
  frames_later (Z.to_nat (DELAY_SIZE - 1)) (key_up_scan " "%char (frames_later 1 engine_A)).

(** The voice of [A] just triggered, the feedback coefficient at zero and
    [0.5f] under the cursor. *)
Definition engine_dry : Engine :=
  {| voices := voices engine_A;
     reverbDelayBuffer := <[0%nat := half]> (replicate (Z.to_nat DELAY_SIZE) F32.zero);
     reverbIndex := 0;
     reverbFeedback := F32.zero;
     running := true |}.

(** No voice, the feedback coefficient at zero and an infinity under the
    cursor. *)
Definition engine_overflowed : Engine :=
  {| voices := ∅;
     reverbDelayBuffer :=
       <[0%nat := S754_infinity false]> (replicate (Z.to_nat DELAY_SIZE) F32.zero);
     reverbIndex := 0;
     reverbFeedback := F32.zero;
     running := true |}.

(** * Rounding in [SpecFloat] *)

Lemma Zdig_pos p : 1 <= Zdig p.
Proof. unfold Zdig; lia. Qed.

Lemma Zdig_bounds p : 2 ^ (Zdig p - 1) <= Zpos p < 2 ^ Zdig p.
Proof.
  unfold Zdig. induction p as [p IH | p IH | ]; cbn [digits2_pos].
  - rewrite Pos2Z.inj_succ.
    replace (Z.succ (Zpos (digits2_pos p)) - 1) with (Z.succ (Zpos (digits2_pos p) - 1)) by lia.
    rewrite !Z.pow_succ_r by lia. lia.
  - rewrite Pos2Z.inj_succ.
    replace (Z.succ (Zpos (digits2_pos p)) - 1) with (Z.succ (Zpos (digits2_pos p) - 1)) by lia.
    rewrite !Z.pow_succ_r by lia. lia.
  - cbn. lia.
Qed.

Lemma pow2_gt0 k : 0 <= k -> 0 < 2 ^ k.
Proof. intros; apply Z.pow_pos_nonneg; lia. Qed.

Lemma pow2_split a b : 0 <= a -> 0 <= b -> 2 ^ (a + b) = 2 ^ a * 2 ^ b.
Proof. intros; apply Z.pow_add_r; lia. Qed.

Lemma pow2_le a b : 0 <= a <= b -> 2 ^ a <= 2 ^ b.
Proof. intros; apply Z.pow_le_mono_r; lia. Qed.

Lemma pow2_lt a b : 0 <= a < b -> 2 ^ a < 2 ^ b.
Proof. intros; apply Z.pow_lt_mono_r; lia. Qed.

Lemma Zdig_unique p k : 2 ^ (k - 1) <= Zpos p < 2 ^ k -> Zdig p = k.
Proof.
  intros [Hlo Hhi]. pose proof (Zdig_bounds p) as [Blo Bhi]. pose proof (Zdig_pos p).
  assert (0 < k).
  { destruct (Z_lt_le_dec 0 k); [lia|]. destruct (Z.eq_dec k 0) as [->|]; [cbn in Hhi; lia|].
    rewrite Z.pow_neg_r in Hhi by lia. lia. }
  destruct (Z.lt_trichotomy (Zdig p) k) as [Hc | [Hc | Hc]]; [ | exact Hc | ].
  - assert (2 ^ Zdig p <= 2 ^ (k - 1)) by (apply pow2_le; lia). lia.
  - assert (2 ^ k <= 2 ^ (Zdig p - 1)) by (apply pow2_le; lia). lia.
Qed.

Lemma shr_1_bounds M k mrs :
  0 <= k -> shr_bounds M k mrs -> shr_bounds M (k + 1) (shr_1 mrs).
Proof.
  intros Hk (Hm & Hb). destruct mrs as [m r s]; cbn [shr_m shr_r shr_s] in *.
  unfold shr_bounds. rewrite pow2_split by lia. change (2 ^ 1) with 2.
  pose proof (pow2_gt0 k Hk) as Hp.
  destruct m as [ | [p|p|] | p]; cbn [shr_1 shr_m]; try lia; (split; [lia | nia]).
Qed.

Lemma shr_1_exact M k mrs :
  0 <= k -> shr_bounds M k mrs -> shr_exact M k mrs -> shr_exact M (k + 1) (shr_1 mrs).
Proof.
  intros Hk (Hm & Hb) Hx. destruct mrs as [m r s]; cbn [shr_m shr_r shr_s] in *.
  unfold shr_exact in *; cbn [shr_m shr_r shr_s] in *.
  rewrite pow2_split by lia. change (2 ^ 1) with 2.
  pose proof (pow2_gt0 k Hk) as Hp.
  assert (Hrs : r || s = false -> M = m * 2 ^ k) by apply Hx.
  assert (Hrs' : r || s = true -> M <> m * 2 ^ k).
  { intros E1 E2. apply Hx in E2. congruence. }
  clear Hx.
  destruct m as [ | [p|p|] | p]; cbn [shr_1 shr_m shr_r shr_s]; try lia;
    destruct (r || s) eqn:E; cbn [orb]; split; intros; try discriminate;
      try (specialize (Hrs' eq_refl)); try (specialize (Hrs eq_refl));
      try (exfalso; nia); try nia.
Qed.

Lemma iter_shr_1_bounds M p : forall k mrs, 0 <= k -> shr_bounds M k mrs ->
  shr_bounds M (k + Zpos p) (iter_pos shr_1 p mrs).
Proof.
  induction p as [p IH | p IH | ]; intros k mrs Hk H; cbn [iter_pos].
  - replace (k + Zpos p~1) with (k + 1 + Zpos p + Zpos p) by lia.
    apply IH; [lia|]. apply IH; [lia|]. apply shr_1_bounds; assumption.
  - replace (k + Zpos p~0) with (k + Zpos p + Zpos p) by lia.
    apply IH; [lia|]. apply IH; assumption.
  - apply shr_1_bounds; assumption.
Qed.

Lemma iter_shr_1_exact M p : forall k mrs, 0 <= k ->
  shr_bounds M k mrs -> shr_exact M k mrs ->
  shr_exact M (k + Zpos p) (iter_pos shr_1 p mrs).
Proof.
  induction p as [p IH | p IH | ]; intros k mrs Hk Hb Hx; cbn [iter_pos].
  - replace (k + Zpos p~1) with (k + 1 + Zpos p + Zpos p) by lia.
    apply IH; [lia | |].
    + apply iter_shr_1_bounds; [lia|]. apply shr_1_bounds; assumption.
    + apply IH; [lia | |]; [apply shr_1_bounds | apply shr_1_exact]; assumption.
  - replace (k + Zpos p~0) with (k + Zpos p + Zpos p) by lia.
    apply IH; [lia | |].
    + apply iter_shr_1_bounds; assumption.
    + apply IH; assumption.
  - apply shr_1_exact; assumption.
Qed.

Lemma between_multiples m c X M :
  0 < X -> m * X <= M < (m + 1) * X -> M = c * X -> c = m.
Proof.
  intros HX [Hlo Hhi] ->.
  apply Z.mul_le_mono_pos_r in Hlo; [|assumption].
  apply Z.mul_lt_mono_pos_r in Hhi; [|assumption]. lia.
Qed.

Section Format.
Variables prec emax K : Z.
Hypothesis Hprec : 0 < prec.
Hypothesis HK : - K <= SpecFloat.emin prec emax.

Local Abbreviation emin := (SpecFloat.emin prec emax).
Local Abbreviation fexp := (SpecFloat.fexp prec emax).
Local Abbreviation pack := (pack prec emax).
Local Abbreviation packs := (packs prec emax).
Local Abbreviation Fval := (Fval K).
Local Abbreviation rounded := (rounded prec emax K).

Lemma fexp_ge_emin e : emin <= fexp e.
Proof. unfold SpecFloat.fexp. lia. Qed.

Lemma fexp_mono a b : a <= b -> fexp a <= fexp b.
Proof. unfold SpecFloat.fexp. lia. Qed.

Lemma fexp_succ a : fexp a <= fexp (a + 1) <= fexp a + 1.
Proof. unfold SpecFloat.fexp. lia. Qed.

Lemma Zdigits2_Zpos p : Zdigits2 (Zpos p) = Zdig p.
Proof. reflexivity. Qed.

(** First stage of [binary_round_aux]: align the mantissa on the target
    exponent, keeping the round and sticky bits. *)
Lemma first_shift_bounds M ex l :
  0 <= M -> ex <= fexp (Zdigits2 M + ex) ->
  exists mrs, shr_fexp prec emax M ex l = (mrs, fexp (Zdigits2 M + ex))
              /\ shr_bounds M (fexp (Zdigits2 M + ex) - ex) mrs.
Proof.
  intros HM Hle. unfold shr_fexp, shr.
  assert (H0 : shr_bounds M 0 (shr_record_of_loc M l)).
  { unfold shr_bounds. destruct l as [ | [ | | ]]; cbn; lia. }
  destruct (fexp (Zdigits2 M + ex) - ex) as [ | p | p] eqn:E; try lia.
  - eexists; split; [f_equal; lia | exact H0].
  - eexists; split; [f_equal; lia |].
    change (Zpos p) with (0 + Zpos p). apply iter_shr_1_bounds; [lia | exact H0].
Qed.

Lemma first_shift M ex :
  ex <= fexp (Zdig M + ex) ->
  exists mrs, shr_fexp prec emax (Zpos M) ex loc_Exact = (mrs, fexp (Zdig M + ex))
              /\ shr_bounds (Zpos M) (fexp (Zdig M + ex) - ex) mrs
              /\ shr_exact (Zpos M) (fexp (Zdig M + ex) - ex) mrs.
Proof.
  intros Hle. unfold shr_fexp, shr. rewrite Zdigits2_Zpos. cbn [shr_record_of_loc].
  assert (H0 : shr_bounds (Zpos M) 0 {| shr_m := Zpos M; shr_r := false; shr_s := false |}).
  { unfold shr_bounds; cbn. lia. }
  assert (H1 : shr_exact (Zpos M) 0 {| shr_m := Zpos M; shr_r := false; shr_s := false |}).
  { unfold shr_exact; cbn. split; intros; [lia | reflexivity]. }
  destruct (fexp (Zdig M + ex) - ex) as [ | p | p] eqn:E; try lia.
  - eexists; split; [f_equal; lia | split; assumption].
  - eexists; split; [f_equal; lia |].
    change (Zpos p) with (0 + Zpos p).
    split; [apply iter_shr_1_bounds | apply iter_shr_1_exact]; (lia || assumption).
Qed.

Lemma round_nearest_even_cases mrs :
  let m2 := round_nearest_even (shr_m mrs) (loc_of_shr_record mrs) in
  m2 = shr_m mrs \/ (m2 = shr_m mrs + 1 /\ shr_r mrs || shr_s mrs = true).
Proof.
  destruct mrs as [m [|] [|]]; cbn; auto; destruct (Z.even m); auto.
Qed.

(** After the first shift the truncated mantissa sits on its own exponent. *)
Lemma shifted_canonical M ex m1 :
  ex <= fexp (Zdig M + ex) ->
  0 <= m1 ->
  m1 * 2 ^ (fexp (Zdig M + ex) - ex) <= Zpos M < (m1 + 1) * 2 ^ (fexp (Zdig M + ex) - ex) ->
  fexp (Zdigits2 m1 + fexp (Zdig M + ex)) = fexp (Zdig M + ex).
Proof using Hprec.
  intros Hle Hm1 Hb. set (e' := fexp (Zdig M + ex)) in *. set (n := e' - ex) in *.
  pose proof (Zdig_bounds M) as [Dlo Dhi]. pose proof (Zdig_pos M) as Dpos.
  set (d := Zdig M) in *.
  assert (Hn : 0 <= n) by lia.
  pose proof (pow2_gt0 n Hn) as Hpn.
  destruct m1 as [ | q | q]; [ | | lia].
  - (* everything was shifted out: only possible in the subnormal range *)
    cbn [Zdigits2]. assert (d <= n).
    { destruct (Z_lt_le_dec n d); [|lia].
      assert (2 ^ n <= 2 ^ (d - 1)) by (apply pow2_le; lia). lia. }
    assert (e' = emin) by (subst e' n; unfold SpecFloat.fexp in *; lia).
    unfold SpecFloat.fexp. lia.
  - rewrite Zdigits2_Zpos.
    assert (Hnd : n < d).
    { destruct (Z_lt_le_dec n d); [lia|].
      assert (2 ^ d <= 2 ^ n) by (apply pow2_le; lia). nia. }
    assert (Zdig q = d - n).
    { apply Zdig_unique.
      assert (E1 : 2 ^ (d - 1) = 2 ^ (d - n - 1) * 2 ^ n).
      { rewrite <- pow2_split by lia. f_equal; lia. }
      assert (E2 : 2 ^ d = 2 ^ (d - n) * 2 ^ n).
      { rewrite <- pow2_split by lia. f_equal; lia. }
      assert (0 < 2 ^ (d - n - 1)) by (apply pow2_gt0; lia).
      assert (0 < 2 ^ (d - n)) by (apply pow2_gt0; lia).
      split; nia. }
    replace (Zdig q + e') with (d + ex) by lia. reflexivity.
Qed.

Lemma Zdigits2_succ m1 :
  0 <= m1 ->
  Zdigits2 (m1 + 1) = Zdigits2 m1 \/
  (m1 + 1 = 2 ^ Zdigits2 m1 /\ Zdigits2 (m1 + 1) = Zdigits2 m1 + 1).
Proof.
  intros Hm. destruct m1 as [ | q | q]; [right; cbn; auto | | lia].
  pose proof (Zdig_bounds q) as [Dlo Dhi]. pose proof (Zdig_pos q).
  rewrite Zdigits2_Zpos.
  assert (exists r, Zpos q + 1 = Zpos r) as [r Hr] by (exists (q + 1)%positive; lia).
  rewrite Hr, Zdigits2_Zpos.
  destruct (Z.eq_dec (Zpos r) (2 ^ Zdig q)) as [E | NE].
  - right. split; [assumption|]. apply Zdig_unique.
    replace (Zdig q + 1 - 1) with (Zdig q) by lia.
    rewrite pow2_split by lia. change (2 ^ 1) with 2. lia.
  - left. apply Zdig_unique. lia.
Qed.

(** What [binary_round_aux] produces once the rounded mantissa [m2] at
    exponent [e'] is known. *)
Lemma second_shift s m1 m2 e' :
  emin <= e' ->
  0 <= m1 -> fexp (Zdigits2 m1 + e') = e' ->
  m2 = m1 \/ m2 = m1 + 1 ->
  packs s m2 e'
    (let '(mrs'', e'') := shr_fexp prec emax m2 e' loc_Exact in
     match shr_m mrs'' with
     | Z0 => S754_zero s
     | Zpos m => if Z.leb e'' (Z.sub emax prec) then S754_finite s m e'' else S754_infinity s
     | _ => S754_nan
     end).
Proof using Hprec.
  intros He Hm1 Hcan Hm2.
  assert (Hd : fexp (Zdigits2 m2 + e') = e' \/
               (m2 = 2 ^ Zdigits2 m1 /\ Zdigits2 m2 = Zdigits2 m1 + 1 /\ fexp (Zdigits2 m2 + e') = e' + 1)).
  { destruct Hm2 as [-> | ->]; [left; assumption|].
    destruct (Zdigits2_succ m1 Hm1) as [E | [E1 E2]]; [left; rewrite E; assumption|].
    pose proof (fexp_succ (Zdigits2 m1 + e')) as Hs.
    replace (Zdigits2 m1 + e' + 1) with (Zdigits2 (m1 + 1) + e') in Hs by lia.
    rewrite Hcan in Hs.
    destruct (Z.eq_dec (fexp (Zdigits2 (m1 + 1) + e')) e'); [left; assumption | right].
    repeat split; try assumption; lia. }
  unfold shr_fexp, shr. cbn [shr_record_of_loc].
  destruct Hd as [E | (E1 & E2 & E3)].
  - rewrite E, Z.sub_diag. cbn [shr_m].
    destruct m2 as [ | q | q]; [constructor; reflexivity | | lia].
    apply packs_some with (m3 := q) (e3 := e'); try lia.
    + rewrite Z.sub_diag. cbn. lia.
    + unfold canonical_mantissa. apply Z.eqb_eq. exact E.
  - rewrite E3. replace (e' + 1 - e') with 1 by lia. cbn [iter_pos].
    assert (Hd1 : 1 <= Zdigits2 m1).
    { destruct m1 as [ | q | q]; [ | cbn; lia | lia].
      cbn in E2. rewrite E2 in E3. unfold SpecFloat.fexp in E3. lia. }
    assert (Hev : m2 = 2 * 2 ^ (Zdigits2 m1 - 1)).
    { rewrite E1. replace (Zdigits2 m1) with (1 + (Zdigits2 m1 - 1)) at 1 by lia.
      rewrite pow2_split by lia. reflexivity. }
    pose proof (pow2_gt0 (Zdigits2 m1 - 1) ltac:(lia)) as Hpp.
    destruct m2 as [ | [q|q|] | q]; try lia. cbn [shr_1 shr_m orb].
    assert (Hq : Zpos q = 2 ^ (Zdigits2 m1 - 1)) by lia.
    apply packs_some with (m3 := q) (e3 := e' + 1); try lia.
    + replace (e' + 1 - e') with 1 by lia. change (2 ^ 1) with 2. lia.
    + unfold canonical_mantissa. apply Z.eqb_eq.
      assert (Hdq : Zdig q = Zdigits2 m1).
      { apply Zdig_unique. rewrite Hq. split; [lia|]. apply pow2_lt. lia. }
      change (Zpos (digits2_pos q)) with (Zdig q).
      rewrite Hdq. rewrite <- E3 at 2. f_equal. lia.
Qed.

(** The rounding core: an exact integer [M * 2^ex], already aligned so
    that no left shift is needed, is rounded to a neighbouring multiple of
    the target grid. *)
Lemma binary_round_aux_exact s M ex :
  ex <= fexp (Zdig M + ex) ->
  let e' := fexp (Zdig M + ex) in
  exists m2,
    0 <= m2 /\
    (m2 * 2 ^ (e' - ex) = Zpos M \/
     (Zpos M mod 2 ^ (e' - ex) <> 0 /\
      Zpos M - 2 ^ (e' - ex) < m2 * 2 ^ (e' - ex) < Zpos M + 2 ^ (e' - ex))) /\
    packs s m2 e' (binary_round_aux prec emax s (Zpos M) ex loc_Exact).
Proof using Hprec.
  intros Hle e'. destruct (first_shift M ex Hle) as (mrs & Hs & (Hm1 & Hb) & Hx).
  unfold shr_exact in Hx.
  fold e' in Hs, Hb, Hx.
  unfold binary_round_aux. rewrite Hs.
  set (m2 := round_nearest_even (shr_m mrs) (loc_of_shr_record mrs)).
  exists m2.
  pose proof (round_nearest_even_cases mrs) as Hr. cbv zeta in Hr. fold m2 in Hr.
  assert (Hn : 0 <= e' - ex) by lia. pose proof (pow2_gt0 _ Hn) as Hp.
  split; [lia|]. split.
  - destruct Hr as [-> | [-> Hrs]].
    + destruct (shr_r mrs || shr_s mrs) eqn:E.
      * right. assert (Zpos M <> shr_m mrs * 2 ^ (e' - ex)).
        { intros E2. apply Hx in E2. discriminate. }
        split; [|lia]. intros Hmod. apply Z.mod_divide in Hmod; [|lia].
        destruct Hmod as [c Hc].
        pose proof (between_multiples _ _ _ _ Hp Hb Hc). congruence.
      * left. symmetry. apply Hx. reflexivity.
    + right. assert (Zpos M <> shr_m mrs * 2 ^ (e' - ex)).
      { intros E2. apply Hx in E2. congruence. }
      split; [|lia]. intros Hmod. apply Z.mod_divide in Hmod; [|lia].
      destruct Hmod as [c Hc].
      pose proof (between_multiples _ _ _ _ Hp Hb Hc). congruence.
  - apply second_shift with (m1 := shr_m mrs); try assumption.
    + subst e'. apply fexp_ge_emin.
    + apply shifted_canonical; assumption.
    + destruct Hr as [-> | [-> _]]; auto.
Qed.

(** ** Values on a common integer scale

    A finite float [m * 2^e] is read as the integer [m * 2^(e + K)], for an
    offset [K] large enough for every exponent in play. *)
Lemma Fval_pos m e : - K <= e -> 0 < Fval m e.
Proof using.
  clear Hprec HK. intros. unfold Fval. pose proof (pow2_gt0 (e + K) ltac:(lia)). nia.
Qed.

Lemma Fval_digits m e :
  - K <= e -> 2 ^ (Zdig m + e + K - 1) <= Fval m e < 2 ^ (Zdig m + e + K).
Proof.
  intros He. unfold Fval. pose proof (Zdig_bounds m) as [Dlo Dhi]. pose proof (Zdig_pos m).
  replace (Zdig m + e + K - 1) with ((Zdig m - 1) + (e + K)) by lia.
  replace (Zdig m + e + K) with (Zdig m + (e + K)) by lia.
  rewrite (pow2_split (Zdig m - 1) (e + K)), (pow2_split (Zdig m) (e + K)) by lia.
  pose proof (pow2_gt0 (e + K) ltac:(lia)). split; nia.
Qed.

Lemma Fval_le_digits m1 e1 m2 e2 :
  - K <= e1 -> - K <= e2 -> Fval m1 e1 <= Fval m2 e2 -> Zdig m1 + e1 <= Zdig m2 + e2.
Proof.
  intros H1 H2 Hle. pose proof (Fval_digits m1 e1 H1) as [L1 _].
  pose proof (Fval_digits m2 e2 H2) as [_ U2].
  pose proof (Zdig_pos m1). pose proof (Zdig_pos m2).
  destruct (Z_lt_le_dec (Zdig m2 + e2) (Zdig m1 + e1)); [|lia].
  assert (2 ^ (Zdig m2 + e2 + K) <= 2 ^ (Zdig m1 + e1 + K - 1)) by (apply pow2_le; lia). lia.
Qed.

Lemma canonical_inv m e :
  canonical_mantissa prec emax m e = true ->
  emin <= e /\ fexp (Zdig m + e) = e /\ Zdig m <= prec /\ (emin < e -> Zdig m = prec).
Proof.
  unfold canonical_mantissa. intros H. apply Z.eqb_eq in H. fold (Zdig m) in H.
  pose proof (fexp_ge_emin (Zdig m + e)). unfold SpecFloat.fexp in *. lia.
Qed.

Lemma bounded_inv m e :
  bounded prec emax m e = true ->
  canonical_mantissa prec emax m e = true /\ e <= emax - prec.
Proof. unfold bounded. intros H. apply andb_true_iff in H as [H1 H2]. split; [assumption | lia]. Qed.

(** Canonical representations are ordered by exponent first. *)
Lemma canonical_exp_lt m1 e1 m2 e2 :
  canonical_mantissa prec emax m1 e1 = true ->
  canonical_mantissa prec emax m2 e2 = true ->
  e1 < e2 -> Fval m1 e1 < Fval m2 e2.
Proof using HK Hprec.
  intros C1 C2 Hlt.
  apply canonical_inv in C1 as (A1 & B1 & D1 & _). apply canonical_inv in C2 as (A2 & B2 & D2 & F2).
  specialize (F2 ltac:(lia)).
  pose proof (Fval_digits m1 e1 ltac:(lia)) as [_ U1].
  pose proof (Fval_digits m2 e2 ltac:(lia)) as [L2 _].
  pose proof (Zdig_pos m1).
  assert (2 ^ (Zdig m1 + e1 + K) <= 2 ^ (Zdig m2 + e2 + K - 1)) by (apply pow2_le; lia). lia.
Qed.

Lemma canonical_val_le_exp m1 e1 m2 e2 :
  canonical_mantissa prec emax m1 e1 = true ->
  canonical_mantissa prec emax m2 e2 = true ->
  Fval m1 e1 <= Fval m2 e2 -> e1 <= e2.
Proof using HK Hprec.
  intros C1 C2 Hle. destruct (Z_lt_le_dec e2 e1) as [Hlt|]; [|lia].
  pose proof (canonical_exp_lt _ _ _ _ C2 C1 Hlt). lia.
Qed.

Lemma Fval_same_exp m1 m2 e : - K <= e -> (Fval m1 e ?= Fval m2 e) = (m1 ?= m2)%positive.
Proof.
  intros He. unfold Fval. pose proof (pow2_gt0 (e + K) ltac:(lia)) as Hp.
  rewrite Pos2Z.inj_compare.
  destruct (Z.compare_spec (Zpos m1) (Zpos m2)) as [E | E | E].
  - rewrite E. apply Z.compare_refl.
  - apply Z.compare_lt_iff. nia.
  - apply Z.compare_gt_iff. nia.
Qed.

(** [SFcompare] on canonical positive floats is the comparison of values. *)
Lemma SFcompare_pos m1 e1 m2 e2 :
  canonical_mantissa prec emax m1 e1 = true ->
  canonical_mantissa prec emax m2 e2 = true ->
  SFcompare (S754_finite false m1 e1) (S754_finite false m2 e2)
  = Some (Fval m1 e1 ?= Fval m2 e2).
Proof using HK Hprec.
  intros C1 C2. cbn [SFcompare]. f_equal.
  destruct (Z.compare_spec e1 e2) as [E | E | E].
  - subst e2. rewrite Fval_same_exp; [|apply canonical_inv in C1; lia].
    rewrite Pos.compare_cont_spec. destruct (m1 ?= m2)%positive; reflexivity.
  - symmetry. apply Z.compare_lt_iff. apply canonical_exp_lt; assumption.
  - symmetry. apply Z.compare_gt_iff. apply canonical_exp_lt; assumption.
Qed.

Lemma canonical_unique m1 e1 m2 e2 :
  canonical_mantissa prec emax m1 e1 = true ->
  canonical_mantissa prec emax m2 e2 = true ->
  Fval m1 e1 = Fval m2 e2 -> m1 = m2 /\ e1 = e2.
Proof using HK Hprec.
  intros C1 C2 E.
  assert (e1 = e2).
  { pose proof (canonical_val_le_exp _ _ _ _ C1 C2). pose proof (canonical_val_le_exp _ _ _ _ C2 C1). lia. }
  subst e2. split; [|reflexivity].
  pose proof (Fval_same_exp m1 m2 e1) as H. rewrite E, Z.compare_refl in H.
  symmetry in H. apply Pos.compare_eq in H; [assumption|].
  apply canonical_inv in C1. lia.
Qed.

(** ** Left alignment *)
Lemma Pos_iter_xO m d : Zpos (Pos.iter xO m d) = Zpos m * 2 ^ Zpos d.
Proof.
  rewrite (Pos.iter_swap_gen _ _ Zpos xO (Z.mul 2)) by reflexivity.
  change (Pos.iter (Z.mul 2) (Zpos m) d) with (Z.shiftl (Zpos m) (Zpos d)).
  apply Z.shiftl_mul_pow2. lia.
Qed.

Lemma shl_align_spec m e e' :
  e' <= e ->
  exists m', shl_align m e e' = (m', e') /\ Zpos m' = Zpos m * 2 ^ (e - e').
Proof.
  intros Hle. unfold shl_align. destruct (e' - e) as [ | d | d] eqn:E; try lia.
  - exists m. replace e' with e by lia. rewrite Z.sub_diag. split; [reflexivity | cbn; lia].
  - exists (Pos.iter xO m d). split; [reflexivity|]. rewrite Pos_iter_xO. f_equal. f_equal. lia.
Qed.

Lemma Zdig_shift m m' k : 0 <= k -> Zpos m' = Zpos m * 2 ^ k -> Zdig m' = Zdig m + k.
Proof.
  intros Hk E. apply Zdig_unique. rewrite E.
  pose proof (Zdig_bounds m) as [Dlo Dhi]. pose proof (Zdig_pos m).
  replace (Zdig m + k - 1) with ((Zdig m - 1) + k) by lia.
  rewrite (pow2_split (Zdig m - 1) k), (pow2_split (Zdig m) k) by lia.
  pose proof (pow2_gt0 k Hk). split; nia.
Qed.

(** ** Specification of [binary_round]

    [rounded M ex m e]: the canonical pair [(m, e)] is [M * 2^ex] itself
    when that lies on the grid of its binade, and one of its two grid
    neighbours otherwise. *)
Lemma binary_round_spec s M ex :
  - K <= ex ->
  (binary_round prec emax s M ex = S754_zero s /\ Fval M ex < 2 ^ (fexp (Zdig M + ex) + K)) \/
  (exists m e, rounded M ex m e /\ binary_round prec emax s M ex = pack s m e).
Proof using HK Hprec.
  intros Hex. unfold binary_round. fold (Zdig M).
  set (e' := fexp (Zdig M + ex)).
  assert (He' : emin <= e') by apply fexp_ge_emin.
  destruct (Z_lt_le_dec e' ex) as [Hlt | Hge].
  - (* the mantissa is shifted left: the result is exact *)
    destruct (shl_align_spec M ex e' ltac:(lia)) as (mz & -> & Hmz).
    assert (Hd : Zdig mz + e' = Zdig M + ex).
    { rewrite (Zdig_shift M mz (ex - e')) by (lia || assumption). lia. }
    destruct (binary_round_aux_exact s mz e') as (m2 & Hm2 & Hv & Hp).
    { rewrite Hd. fold e'. lia. }
    rewrite Hd in Hv, Hp. fold e' in Hv, Hp. rewrite Z.sub_diag in Hv.
    change (2 ^ 0) with 1 in Hv. rewrite Z.mod_1_r in Hv.
    destruct Hv as [Hv | [Hv _]]; [|congruence].
    inversion Hp as [E0 | m3 e3 Hm3 He3 Hc3]; [lia|].
    right. exists m3, e3. split; [|reflexivity].
    split; [assumption|]. split; [fold e'; lia|]. left.
    unfold Fval. replace (e3 + K) with ((e3 - e') + (e' + K)) by lia.
    replace (ex + K) with ((ex - e') + (e' + K)) by lia.
    rewrite (pow2_split (e3 - e') (e' + K)), (pow2_split (ex - e') (e' + K)) by lia.
    rewrite !Z.mul_assoc, Hm3, <- Hmz. lia.
  - assert (Hsh : shl_align M ex e' = (M, ex)).
    { unfold shl_align. destruct (e' - ex) eqn:E; try reflexivity. lia. }
    rewrite Hsh.
    destruct (binary_round_aux_exact s M ex Hge) as (m2 & Hm2 & Hv & Hp).
    fold e' in Hv, Hp.
    assert (Hn : 0 <= e' - ex) by lia.
    pose proof (pow2_gt0 (e' - ex) Hn) as Hpn. pose proof (pow2_gt0 (ex + K) ltac:(lia)) as Hpk.
    assert (HG : 2 ^ (e' + K) = 2 ^ (e' - ex) * 2 ^ (ex + K)).
    { rewrite <- pow2_split by lia. f_equal; lia. }
    inversion Hp as [E0 | m3 e3 Hm3 He3 Hc3].
    + left. split; [reflexivity|]. unfold Fval. rewrite HG. subst m2.
      destruct Hv as [Hv | [_ Hv]]; nia.
    + right. exists m3, e3. split; [|reflexivity].
      assert (Hval : Fval m3 e3 = m2 * 2 ^ (e' + K)).
      { unfold Fval. replace (e3 + K) with ((e3 - e') + (e' + K)) by lia.
        rewrite (pow2_split (e3 - e') (e' + K)) by lia. rewrite Z.mul_assoc, Hm3. reflexivity. }
      split; [assumption|]. split; [fold e'; lia|]. rewrite Hval. fold e'.
      destruct Hv as [Hv | [Hnd Hv]].
      * left. unfold Fval. rewrite HG. nia.
      * right. split.
        -- intros [c Hc]. apply Hnd. apply Z.mod_divide; [lia|]. exists c.
           unfold Fval in Hc. rewrite HG in Hc. nia.
        -- unfold Fval. rewrite HG. nia.
Qed.

Lemma Fval_grid m e e' : - K <= e' -> e' <= e -> Fval m e = (Zpos m * 2 ^ (e - e')) * 2 ^ (e' + K).
Proof.
  intros H1 H2. unfold Fval. replace (e + K) with ((e - e') + (e' + K)) by lia.
  rewrite (pow2_split (e - e') (e' + K)) by lia. ring.
Qed.

Lemma grid_lt_le c k G : 0 < G -> c * G < (k + 1) * G -> c * G <= k * G.
Proof.
  intros HG H. apply Z.mul_lt_mono_pos_r in H; [|assumption].
  apply Z.mul_le_mono_nonneg_r; lia.
Qed.

(** Rounding never crosses a representable value: from below ... *)
Lemma rounded_ge M ex m e mx e_x :
  - K <= ex -> rounded M ex m e ->
  canonical_mantissa prec emax mx e_x = true ->
  Fval mx e_x <= Fval M ex -> Fval mx e_x <= Fval m e.
Proof using HK Hprec.
  intros Hex (Hc & He & Hv) Cx Hle. set (e' := fexp (Zdig M + ex)) in *.
  destruct Hv as [-> | [_ [Hlo _]]]; [assumption|].
  pose proof (fexp_ge_emin (Zdig M + ex)) as He'. fold e' in He'.
  pose proof (canonical_inv _ _ Cx) as (Ax & Bx & Dx & _).
  assert (Hxe : e_x <= e').
  { rewrite <- Bx. apply fexp_mono. apply Fval_le_digits; [lia | lia | assumption]. }
  pose proof (pow2_gt0 (e' + K) ltac:(lia)) as HG.
  rewrite (Fval_grid m e e') in * by lia.
  set (c := Zpos m * 2 ^ (e - e')) in *. set (G := 2 ^ (e' + K)) in *.
  destruct (Z.eq_dec e' e_x) as [E | NE].
  - subst e_x. unfold Fval at 1. fold G. unfold Fval at 1 in Hle. fold G in Hle.
    assert (Hlt : (Zpos mx - 1) * G < c * G) by lia.
    apply Z.mul_lt_mono_pos_r in Hlt; [|assumption].
    apply Z.mul_le_mono_nonneg_r; lia.
  - assert (E' : e' = Zdig M + ex - prec) by (subst e'; unfold SpecFloat.fexp in *; lia).
    pose proof (Fval_digits M ex Hex) as [VL _].
    replace (Zdig M + ex + K - 1) with ((prec - 1) + (e' + K)) in VL by lia.
    rewrite (pow2_split (prec - 1) (e' + K)) in VL by lia. fold G in VL.
    assert (Hlt : (2 ^ (prec - 1) - 1) * G < c * G) by lia.
    apply Z.mul_lt_mono_pos_r in Hlt; [|assumption].
    assert (HcG : 2 ^ (prec - 1) * G <= c * G) by (apply Z.mul_le_mono_nonneg_r; lia).
    pose proof (Fval_digits mx e_x ltac:(lia)) as [_ VU].
    assert (HP : 2 ^ (Zdig mx + e_x + K) <= 2 ^ ((prec - 1) + (e' + K))).
    { pose proof (Zdig_pos mx). apply pow2_le. lia. }
    rewrite (pow2_split (prec - 1) (e' + K)) in HP by lia. fold G in HP. lia.
Qed.

(** ... and from above. *)
Lemma rounded_le M ex m e mx e_x :
  - K <= ex -> rounded M ex m e ->
  canonical_mantissa prec emax mx e_x = true ->
  Fval M ex <= Fval mx e_x -> Fval m e <= Fval mx e_x.
Proof using HK Hprec.
  intros Hex (Hc & He & Hv) Cx Hle. set (e' := fexp (Zdig M + ex)) in *.
  destruct Hv as [-> | [_ [_ Hhi]]]; [assumption|].
  pose proof (fexp_ge_emin (Zdig M + ex)) as He'. fold e' in He'.
  pose proof (canonical_inv _ _ Cx) as (Ax & Bx & Dx & _).
  assert (Hxe : e' <= e_x).
  { rewrite <- Bx. apply fexp_mono. apply Fval_le_digits; [lia | lia | assumption]. }
  pose proof (pow2_gt0 (e' + K) ltac:(lia)) as HG.
  rewrite (Fval_grid m e e') in * by lia.
  rewrite (Fval_grid mx e_x e') in * by lia.
  apply grid_lt_le; [assumption|]. lia.
Qed.

Lemma rounded_le_bounded M ex m e mx e_x :
  - K <= ex -> rounded M ex m e ->
  bounded prec emax mx e_x = true ->
  Fval M ex <= Fval mx e_x -> bounded prec emax m e = true.
Proof using HK Hprec.
  intros Hex Hr Bx Hle. apply bounded_inv in Bx as [Cx Ex].
  pose proof (rounded_le _ _ _ _ _ _ Hex Hr Cx Hle) as Hv.
  destruct Hr as (Hc & _). unfold bounded. rewrite Hc. cbn.
  apply Z.leb_le. pose proof (canonical_val_le_exp _ _ _ _ Hc Cx Hv). lia.
Qed.

Lemma not_small_of_ge M ex mx e_x :
  - K <= ex ->
  canonical_mantissa prec emax mx e_x = true ->
  Fval mx e_x <= Fval M ex -> 2 ^ (fexp (Zdig M + ex) + K) <= Fval M ex.
Proof using HK Hprec.
  intros Hex Cx Hle. set (e' := fexp (Zdig M + ex)).
  pose proof (fexp_ge_emin (Zdig M + ex)) as He'. fold e' in He'.
  pose proof (canonical_inv _ _ Cx) as (Ax & Bx & Dx & _).
  assert (Hxe : e_x <= e').
  { rewrite <- Bx. apply fexp_mono. apply Fval_le_digits; [lia | lia | assumption]. }
  destruct (Z.eq_dec e' e_x) as [E | NE].
  - rewrite E. unfold Fval in Hle |- *. pose proof (pow2_gt0 (e_x + K) ltac:(lia)). nia.
  - assert (E' : e' = Zdig M + ex - prec) by (subst e'; unfold SpecFloat.fexp in *; lia).
    pose proof (Fval_digits M ex Hex) as [VL _].
    assert (2 ^ (e' + K) <= 2 ^ (Zdig M + ex + K - 1)) by (apply pow2_le; lia). lia.
Qed.

(** ** Sums and differences of positive finite floats *)
Lemma SFadd_pos mx ex my ey :
  - K <= ex -> - K <= ey ->
  exists M,
    SFadd prec emax (S754_finite false mx ex) (S754_finite false my ey)
    = binary_round prec emax false M (Z.min ex ey)
    /\ Fval M (Z.min ex ey) = Fval mx ex + Fval my ey.
Proof.
  intros Hx Hy. cbn [SFadd cond_Zopp]. set (ez := Z.min ex ey).
  destruct (shl_align_spec mx ex ez ltac:(lia)) as (mx' & -> & Ex).
  destruct (shl_align_spec my ey ez ltac:(lia)) as (my' & -> & Ey).
  cbn [fst]. exists (mx' + my')%positive. split; [reflexivity|].
  rewrite (Fval_grid mx ex ez), (Fval_grid my ey ez) by lia.
  unfold Fval. rewrite Pos2Z.inj_add, Ex, Ey. ring.
Qed.

Lemma SFsub_pos mx ex my ey :
  - K <= ex -> - K <= ey ->
  let ez := Z.min ex ey in
  (Fval mx ex = Fval my ey /\
   SFsub prec emax (S754_finite false mx ex) (S754_finite false my ey) = S754_zero false) \/
  (exists M, Fval M ez = Fval mx ex - Fval my ey /\
     SFsub prec emax (S754_finite false mx ex) (S754_finite false my ey)
     = binary_round prec emax false M ez) \/
  (exists M, Fval M ez = Fval my ey - Fval mx ex /\
     SFsub prec emax (S754_finite false mx ex) (S754_finite false my ey)
     = binary_round prec emax true M ez).
Proof.
  intros Hx Hy ez. cbn [SFsub cond_Zopp]. fold ez.
  destruct (shl_align_spec mx ex ez ltac:(lia)) as (mx' & -> & Ex).
  destruct (shl_align_spec my ey ez ltac:(lia)) as (my' & -> & Ey).
  cbn [fst].
  rewrite (Fval_grid mx ex ez), (Fval_grid my ey ez) by lia. rewrite <- Ex, <- Ey.
  pose proof (pow2_gt0 (ez + K) ltac:(lia)) as HG.
  destruct (Zpos mx' - Zpos my') as [ | d | d] eqn:E; cbn [binary_normalize].
  - left. split; [|reflexivity]. replace (Zpos mx') with (Zpos my') by lia. reflexivity.
  - right; left. exists d. split; [|reflexivity]. unfold Fval. nia.
  - right; right. exists d. split; [|reflexivity]. unfold Fval. nia.
Qed.
End Format.

Section MoreFormat.
Variables prec emax K : Z.
Hypothesis Hprec : 0 < prec.
Hypothesis HK : - K <= SpecFloat.emin prec emax.

Local Abbreviation emin := (SpecFloat.emin prec emax).
Local Abbreviation fexp := (SpecFloat.fexp prec emax).

Lemma pack_not_nan s m e : is_nan (pack prec emax s m e) = false.
Proof. unfold pack. destruct (Z.leb e (emax - prec)); reflexivity. Qed.

Lemma packs_not_nan s m2 e' R : packs prec emax s m2 e' R -> is_nan R = false.
Proof. intros [? | m3 e3 _ _ _]; [reflexivity | apply pack_not_nan]. Qed.

Lemma pack_valid s m e :
  canonical_mantissa prec emax m e = true -> valid_binary prec emax (pack prec emax s m e) = true.
Proof.
  intros C. unfold pack. destruct (Z.leb_spec e (emax - prec)); [|reflexivity].
  cbn. unfold bounded. rewrite C. cbn. apply Z.leb_le. assumption.
Qed.

Lemma packs_valid s m2 e' R : packs prec emax s m2 e' R -> valid_binary prec emax R = true.
Proof. intros [? | m3 e3 _ _ C]; [reflexivity | apply pack_valid; assumption]. Qed.

(** Rounding an exact positive mantissa never yields NaN. *)
Lemma binary_round_aux_not_nan s M ex :
  is_nan (binary_round_aux prec emax s (Zpos M) ex loc_Exact) = false.
Proof using Hprec.
  destruct (Z_le_gt_dec ex (fexp (Zdig M + ex))) as [Hle | Hgt].
  - destruct (binary_round_aux_exact prec emax Hprec s M ex Hle) as (m2 & _ & _ & Hp).
    eapply packs_not_nan; eauto.
  - unfold binary_round_aux, shr_fexp, shr. cbn [Zdigits2]. fold (Zdig M).
    destruct (fexp (Zdig M + ex) - ex) as [ | p | p] eqn:E; try lia.
    cbn [shr_record_of_loc shr_m loc_of_shr_record round_nearest_even Zdigits2].
    fold (Zdig M). rewrite E. cbn [shr_m].
    destruct (Z.leb ex (emax - prec)); reflexivity.
Qed.

(** [binary_round] always returns a valid float of the format. *)
Lemma binary_round_shape s M ex :
  exists m2, packs prec emax s m2 (fexp (Zdig M + ex)) (binary_round prec emax s M ex).
Proof using Hprec.
  unfold binary_round. fold (Zdig M). set (e' := fexp (Zdig M + ex)).
  destruct (Z_lt_le_dec e' ex) as [Hlt | Hge].
  - destruct (shl_align_spec M ex e' ltac:(lia)) as (mz & -> & Hmz).
    assert (Hd : Zdig mz + e' = Zdig M + ex).
    { rewrite (Zdig_shift M mz (ex - e')) by (lia || assumption). lia. }
    destruct (binary_round_aux_exact prec emax Hprec s mz e') as (m2 & _ & _ & Hp).
    { rewrite Hd. fold e'. lia. }
    rewrite Hd in Hp. fold e' in Hp. eauto.
  - assert (Hsh : shl_align M ex e' = (M, ex)).
    { unfold shl_align. destruct (e' - ex) eqn:E; try reflexivity. lia. }
    rewrite Hsh.
    destruct (binary_round_aux_exact prec emax Hprec s M ex Hge) as (m2 & _ & _ & Hp). eauto.
Qed.

Lemma binary_round_valid s M ex : valid_binary prec emax (binary_round prec emax s M ex) = true.
Proof using Hprec. destruct (binary_round_shape s M ex) as (m2 & Hp). eapply packs_valid; eauto. Qed.

Lemma binary_round_not_nan s M ex : is_nan (binary_round prec emax s M ex) = false.
Proof using Hprec. destruct (binary_round_shape s M ex) as (m2 & Hp). eapply packs_not_nan; eauto. Qed.

Lemma binary_normalize_not_nan z e s : is_nan (binary_normalize prec emax z e s) = false.
Proof using Hprec. destruct z; cbn [binary_normalize]; [reflexivity | | ]; apply binary_round_not_nan. Qed.

Lemma binary_normalize_valid z e s : valid_binary prec emax (binary_normalize prec emax z e s) = true.
Proof using Hprec. destruct z; cbn [binary_normalize]; [reflexivity | | ]; apply binary_round_valid. Qed.

Lemma SFadd_finite_not_nan x y :
  is_finite x = true -> is_finite y = true -> is_nan (SFadd prec emax x y) = false.
Proof using Hprec.
  destruct x as [ [|] | | | sx mx ex], y as [ [|] | | | sy my ey ]; intros Hx Hy;
    try discriminate; try reflexivity.
  cbn [SFadd]. apply binary_normalize_not_nan.
Qed.

Lemma SFsub_finite_l_not_nan x y :
  is_finite x = true -> is_nan y = false -> is_nan (SFsub prec emax x y) = false.
Proof using Hprec.
  destruct x as [ [|] | | | sx mx ex], y as [ [|] | [|] | | sy my ey ]; intros Hx Hy;
    try discriminate; try reflexivity.
  cbn [SFsub]. apply binary_normalize_not_nan.
Qed.

Lemma SFmul_finite_l_not_nan s m e y :
  is_nan y = false -> is_nan (SFmul prec emax (S754_finite s m e) y) = false.
Proof using Hprec.
  destruct y as [ sy | sy | | sy my ey ]; intros Hy; try discriminate; try reflexivity.
  cbn [SFmul]. apply binary_round_aux_not_nan.
Qed.

Lemma SFmul_finite_r_not_nan x s m e :
  is_nan x = false -> is_nan (SFmul prec emax x (S754_finite s m e)) = false.
Proof using Hprec.
  destruct x as [ sx | sx | | sx mx ex ]; intros Hx; try discriminate; try reflexivity.
  cbn [SFmul]. apply binary_round_aux_not_nan.
Qed.

(** [SFcompare] on canonical negative floats reverses the comparison of
    magnitudes. *)
Lemma SFcompare_neg m1 e1 m2 e2 :
  canonical_mantissa prec emax m1 e1 = true ->
  canonical_mantissa prec emax m2 e2 = true ->
  SFcompare (S754_finite true m1 e1) (S754_finite true m2 e2)
  = Some (Fval K m2 e2 ?= Fval K m1 e1).
Proof using HK Hprec.
  intros C1 C2. cbn [SFcompare]. f_equal.
  destruct (Z.compare_spec e1 e2) as [E | E | E].
  - subst e2. rewrite (Fval_same_exp K); [|apply canonical_inv in C1; lia].
    rewrite Pos.compare_cont_spec, (Pos.compare_antisym m1 m2).
    destruct (m1 ?= m2)%positive; reflexivity.
  - symmetry. apply Z.compare_gt_iff. apply (canonical_exp_lt prec emax K); assumption.
  - symmetry. apply Z.compare_lt_iff. apply (canonical_exp_lt prec emax K); assumption.
Qed.
End MoreFormat.

(** * Results of the operations are valid floats *)
Section Validity.
Variables prec emax : Z.
Hypothesis Hprec : 0 < prec.
Hypothesis Hemin : SpecFloat.emin prec emax <= 0.

Local Abbreviation emin := (SpecFloat.emin prec emax).
Local Abbreviation fexp := (SpecFloat.fexp prec emax).
Local Abbreviation valid := (valid_binary prec emax).

(** [binary_round_aux] from any location, once the exponent is not above
    the target one. *)
Lemma binary_round_aux_shape s q e l :
  0 <= q -> e <= fexp (Zdigits2 q + e) ->
  exists m2, packs prec emax s m2 (fexp (Zdigits2 q + e)) (binary_round_aux prec emax s q e l).
Proof using Hprec.
  intros Hq Hle. set (e' := fexp (Zdigits2 q + e)) in *.
  destruct (first_shift_bounds prec emax q e l Hq Hle) as (mrs & Hs & Hm1 & Hb).
  fold e' in Hs, Hb. unfold binary_round_aux. rewrite Hs.
  set (m2 := round_nearest_even (shr_m mrs) (loc_of_shr_record mrs)).
  exists m2. apply second_shift with (m1 := shr_m mrs); try assumption.
  - apply fexp_ge_emin.
  - destruct q as [ | qp | qp]; [ | | lia].
    + assert (shr_m mrs = 0).
      { pose proof (pow2_gt0 (e' - e) ltac:(lia)). nia. }
      rewrite H. cbn [Zdigits2]. subst e'. cbn [Zdigits2] in *.
      unfold SpecFloat.fexp in *. lia.
    + apply shifted_canonical; assumption.
  - pose proof (round_nearest_even_cases mrs) as Hr. cbv zeta in Hr. fold m2 in Hr.
    destruct Hr as [-> | [-> _]]; auto.
Qed.

Lemma Zdig_mul_ge mx my : Zdig mx + Zdig my - 1 <= Zdig (mx * my).
Proof.
  pose proof (Zdig_bounds mx) as [Lx _]. pose proof (Zdig_bounds my) as [Ly _].
  pose proof (Zdig_bounds (mx * my)) as [_ U]. pose proof (Zdig_pos mx). pose proof (Zdig_pos my).
  pose proof (Zdig_pos (mx * my)).
  destruct (Z_lt_le_dec (Zdig (mx * my)) (Zdig mx + Zdig my - 1)) as [Hlt|]; [|lia].
  assert (2 ^ Zdig (mx * my) <= 2 ^ ((Zdig mx - 1) + (Zdig my - 1))) by (apply pow2_le; lia).
  rewrite pow2_split in H2 by lia. rewrite Pos2Z.inj_mul in U.
  pose proof (pow2_gt0 (Zdig mx - 1) ltac:(lia)). pose proof (pow2_gt0 (Zdig my - 1) ltac:(lia)).
  nia.
Qed.

Lemma SFmul_valid x y : valid x = true -> valid y = true -> valid (SFmul prec emax x y) = true.
Proof using Hemin Hprec.
  destruct x as [sx | sx | | sx mx ex], y as [sy | sy | | sy my ey]; intros Hx Hy;
    try reflexivity.
  cbn [SFmul]. cbn [valid_binary] in Hx, Hy.
  apply bounded_inv in Hx as [Cx _]. apply bounded_inv in Hy as [Cy _].
  apply canonical_inv in Cx as (Ax & Fx & Dx & Nx). apply canonical_inv in Cy as (Ay & Fy & Dy & Ny).
  pose proof (Zdig_mul_ge mx my) as HD. pose proof (Zdig_pos mx). pose proof (Zdig_pos my).
  destruct (binary_round_aux_exact prec emax Hprec (xorb sx sy) (mx * my) (ex + ey)) as (m2 & _ & _ & Hp).
  { unfold SpecFloat.fexp. destruct (Z.eq_dec ex emin) as [Ex | Ex], (Z.eq_dec ey emin) as [Ey | Ey].
    - lia.
    - specialize (Ny ltac:(lia)). lia.
    - specialize (Nx ltac:(lia)). lia.
    - specialize (Nx ltac:(lia)). lia. }
  eapply packs_valid; eauto.
Qed.

Lemma SFadd_valid x y : valid x = true -> valid y = true -> valid (SFadd prec emax x y) = true.
Proof using Hprec.
  destruct x as [ [|] | [|] | | sx mx ex], y as [ [|] | [|] | | sy my ey]; intros Hx Hy;
    try reflexivity; try assumption.
  cbn [SFadd]. apply binary_normalize_valid. assumption.
Qed.

Lemma SFdiv_valid x y : valid x = true -> valid y = true -> valid (SFdiv prec emax x y) = true.
Proof using Hemin Hprec.
  destruct x as [sx | sx | | sx mx ex], y as [sy | sy | | sy my ey]; intros Hx Hy;
    try reflexivity.
  cbn [SFdiv]. cbn [valid_binary] in Hx, Hy.
  apply bounded_inv in Hx as [Cx _]. apply bounded_inv in Hy as [Cy _].
  apply canonical_inv in Cx as (Ax & Fx & Dx & Nx). apply canonical_inv in Cy as (Ay & Fy & Dy & Ny).
  unfold SFdiv_core_binary. cbn [Zdigits2]. fold (Zdig mx) (Zdig my).
  pose proof (Zdig_pos mx) as Px. pose proof (Zdig_pos my) as Py.
  pose proof (Zdig_bounds mx) as [Lx Ux]. pose proof (Zdig_bounds my) as [Ly Uy].
  set (X := Zdig mx + ex - (Zdig my + ey)).
  set (e' := Z.min (fexp X) (ex - ey)).
  set (sh := ex - ey - e').
  assert (Hsh : 0 <= sh) by (subst sh e'; lia).
  set (m' := match sh with Zpos _ => Z.shiftl (Zpos mx) sh | Z0 => Zpos mx | Zneg _ => 0 end).
  assert (Hm' : m' = Zpos mx * 2 ^ sh).
  { subst m'. destruct sh as [ | p | p] eqn:E; [cbn; lia | | lia].
    apply Z.shiftl_mul_pow2. lia. }
  clearbody m'.
  destruct (Z.div_eucl m' (Zpos my)) as [q r] eqn:Ediv.
  pose proof (Z_div_mod m' (Zpos my) ltac:(lia)) as Hdm. rewrite Ediv in Hdm.
  destruct Hdm as [Hdm Hr].
  pose proof (pow2_gt0 sh Hsh) as Hpsh.
  assert (Hq : 0 <= q) by nia.
  destruct (binary_round_aux_shape (xorb sx sy) q e' (new_location (Zpos my) r) Hq) as (m2 & Hp);
    [|eapply packs_valid; eauto].
  pose proof (fexp_ge_emin prec emax X) as HfX.
  destruct q as [ | qp | qp]; [ | | lia].
  - (* the quotient is zero: only below the subnormal range *)
    cbn [Zdigits2]. rewrite Z.add_0_l.
    assert (e' <= emin); [|unfold SpecFloat.fexp; lia].
    destruct (Z_le_gt_dec e' emin) as [|Hgt]; [assumption|]. exfalso.
    assert (HX : fexp X = X - prec) by (subst e'; unfold SpecFloat.fexp in *; lia).
    assert (He' : e' = X - prec \/ (e' = ex - ey /\ ex - ey < X - prec)) by (subst e'; lia).
    destruct He' as [He' | [_ He']]; [|subst X; lia].
    assert (Hs2 : sh = Zdig my - Zdig mx + prec) by (subst sh X; lia).
    assert (2 ^ Zdig my <= 2 ^ ((Zdig mx - 1) + sh)) by (apply pow2_le; lia).
    rewrite pow2_split in H by lia.
    pose proof (pow2_gt0 (Zdig mx - 1) ltac:(lia)). nia.
  - cbn [Zdigits2]. fold (Zdig qp).
    assert (HD : X - e' <= Zdig qp).
    { pose proof (Zdig_bounds qp) as [_ Uq]. pose proof (Zdig_pos qp).
      destruct (Z_lt_le_dec (Zdig qp) (X - e')) as [Hlt|]; [|lia]. exfalso.
      assert (Hk : X - e' = Zdig mx - Zdig my + sh) by (subst sh X; lia).
      assert (2 ^ Zdig qp <= 2 ^ (Zdig mx - 1 + sh - Zdig my)) by (apply pow2_le; lia).
      assert (E1 : 2 ^ (Zdig mx - 1 + sh) = 2 ^ (Zdig mx - 1 + sh - Zdig my) * 2 ^ Zdig my).
      { rewrite <- pow2_split by lia. f_equal. lia. }
      assert (E2 : 2 ^ (Zdig mx - 1 + sh) = 2 ^ (Zdig mx - 1) * 2 ^ sh) by (apply pow2_split; lia).
      pose proof (pow2_gt0 (Zdig mx - 1 + sh - Zdig my) ltac:(lia)).
      pose proof (pow2_gt0 (Zdig mx - 1) ltac:(lia)).
      assert (Zpos qp + 1 <= 2 ^ (Zdig mx - 1 + sh - Zdig my)) by lia.
      assert (m' < 2 ^ (Zdig mx - 1 + sh - Zdig my) * Zpos my) by nia.
      assert (2 ^ (Zdig mx - 1 + sh - Zdig my) * Zpos my < 2 ^ (Zdig mx - 1 + sh)) by nia.
      nia. }
    pose proof (fexp_mono prec emax X (Zdig qp + e') ltac:(lia)). lia.
Qed.
End Validity.

(** * Binary32 facts for the envelope *)
Lemma F32_prec_pos : 0 < F32.prec.
Proof. reflexivity. Qed.

Lemma F32_scale : - scale <= emin F32.prec F32.emax.
Proof. vm_compute. discriminate. Qed.

Lemma F64_prec_pos : 0 < F64.prec.
Proof. reflexivity. Qed.

Lemma F64_scale : - scale <= emin F64.prec F64.emax.
Proof. vm_compute. discriminate. Qed.

Lemma bounded32_scale m e : bounded F32.prec F32.emax m e = true -> - scale <= e.
Proof.
  intros H. apply bounded_inv in H as [H _]. apply canonical_inv in H as (H & _).
  pose proof F32_scale. lia.
Qed.

Lemma Fmag_nonneg x : F32_nonneg x -> 0 <= Fmag x.
Proof.
  intros [-> | (m & e & -> & B)]; cbn; [lia|].
  pose proof (Fval_pos scale m e (bounded32_scale _ _ B)). lia.
Qed.

(** Comparison of non-negative binary32 numbers is comparison of values. *)
Lemma F32_leb_nonneg x y :
  F32_nonneg x -> F32_nonneg y -> F32.leb x y = (Fmag x <=? Fmag y).
Proof.
  intros [-> | (m1 & e1 & -> & B1)] [-> | (m2 & e2 & -> & B2)]; unfold F32.leb, SFleb.
  - reflexivity.
  - cbn [SFcompare Fmag F32.zero].
    pose proof (Fval_pos scale m2 e2 (bounded32_scale _ _ B2)).
    symmetry. apply Z.leb_le. lia.
  - cbn [SFcompare Fmag F32.zero].
    pose proof (Fval_pos scale m1 e1 (bounded32_scale _ _ B1)).
    symmetry. apply Z.leb_gt. lia.
  - apply bounded_inv in B1 as [C1 _]. apply bounded_inv in B2 as [C2 _].
    rewrite (SFcompare_pos _ _ scale F32_prec_pos F32_scale _ _ _ _ C1 C2).
    cbn [Fmag]. unfold Z.leb. destruct (Fval scale m1 e1 ?= Fval scale m2 e2); reflexivity.
Qed.

Lemma nonpos_leb x y : nonpos x -> F32_nonneg y -> F32.leb x y = true.
Proof.
  intros Hx [-> | (m & e & -> & _)]; destruct x as [ [|] | [|] | | [|] ? ?];
    cbn in Hx; try contradiction; reflexivity.
Qed.

(** Adding a positive increment to a non-negative number below some bound
    [B - c]: the sum is a positive number, not below the original, and not
    above [B]. *)
Lemma F32_add_pos x cm ce bm be :
  F32_nonneg x ->
  bounded F32.prec F32.emax cm ce = true ->
  bounded F32.prec F32.emax bm be = true ->
  Fmag x + Fval scale cm ce <= Fval scale bm be ->
  exists m e,
    F32.add x (S754_finite false cm ce) = S754_finite false m e /\
    bounded F32.prec F32.emax m e = true /\
    Fmag x <= Fval scale m e <= Fval scale bm be /\
    Fval scale cm ce <= Fval scale m e.
Proof.
  intros Hx Bc Bb Hsum.
  pose proof (bounded32_scale _ _ Bc) as Sc.
  pose proof (Fval_pos scale cm ce Sc) as Pc.
  destruct Hx as [-> | (mx & ex & -> & Bx)].
  - exists cm, ce. cbn in *. repeat split; try assumption; lia.
  - pose proof (bounded32_scale _ _ Bx) as Sx. cbn [Fmag] in *.
    pose proof (Fval_pos scale mx ex Sx) as Px.
    destruct (SFadd_pos F32.prec F32.emax scale mx ex cm ce Sx Sc) as (M & HM & HV).
    unfold F32.add. rewrite HM.
    assert (Sz : - scale <= Z.min ex ce) by lia.
    apply bounded_inv in Bx as [Cx _]. pose proof Bc as Bc'. apply bounded_inv in Bc' as [Cc _].
    destruct (binary_round_spec _ _ scale F32_prec_pos F32_scale false M _ Sz)
      as [[_ Hsmall] | (m & e & Hr & ->)].
    + pose proof (not_small_of_ge _ _ scale F32_prec_pos F32_scale M _ mx ex Sz Cx ltac:(lia)). lia.
    + assert (Bm : bounded F32.prec F32.emax m e = true).
      { apply (rounded_le_bounded _ _ scale F32_prec_pos F32_scale M _ m e bm be Sz Hr Bb). lia. }
      exists m, e. split.
      * unfold pack. apply bounded_inv in Bm as [_ Em].
        destruct (Z.leb_spec e (F32.emax - F32.prec)); [reflexivity | lia].
      * split; [assumption|]. pose proof Bb as Bb'. apply bounded_inv in Bb' as [Cb _].
        split; [split|].
        -- apply (rounded_ge _ _ scale F32_prec_pos F32_scale M _ m e mx ex Sz Hr Cx). lia.
        -- apply (rounded_le _ _ scale F32_prec_pos F32_scale M _ m e bm be Sz Hr Cb). lia.
        -- apply (rounded_ge _ _ scale F32_prec_pos F32_scale M _ m e cm ce Sz Hr Cc). lia.
Qed.

(** Subtracting a positive decrement from a non-negative number: the
    difference is non-positive, or a positive number not above the
    original. *)
Lemma F32_sub_pos x cm ce :
  F32_nonneg x ->
  bounded F32.prec F32.emax cm ce = true ->
  nonpos (F32.sub x (S754_finite false cm ce)) \/
  exists m e,
    F32.sub x (S754_finite false cm ce) = S754_finite false m e /\
    bounded F32.prec F32.emax m e = true /\
    Fval scale m e <= Fmag x.
Proof.
  intros Hx Bc.
  pose proof (bounded32_scale _ _ Bc) as Sc.
  pose proof (Fval_pos scale cm ce Sc) as Pc.
  destruct Hx as [-> | (mx & ex & -> & Bx)]; [left; exact I|].
  pose proof (bounded32_scale _ _ Bx) as Sx. cbn [Fmag].
  assert (Sz : - scale <= Z.min ex ce) by lia.
  unfold F32.sub.
  destruct (SFsub_pos F32.prec F32.emax scale mx ex cm ce Sx Sc)
    as [[_ ->] | [(M & HV & ->) | (M & HV & ->)]]; [left; exact I | | ].
  - destruct (binary_round_spec _ _ scale F32_prec_pos F32_scale false M _ Sz)
      as [[-> _] | (m & e & Hr & ->)]; [left; exact I|].
    right. pose proof Bx as Bx'. apply bounded_inv in Bx' as [Cx _].
    assert (Bm : bounded F32.prec F32.emax m e = true).
    { apply (rounded_le_bounded _ _ scale F32_prec_pos F32_scale M _ m e mx ex Sz Hr Bx). lia. }
    exists m, e. split.
    + unfold pack. apply bounded_inv in Bm as [_ Em].
      destruct (Z.leb_spec e (F32.emax - F32.prec)); [reflexivity | lia].
    + split; [assumption|].
      apply (rounded_le _ _ scale F32_prec_pos F32_scale M _ m e mx ex Sz Hr Cx). lia.
  - left.
    destruct (binary_round_spec _ _ scale F32_prec_pos F32_scale true M _ Sz)
      as [[-> _] | (m & e & Hr & ->)]; [exact I|].
    unfold pack. destruct (Z.leb e (F32.emax - F32.prec)); exact I.
Qed.

(** * Narrowing to [float] keeps the unit interval *)
Lemma one64_one32 : Fmag F64.one = Fmag F32.one.
Proof. reflexivity. Qed.

Lemma bounded64_scale m e : bounded F64.prec F64.emax m e = true -> - scale <= e.
Proof.
  intros H. apply bounded_inv in H as [H _]. apply canonical_inv in H as (H & _).
  pose proof F64_scale. lia.
Qed.

(** A valid [double] between [-1.0] and [1.0] has magnitude at most one. *)
Lemma unit64_mag y :
  F64.valid y = true ->
  F64.leb (F64.of_Z (-1)) y = true -> F64.leb y F64.one = true ->
  is_finite y = true /\ Fmag y <= Fmag F64.one.
Proof.
  intros Hv Hlo Hhi. destruct y as [s | [|] | | [|] m e]; try discriminate.
  - split; [reflexivity | vm_compute; discriminate].
  - (* negative: compare with -1 *)
    split; [reflexivity|]. cbn [F64.valid valid_binary] in Hv.
    apply bounded_inv in Hv as [Cy _].
    unfold F64.leb, SFleb in Hlo.
    change (F64.of_Z (-1)) with (S754_finite true 4503599627370496 (-52)) in Hlo.
    rewrite (SFcompare_neg _ _ scale F64_prec_pos F64_scale 4503599627370496 (-52) m e eq_refl Cy) in Hlo.
    cbn [Fmag]. change (Fmag F64.one) with (Fval scale 4503599627370496 (-52)).
    destruct (Z.compare_spec (Fval scale m e) (Fval scale 4503599627370496 (-52)));
      try discriminate; lia.
  - split; [reflexivity|]. cbn [F64.valid valid_binary] in Hv.
    apply bounded_inv in Hv as [Cy _].
    unfold F64.leb, SFleb in Hhi.
    change F64.one with (S754_finite false 4503599627370496 (-52)) in Hhi.
    rewrite (SFcompare_pos _ _ scale F64_prec_pos F64_scale m e 4503599627370496 (-52) Cy eq_refl) in Hhi.
    cbn [Fmag]. change (Fmag F64.one) with (Fval scale 4503599627370496 (-52)).
    destruct (Z.compare_spec (Fval scale m e) (Fval scale 4503599627370496 (-52)));
      try discriminate; lia.
Qed.

Lemma to_float_unit y :
  F64.valid y = true ->
  F64.leb (F64.of_Z (-1)) y = true -> F64.leb y F64.one = true ->
  F32.leb (F32.of_Z (-1)) (F64.to_float y) = true /\ F32.leb (F64.to_float y) F32.one = true.
Proof.
  intros Hv Hlo Hhi. destruct (unit64_mag y Hv Hlo Hhi) as [Hfin Hmag].
  destruct y as [s | s | | s m e]; try discriminate.
  - destruct s; split; reflexivity.
  - cbn [F64.valid valid_binary] in Hv. pose proof (bounded64_scale _ _ Hv) as Se.
    cbn [F64.to_float Fmag] in *. rewrite one64_one32 in Hmag.
    change (Fmag F32.one) with (Fval scale 8388608 (-23)) in Hmag.
    destruct (binary_round_spec _ _ scale F32_prec_pos F32_scale s m e Se)
      as [[-> _] | (m' & e' & Hr & ->)].
    + destruct s; split; reflexivity.
    + assert (B1 : bounded F32.prec F32.emax 8388608 (-23) = true) by reflexivity.
      pose proof (rounded_le_bounded _ _ scale F32_prec_pos F32_scale _ _ _ _ _ _ Se Hr B1 Hmag) as Bm.
      pose proof (rounded_le _ _ scale F32_prec_pos F32_scale m e m' e' 8388608 (-23) Se Hr eq_refl Hmag) as Hle.
      pose proof Bm as Bm'. apply bounded_inv in Bm' as [Cm Em].
      unfold pack. destruct (Z.leb_spec e' (F32.emax - F32.prec)); [|lia].
      unfold F32.leb, SFleb.
      change (F32.of_Z (-1)) with (S754_finite true 8388608 (-23)).
      change F32.one with (S754_finite false 8388608 (-23)).
      destruct s.
      * rewrite (SFcompare_neg _ _ scale F32_prec_pos F32_scale 8388608 (-23) m' e' eq_refl Cm).
        split; [|reflexivity].
        destruct (Z.compare_spec (Fval scale m' e') (Fval scale 8388608 (-23))); try reflexivity; lia.
      * rewrite (SFcompare_pos _ _ scale F32_prec_pos F32_scale m' e' 8388608 (-23) Cm eq_refl).
        split; [reflexivity|].
        destruct (Z.compare_spec (Fval scale m' e') (Fval scale 8388608 (-23))); try reflexivity; lia.
Qed.

Lemma floor_not_nan x : is_nan x = false -> is_nan (F64.floor x) = false.
Proof.
  destruct x as [s | s | | s m e]; intros H; try discriminate; try reflexivity.
  cbn [F64.floor]. destruct (0 <=? e); [reflexivity|].
  apply binary_normalize_not_nan. reflexivity.
Qed.

Section DivOne.
Variables prec emax K : Z.
Hypothesis Hprec : 1 < prec.
Hypothesis HK : - K <= SpecFloat.emin prec emax.

Local Abbreviation emin := (SpecFloat.emin prec emax).
Local Abbreviation fexp := (SpecFloat.fexp prec emax).

Lemma new_location_zero n : new_location n 0 = loc_Exact.
Proof. unfold new_location. destruct (Z.even n); reflexivity. Qed.

(** Dividing a valid finite float by one returns it unchanged. *)
Lemma SFdiv_one s m e mo :
  Zpos mo = 2 ^ (prec - 1) ->
  bounded prec emax m e = true ->
  SFdiv prec emax (S754_finite s m e) (S754_finite false mo (1 - prec)) = S754_finite s m e.
Proof using HK Hprec.
  intros Hmo Bm. pose proof Bm as Bm'. apply bounded_inv in Bm' as [Cm Em].
  pose proof (canonical_inv _ _ _ _ Cm) as (Am & Fm & Dm & _).
  assert (Hdo : Zdig mo = prec).
  { apply Zdig_unique. rewrite Hmo. split; [lia|]. apply pow2_lt. lia. }
  pose proof (fexp_succ prec emax (Zdig m + e - 1)) as Hs.
  replace (Zdig m + e - 1 + 1) with (Zdig m + e) in Hs by lia. rewrite Fm in Hs.
  set (f1 := fexp (Zdig m + e - 1)) in *.
  assert (Hf1 : emin <= f1) by apply fexp_ge_emin.
  cbn [SFdiv]. unfold SFdiv_core_binary. cbn [Zdigits2]. fold (Zdig m) (Zdig mo).
  rewrite Hdo.
  replace (Zdig m + e - (prec + (1 - prec))) with (Zdig m + e - 1) by lia. fold f1.
  replace (Z.min f1 (e - (1 - prec))) with f1 by lia.
  assert (Hsh : exists p, e - (1 - prec) - f1 = Zpos p).
  { destruct (e - (1 - prec) - f1) as [ | p | p] eqn:E; try lia. eauto. }
  destruct Hsh as (p & Hp). rewrite Hp.
  rewrite Z.shiftl_mul_pow2 by lia.
  assert (Hq : exists qp, Zpos qp = Zpos m * 2 ^ (e - f1)).
  { pose proof (pow2_gt0 (e - f1) ltac:(lia)).
    destruct (Zpos m * 2 ^ (e - f1)) as [ | qp | qp] eqn:E; try lia. eauto. }
  destruct Hq as (qp & Hqp).
  assert (Hm' : Zpos m * 2 ^ Zpos p = Zpos qp * Zpos mo).
  { rewrite Hqp, Hmo, <- Z.mul_assoc, <- pow2_split by lia. do 2 f_equal. lia. }
  rewrite Hm'.
  destruct (Z.div_eucl (Zpos qp * Zpos mo) (Zpos mo)) as [q r] eqn:Ediv.
  assert (q = Zpos qp).
  { change q with (fst (q, r)). rewrite <- Ediv. apply (Z.div_mul (Zpos qp) (Zpos mo)). lia. }
  assert (r = 0).
  { change r with (snd (q, r)). rewrite <- Ediv. apply (Z.mod_mul (Zpos qp) (Zpos mo)). lia. }
  subst q r. rewrite new_location_zero, xorb_false_r.
  assert (Hdq : Zdig qp + f1 = Zdig m + e).
  { rewrite (Zdig_shift m qp (e - f1)) by (lia || assumption). lia. }
  destruct (binary_round_aux_exact prec emax ltac:(lia) s qp f1) as (m2 & Hm2 & Hv & Hpk).
  { rewrite Hdq, Fm. lia. }
  rewrite Hdq, Fm in Hv, Hpk.
  assert (m2 = Zpos m).
  { pose proof (pow2_gt0 (e - f1) ltac:(lia)) as Hpp.
    destruct Hv as [Hv | [Hv _]].
    - rewrite Hqp in Hv. apply Z.mul_reg_r in Hv; lia.
    - exfalso. apply Hv. rewrite Hqp. apply Z.mod_mul. lia. }
  subst m2. inversion Hpk as [E0 | m3 e3 Hm3 He3 Hc3]; [lia|].
  assert (Heq : m3 = m /\ e3 = e).
  { apply (canonical_unique prec emax K ltac:(lia) HK); try assumption.
    rewrite (Fval_grid K m3 e3 e) by lia. unfold Fval. rewrite Hm3. reflexivity. }
  destruct Heq as [-> ->]. unfold pack.
  destruct (Z.leb_spec e (emax - prec)); [reflexivity | lia].
Qed.
End DivOne.

Lemma F64_div_one x : F64.valid x = true -> F64.div x F64.one = x.
Proof.
  intros Hv. destruct x as [s | s | | s m e]; try (destruct s; reflexivity); try reflexivity.
  apply (SFdiv_one F64.prec F64.emax scale ltac:(reflexivity) F64_scale s m e 4503599627370496
           ltac:(reflexivity) Hv).
Qed.

Lemma F64_add_zero_l y : same_number (F64.add F64.zero y) y.
Proof. destruct y as [ [|] | | | ]; [right; split; reflexivity | left; reflexivity ..]. Qed.

Lemma F64_add_zero_r x z : is_zero z = true -> same_number (F64.add x z) x.
Proof.
  destruct z as [sz | | | ]; try discriminate. intros _.
  destruct x as [ [|] | | | ], sz; (left; reflexivity) || (right; split; reflexivity).
Qed.

Lemma F64_mul_same x y v :
  same_number x y -> is_finite v = true -> same_number (F64.mul x v) (F64.mul y v).
Proof.
  intros [-> | [Hx Hy]] Hv; [left; reflexivity|].
  destruct x, y; try discriminate. destruct v; try discriminate; right; split; reflexivity.
Qed.

Lemma to_float_same x y : same_number x y -> same_number (F64.to_float x) (F64.to_float y).
Proof.
  intros [-> | [Hx Hy]]; [left; reflexivity|].
  destruct x, y; try discriminate. right; split; reflexivity.
Qed.

(** * The envelope on binary32 *)
Lemma attack_inc_bounded : bounded F32.prec F32.emax 9739155 (-32) = true.
Proof. reflexivity. Qed.

Lemma decay_dec_bounded : bounded F32.prec F32.emax 12466117 (-38) = true.
Proof. reflexivity. Qed.

Lemma release_dec_bounded : bounded F32.prec F32.emax 9972895 (-38) = true.
Proof. reflexivity. Qed.

Lemma two_bounded : bounded F32.prec F32.emax 8388608 (-22) = true.
Proof. reflexivity. Qed.

Lemma one_plus_attack : Fmag F32.one + Fval scale 9739155 (-32) <= Fval scale 8388608 (-22).
Proof. vm_compute. discriminate. Qed.

Lemma sustain_le_one : Fmag SUSTAIN_LEVEL <= Fmag F32.one.
Proof. vm_compute. discriminate. Qed.

Lemma one_nonneg : F32_nonneg F32.one.
Proof. right. exists 8388608%positive, (-23). split; reflexivity. Qed.

Lemma sustain_nonneg : F32_nonneg SUSTAIN_LEVEL.
Proof. right. exists 13421773%positive, (-24). split; reflexivity. Qed.

Lemma zero_nonneg : F32_nonneg F32.zero.
Proof. left. reflexivity. Qed.

Lemma env_range_one : env_range F32.one.
Proof. split; [apply one_nonneg | lia]. Qed.

Lemma env_range_sustain : env_range SUSTAIN_LEVEL.
Proof. split; [apply sustain_nonneg | apply sustain_le_one]. Qed.

Lemma env_range_zero : env_range F32.zero.
Proof. split; [apply zero_nonneg | vm_compute; discriminate]. Qed.

Lemma finite_nonneg m e : bounded F32.prec F32.emax m e = true -> F32_nonneg (S754_finite false m e).
Proof. intros B. right. exists m, e. auto. Qed.

(** In range means between [0.0f] and [1.0f] for the program's own
    comparisons. *)
Lemma env_range_leb x :
  env_range x -> F32.leb F32.zero x = true /\ F32.leb x F32.one = true.
Proof.
  intros [Hn Hle]. rewrite !F32_leb_nonneg by auto using zero_nonneg, one_nonneg.
  pose proof (Fmag_nonneg x Hn). split; apply Z.leb_le; [cbn [Fmag F32.zero]; lia | lia].
Qed.

(** One pass through the [switch] keeps the voice invariant, and moves the
    envelope in the direction of its stage. *)
Lemma envelope_switch_inv v :
  voice_inv v ->
  let v' := fst (envelope_switch v) in
  voice_inv v' /\
  (stage v = ATTACK -> F32.leb (envelope v) (envelope v') = true) /\
  (stage v = DECAY \/ stage v = RELEASE -> F32.leb (envelope v') (envelope v) = true) /\
  (stage v = SUSTAIN \/ stage v = OFF -> envelope v' = envelope v).
Proof.
  intros Hinv. pose proof Hinv as ([Hn Hle] & Hdec & Hoff & Hrel). unfold envelope_switch.
  destruct (stage v) eqn:Hst; cbn zeta.
  - (* OFF *)
    cbn [fst]. split; [exact Hinv|]. split; [congruence|]. split; [intros [|]; congruence | reflexivity].
  - (* ATTACK *)
    cbn [with_envelope envelope].
    change attack_inc with (S754_finite false 9739155 (-32)).
    destruct (F32_add_pos (envelope v) 9739155 (-32) 8388608 (-22) Hn
                attack_inc_bounded two_bounded) as (m & e & Hy & By & [Hxy _] & _).
    { pose proof one_plus_attack. lia. }
    rewrite Hy. pose proof (finite_nonneg m e By) as Hyn.
    unfold F32.geb. fold (F32.leb F32.one (S754_finite false m e)).
    rewrite (F32_leb_nonneg F32.one _ one_nonneg Hyn).
    destruct (Z.leb_spec (Fmag F32.one) (Fmag (S754_finite false m e))) as [H1 | H1];
      unfold voice_inv; cbn [fst with_stage with_envelope envelope stage keyDown].
    + split; [|split; [|split]]; try (intros [|]; congruence).
      * split; [apply env_range_one|]. repeat split; try congruence;
          try (intros _; apply sustain_le_one).
      * intros _. rewrite (F32_leb_nonneg _ _ Hn one_nonneg). apply Z.leb_le. assumption.
    + split; [|split; [|split]]; try (intros [|]; congruence).
      * split; [split; [assumption | lia]|]. rewrite Hst. repeat split; congruence.
      * intros _. rewrite (F32_leb_nonneg _ _ Hn Hyn). apply Z.leb_le. exact Hxy.
  - (* DECAY *)
    cbn [with_envelope envelope].
    change decay_dec with (S754_finite false 12466117 (-38)).
    specialize (Hdec eq_refl).
    assert (Hclamp : let w := with_stage (with_envelope
                       (with_envelope v (F32.sub (envelope v) (S754_finite false 12466117 (-38))))
                       SUSTAIN_LEVEL) SUSTAIN in
             voice_inv w /\ F32.leb (envelope w) (envelope v) = true).
    { unfold voice_inv; cbn [with_stage with_envelope envelope stage keyDown]. split.
      - split; [apply env_range_sustain|]. repeat split; congruence.
      - rewrite (F32_leb_nonneg _ _ sustain_nonneg Hn). apply Z.leb_le. assumption. }
    destruct (F32_sub_pos (envelope v) 12466117 (-38) Hn decay_dec_bounded)
      as [Hneg | (m & e & Hy & By & Hyx)].
    + rewrite (nonpos_leb _ SUSTAIN_LEVEL Hneg sustain_nonneg). cbn [fst].
      destruct Hclamp as [H1 H2].
      split; [exact H1|]. split; [|split]; try (intros [|]; congruence); congruence || auto.
    + rewrite Hy in *. pose proof (finite_nonneg m e By) as Hyn.
      rewrite (F32_leb_nonneg _ _ Hyn sustain_nonneg).
      destruct (Z.leb_spec (Fmag (S754_finite false m e)) (Fmag SUSTAIN_LEVEL)) as [H1 | H1];
        cbn [fst].
      * destruct Hclamp as [H2 H3].
        split; [exact H2|]. split; [|split]; try (intros [|]; congruence); congruence || auto.
      * unfold voice_inv; cbn [with_stage with_envelope envelope stage keyDown].
        split; [|split; [|split]]; try (intros [|]; congruence); try congruence.
        -- split; [split; [assumption | cbn [Fmag] in *; lia]|]. rewrite Hst.
           repeat split; try congruence; try (intros _; lia).
        -- intros _. rewrite (F32_leb_nonneg _ _ Hyn Hn). apply Z.leb_le. exact Hyx.
  - (* SUSTAIN *)
    cbn [fst]. split; [exact Hinv|]. split; [congruence|]. split; [intros [|]; congruence | reflexivity].
  - (* RELEASE *)
    cbn [with_envelope envelope].
    change release_dec with (S754_finite false 9972895 (-38)).
    specialize (Hrel eq_refl).
    assert (Hclamp : let w := with_stage (with_envelope
                       (with_envelope v (F32.sub (envelope v) (S754_finite false 9972895 (-38))))
                       F32.zero) OFF in
             voice_inv w /\ F32.leb (envelope w) (envelope v) = true).
    { unfold voice_inv; cbn [with_stage with_envelope envelope stage keyDown]. split.
      - split; [apply env_range_zero|]. repeat split; congruence.
      - rewrite (F32_leb_nonneg _ _ zero_nonneg Hn). apply Z.leb_le.
        pose proof (Fmag_nonneg _ Hn). cbn [Fmag F32.zero]. lia. }
    destruct (F32_sub_pos (envelope v) 9972895 (-38) Hn release_dec_bounded)
      as [Hneg | (m & e & Hy & By & Hyx)].
    + rewrite (nonpos_leb _ F32.zero Hneg zero_nonneg). cbn [fst].
      destruct Hclamp as [H1 H2].
      split; [exact H1|]. split; [|split]; try (intros [|]; congruence); congruence || auto.
    + rewrite Hy in *. pose proof (finite_nonneg m e By) as Hyn.
      rewrite (F32_leb_nonneg _ _ Hyn zero_nonneg).
      pose proof (Fval_pos scale m e (bounded32_scale _ _ By)) as Hpos.
      destruct (Z.leb_spec (Fmag (S754_finite false m e)) (Fmag F32.zero)) as [H1 | H1];
        [cbn [Fmag F32.zero] in H1; lia|].
      unfold voice_inv; cbn [fst with_stage with_envelope envelope stage keyDown].
      split; [|split; [|split]]; try (intros [|]; congruence); try congruence.
      * split; [split; [assumption | cbn [Fmag] in *; lia]|]. rewrite Hst.
        repeat split; try congruence; try (intros _; assumption).
      * intros _. rewrite (F32_leb_nonneg _ _ Hyn Hn). apply Z.leb_le. exact Hyx.
Qed.

(** * The voice loop *)
Section Loop.
Variable tanh : double -> double.
Variable pow : double -> double -> double.

Local Abbreviation advance := (fun v : Voice => fst (process_voice tanh pow v)).

Lemma process_voice_off v : stage v = OFF -> process_voice tanh pow v = (v, None).
Proof. intros H. unfold process_voice. rewrite H. reflexivity. Qed.

Lemma process_voice_on v :
  stage v <> OFF ->
  process_voice tanh pow v =
  let w := envelope_switch (with_time v (F64.add (time v) dt)) in
  (fst w, if snd w then None else Some (voice_sample tanh (fst w) (midiToFreq pow (note v)))).
Proof.
  intros H. unfold process_voice.
  destruct (stage v) eqn:E; [congruence | | | |]; cbn [stage_eqb with_time note];
    destruct (envelope_switch _) as [w [|]]; reflexivity.
Qed.

Lemma process_voice_inv v :
  voice_inv v ->
  voice_inv (advance v) /\
  (stage v = ATTACK -> F32.leb (envelope v) (envelope (advance v)) = true) /\
  (stage v = DECAY \/ stage v = RELEASE -> F32.leb (envelope (advance v)) (envelope v) = true) /\
  (stage v = SUSTAIN \/ stage v = OFF -> envelope (advance v) = envelope v).
Proof.
  intros Hinv. destruct (decide (stage v = OFF)) as [Hoff | Hon].
  - rewrite (process_voice_off v Hoff). cbn [fst].
    split; [exact Hinv|]. split; [congruence|]. split; [intros [|]; congruence | reflexivity].
  - rewrite (process_voice_on v Hon). cbn zeta. cbn [fst].
    apply (envelope_switch_inv (with_time v (F64.add (time v) dt))). exact Hinv.
Qed.

Lemma loop_body_fold l : forall m mixed active,
  foldl (loop_body tanh pow) (m, mixed, active) l =
  (foldl (fun m (entry : Z * Voice) => <[entry.1 := advance entry.2]> m) m l,
   foldl F64.add mixed (omap (fun entry : Z * Voice => snd (process_voice tanh pow entry.2)) l),
   active + Z.of_nat (length (omap (fun entry : Z * Voice => snd (process_voice tanh pow entry.2)) l))).
Proof.
  induction l as [ | [k v] l IH]; intros m mixed active;
    cbn [foldl omap list_omap fst snd].
  - cbn [length]. rewrite Z.add_0_r. reflexivity.
  - unfold loop_body at 2.
    destruct (process_voice tanh pow v) as [v' [s|]] eqn:E; rewrite IH; cbn [fst snd length foldl].
    + f_equal. rewrite Nat2Z.inj_succ. lia.
    + reflexivity.
Qed.

Lemma foldl_insert_lookup (f : Voice -> Voice) l : forall (m : gmap Z Voice) k,
  NoDup l.*1 ->
  foldl (fun m (entry : Z * Voice) => <[entry.1 := f entry.2]> m) m l !! k =
  match (list_to_map l : gmap Z Voice) !! k with
  | Some v => Some (f v)
  | None => m !! k
  end.
Proof.
  induction l as [ | [k0 v0] l IH]; intros m k Hnd; cbn [foldl fst snd].
  - rewrite list_to_map_nil, lookup_empty. reflexivity.
  - rewrite fmap_cons in Hnd. cbn [fst] in Hnd. apply NoDup_cons in Hnd as [Hnotin Hnd].
    rewrite list_to_map_cons.
    rewrite IH by assumption. destruct (decide (k = k0)) as [-> | Hne].
    + rewrite !lookup_insert_eq.
      rewrite (not_elem_of_list_to_map_1 (M := gmap Z) l k0 Hnotin). reflexivity.
    + rewrite !(lookup_insert_ne _ k0 k) by congruence. reflexivity.
Qed.

Lemma foldl_insert_fmap (f : Voice -> Voice) (vs : gmap Z Voice) :
  foldl (fun m (entry : Z * Voice) => <[entry.1 := f entry.2]> m) vs (map_to_list vs) = f <$> vs.
Proof.
  apply map_eq. intros k.
  rewrite foldl_insert_lookup by apply NoDup_fst_map_to_list.
  rewrite list_to_map_to_list, lookup_fmap.
  destruct (vs !! k); reflexivity.
Qed.

(** The loop advances every voice, sums the samples of those that run to
    the end of the body, and counts them. *)
Lemma voice_loop_spec (vs : gmap Z Voice) :
  voice_loop tanh pow vs =
  (advance <$> vs,
   foldl F64.add F64.zero (contributions tanh pow vs),
   Z.of_nat (length (contributions tanh pow vs))).
Proof.
  unfold voice_loop. rewrite loop_body_fold. f_equal. f_equal.
  apply (foldl_insert_fmap advance).
Qed.

Lemma dry_mix_spec st :
  dry_mix tanh pow st =
  normalize (foldl F64.add F64.zero (contributions tanh pow (voices st)))
            (Z.of_nat (length (contributions tanh pow (voices st)))).
Proof. unfold dry_mix. rewrite voice_loop_spec. reflexivity. Qed.

(** One frame, spelled out. *)
Lemma audio_frame_inv st st' l r :
  audio_frame tanh pow st = Some (st', (l, r)) ->
  exists stored,
    0 <= reverbIndex st /\
    reverbDelayBuffer st !! Z.to_nat (reverbIndex st) = Some stored /\
    l = F64.to_float (F64.add (dry_mix tanh pow st)
                              (F64.of_float (F32.mul stored (reverbFeedback st)))) /\
    r = l /\
    voices st' = advance <$> voices st /\
    reverbDelayBuffer st' = <[Z.to_nat (reverbIndex st) := l]> (reverbDelayBuffer st) /\
    reverbIndex st' = Z.rem (reverbIndex st + 1) DELAY_SIZE /\
    reverbFeedback st' = reverbFeedback st /\
    running st' = running st.
Proof.
  unfold audio_frame, dry_mix. rewrite voice_loop_spec.
  destruct (Z.leb_spec 0 (reverbIndex st)) as [Hi | Hi]; [|discriminate].
  destruct (reverbDelayBuffer st !! Z.to_nat (reverbIndex st)) as [stored|] eqn:E; [|discriminate].
  intros H. injection H as <- <- <-. exists stored. cbn. repeat split; try assumption.
Qed.

Lemma audio_frame_defined st :
  0 <= reverbIndex st < Z.of_nat (length (reverbDelayBuffer st)) ->
  exists st' out, audio_frame tanh pow st = Some (st', (out, out)).
Proof.
  intros [Hlo Hhi]. unfold audio_frame.
  destruct (voice_loop tanh pow (voices st)) as [[vs mixed] active].
  destruct (Z.leb_spec 0 (reverbIndex st)) as [_ | Hi]; [|lia].
  destruct (lookup_lt_is_Some_2 (reverbDelayBuffer st) (Z.to_nat (reverbIndex st)) ltac:(lia))
    as [stored ->].
  eexists _, _. reflexivity.
Qed.
End Loop.

(** * The listener *)
Lemma ESC_not_key : keyNoteMap !! ESC = None.
Proof. reflexivity. Qed.

Lemma key_not_ESC c n : keyNoteMap !! c = Some n -> c <> ESC.
Proof. intros H ->. rewrite ESC_not_key in H. discriminate. Qed.

Lemma is_key_true c n : keyNoteMap !! c = Some n -> is_key c = true.
Proof. intros H. unfold is_key. apply bool_decide_eq_true. eauto. Qed.

Lemma is_key_false c : keyNoteMap !! c = None -> is_key c = false.
Proof. intros H. unfold is_key. apply bool_decide_eq_false. rewrite H. intros [? ?]. discriminate. Qed.

Lemma key_down_mapped c n st :
  keyNoteMap !! c = Some n ->
  key_down c st =
  with_voices st
    (<[n := {| note := n; phase := phase (default Voice_default (voices st !! n));
               time := F64.zero; stage := ATTACK;
               envelope := envelope (default Voice_default (voices st !! n));
               keyDown := true |}]> (voices st)).
Proof.
  intros H. unfold key_down. rewrite bool_decide_eq_false_2 by (eapply key_not_ESC; eauto).
  rewrite H. reflexivity.
Qed.

Lemma key_up_scan_lookup c st k :
  voices (key_up_scan c st) !! k = release_voice c <$> voices st !! k.
Proof. unfold key_up_scan. cbn. apply lookup_fmap. Qed.

Lemma release_voice_inv c v : voice_inv v -> voice_inv (release_voice c v).
Proof.
  intros Hinv. pose proof Hinv as (Hr & Hd & Ho & Hl). unfold release_voice.
  destruct (keyDown v && negb (is_key c)) eqn:E; [|exact Hinv].
  unfold voice_inv; cbn. split; [assumption|]. repeat split; congruence.
Qed.

(** * Invariants along every interleaving *)
Section Reach.
Variable tanh : double -> double.
Variable pow : double -> double -> double.

Lemma DELAY_SIZE_val : DELAY_SIZE = 88200.
Proof. reflexivity. Qed.

Lemma engine_inv_init : engine_inv Engine_init.
Proof.
  split; [|split].
  - intros k v H. cbn in H. rewrite lookup_empty in H. discriminate.
  - cbn [Engine_init reverbDelayBuffer]. apply length_replicate.
  - cbn [Engine_init reverbIndex]. rewrite DELAY_SIZE_val. lia.
Qed.

Lemma engine_inv_step st ev st' :
  engine_inv st -> step tanh pow st ev = Some st' -> engine_inv st'.
Proof.
  intros (Hv & Hlen & Hidx) Hstep. destruct ev as [ | c | c]; cbn [step] in Hstep.
  - destruct (audio_frame tanh pow st) as [[st1 [l r]]|] eqn:E; [|discriminate].
    cbn in Hstep. injection Hstep as ->.
    apply audio_frame_inv in E as (stored & _ & _ & _ & _ & Ev & Eb & Ei & _ & _).
    split; [|split].
    + intros k v. rewrite Ev, lookup_fmap. destruct (voices st !! k) as [w|] eqn:Ew; [|discriminate].
      cbn. intros H. injection H as <-. apply process_voice_inv. eapply Hv; eauto.
    + rewrite Eb, length_insert. assumption.
    + rewrite Ei. rewrite DELAY_SIZE_val in *.
      pose proof (Z.rem_bound_pos (reverbIndex st + 1) 88200 ltac:(lia) ltac:(lia)). lia.
  - injection Hstep as <-. destruct (running st); [|split; [|split]; assumption].
    split; [|split].
    + intros k v. unfold key_down. destruct (bool_decide (toupper c = ESC)); [apply Hv|].
      destruct (keyNoteMap !! toupper c) as [n|] eqn:E; [|apply Hv].
      cbn [with_voices voices]. destruct (decide (k = n)) as [-> | Hne].
      * rewrite lookup_insert_eq. intros H. injection H as <-.
        assert (Hold : voice_inv (default Voice_default (voices st !! n))).
        { destruct (voices st !! n) as [w|] eqn:Ew; cbn; [eapply Hv; eauto|].
          split; [apply env_range_zero|]. repeat split; cbn; congruence. }
        destruct Hold as (Hr & _). unfold voice_inv; cbn. split; [assumption|].
        repeat split; congruence.
      * rewrite lookup_insert_ne by congruence. apply Hv.
    + unfold key_down. destruct (bool_decide (toupper c = ESC)); [assumption|].
      destruct (keyNoteMap !! toupper c); assumption.
    + unfold key_down. destruct (bool_decide (toupper c = ESC)); [assumption|].
      destruct (keyNoteMap !! toupper c); assumption.
  - injection Hstep as <-. split; [|split]; [|assumption..].
    intros k v. rewrite key_up_scan_lookup.
    destruct (voices st !! k) as [w|] eqn:Ew; [|discriminate].
    cbn. intros H. injection H as <-. apply release_voice_inv. eapply Hv; eauto.
Qed.

Lemma reachable_inv st : reachable tanh pow st -> engine_inv st.
Proof.
  induction 1 as [ | st ev st' _ IH Hstep]; [apply engine_inv_init|].
  eapply engine_inv_step; eauto.
Qed.
End Reach.

(** * The tone generator *)


(** C1 (as the code has it): the per-voice sample is the sum of the 27
    detuned saws divided by [NUM_VOICES = 121], not by the bank size 27,
    then multiplied by the envelope.  On the first frame of a new voice,
    with every saw saturated at [1.0f], the code adds [27/121 * envelope]
    to the mix where a division by the bank size would add [27/27 * envelope]. *)
Theorem voice_sample_divides_by_NUM_VOICES :
  (forall tanh (voice : Voice) (freq : double),
     voice_sample tanh voice freq =
     F64.mul (F64.div (saw_bank tanh (time voice) freq) (F64.of_Z 121))
             (F64.of_float (envelope voice))) /\
  length detune_offsets = 27%nat /\
  snd (process_voice tanh_sat pow_unit voice_A) =
    Some (F64.mul (F64.div (F64.of_Z 27) (F64.of_Z 121)) (F64.of_float attack_inc)) /\
  F64.mul (F64.div (F64.of_Z 27) (F64.of_Z 121)) (F64.of_float attack_inc) <>
  F64.mul (F64.div (F64.of_Z 27) (F64.of_Z 27)) (F64.of_float attack_inc).
Proof.
  split; [reflexivity|]. split; [reflexivity|]. split; [vm_compute; reflexivity|].
  vm_compute. discriminate.
Qed.

(** * The oscillator *)
Lemma tanh_sat_contract : tanh_contract tanh_sat.
Proof.
  split; [reflexivity|]. intros x Hx.
  destruct x as [ [|] | [|] | | [|] m e]; try discriminate; repeat split; reflexivity.
Qed.

(** The argument handed to [tanh] is never NaN when [t * freq] is finite. *)
Lemma saw_argument_not_nan t freq :
  is_finite (F64.mul t freq) = true ->
  is_nan (F64.mul
            (F64.mul (F64.of_Z 2)
               (F64.sub (F64.mul t freq)
                  (F64.floor (F64.add (F64.mul t freq) (F64.lit 5 10)))))
            (F64.of_Z 6)) = false.
Proof.
  intros Hp.
  change (F64.of_Z 6) with (S754_finite false 6755399441055744 (-50)).
  change (F64.of_Z 2) with (S754_finite false 4503599627370496 (-51)).
  apply (SFmul_finite_r_not_nan F64.prec F64.emax F64_prec_pos).
  apply (SFmul_finite_l_not_nan F64.prec F64.emax F64_prec_pos).
  apply (SFsub_finite_l_not_nan F64.prec F64.emax F64_prec_pos); [exact Hp|].
  apply floor_not_nan.
  apply (SFadd_finite_not_nan F64.prec F64.emax F64_prec_pos); [exact Hp | reflexivity].
Qed.

(** C2 (amended): whenever the product [t * freq] is finite, [getSaw]
    returns [tanh (s * 6)], narrowed to [float], for the saw value
    [s = 2 * (t * freq - floor (t * freq + 0.5))], and that output lies in
    [[-1, 1]]. *)
Theorem getSaw_in_unit_range tanh (t freq : double) :
  tanh_contract tanh ->
  is_finite (F64.mul t freq) = true ->
  let s := F64.mul (F64.of_Z 2)
             (F64.sub (F64.mul t freq)
                (F64.floor (F64.add (F64.mul t freq) (F64.lit 5 10)))) in
  getSaw tanh t freq = F64.to_float (tanh (F64.mul s (F64.of_Z 6))) /\
  in_unit (getSaw tanh t freq).
Proof.
  intros [_ Hc] Hp s. split; [reflexivity|].
  unfold getSaw. fold s.
  destruct (Hc (F64.mul s (F64.of_Z 6)) (saw_argument_not_nan t freq Hp)) as (Hv & Hlo & Hhi).
  apply to_float_unit; assumption.
Qed.


Lemma getSaw_in_unit_range_witness :
  getSaw tanh_sat F64.one (F64.of_Z 440)
  = F64.to_float
      (tanh_sat
         (F64.mul
            (F64.mul (F64.of_Z 2)
               (F64.sub (F64.mul F64.one (F64.of_Z 440))
                  (F64.floor (F64.add (F64.mul F64.one (F64.of_Z 440)) (F64.lit 5 10)))))
            (F64.of_Z 6)))
  /\ in_unit (getSaw tanh_sat F64.one (F64.of_Z 440)).
Proof.
  exact (getSaw_in_unit_range tanh_sat F64.one (F64.of_Z 440) tanh_sat_contract eq_refl).
Defined.

(** C2 (as stated) fails: [t = freq = 2^600] are finite, their product
    overflows to infinity, the saw value is [inf - inf], and the output is
    NaN, which is not in [[-1, 1]]. *)
Lemma getSaw_overflow_is_nan :
  ~ (forall tanh : double -> double, tanh_contract tanh ->
     forall t freq : double, is_finite t = true -> is_finite freq = true ->
     in_unit (getSaw tanh t freq)).
Proof.
  intros H.
  destruct (H tanh_sat tanh_sat_contract two_pow_600 two_pow_600 eq_refl eq_refl) as [Hlo _].
  vm_compute in Hlo. discriminate.
Qed.

(** * The envelope state machine *)
Lemma envelope_switch_rule v :
  let v' := fst (envelope_switch v) in
  (stage v', envelope v') = adsr_rule (stage v) (envelope v) /\
  note v' = note v /\ phase v' = phase v /\ time v' = time v /\ keyDown v' = keyDown v /\
  snd (envelope_switch v) = match stage v, stage v' with RELEASE, OFF => true | _, _ => false end.
Proof.
  unfold envelope_switch, adsr_rule. destruct (stage v) eqn:Hst; cbn zeta.
  - cbn [fst snd]. rewrite Hst. repeat split.
  - cbn [with_envelope envelope].
    change (F32.div (F32.of_Z 1) (F32.mul ATTACK_TIME (F32.of_Z SAMPLE_RATE))) with attack_inc.
    change (F32.of_Z 1) with F32.one.
    destruct (F32.geb _ F32.one); cbn [fst snd with_envelope with_stage stage envelope note phase time keyDown];
      rewrite ?Hst; repeat split.
  - cbn [with_envelope envelope].
    change (F32.div (F32.sub (F32.of_Z 1) SUSTAIN_LEVEL) (F32.mul DECAY_TIME (F32.of_Z SAMPLE_RATE)))
      with decay_dec.
    destruct (F32.leb _ SUSTAIN_LEVEL); cbn [fst snd with_envelope with_stage stage envelope note phase time keyDown];
      rewrite ?Hst; repeat split.
  - cbn [fst snd]. rewrite Hst. repeat split.
  - cbn [with_envelope envelope].
    change (F32.div SUSTAIN_LEVEL (F32.mul RELEASE_TIME (F32.of_Z SAMPLE_RATE))) with release_dec.
    destruct (F32.leb _ F32.zero); cbn [fst snd with_envelope with_stage stage envelope note phase time keyDown];
      rewrite ?Hst; repeat split.
Qed.

Lemma adsr_rule_off s e e' : adsr_rule s e = (OFF, e') -> s = OFF \/ s = RELEASE.
Proof.
  destruct s; cbn [adsr_rule]; auto; try congruence;
    match goal with |- context [if ?c then _ else _] => destruct c end; congruence.
Qed.

Lemma advance_off_iter tanh pow v n :
  stage v = OFF -> Nat.iter n (fun w => fst (process_voice tanh pow w)) v = v.
Proof.
  intros H. induction n as [ | n IH]; [reflexivity|].
  rewrite Nat.iter_succ, IH, (process_voice_off tanh pow v H). reflexivity.
Qed.

(** C3: during one frame every non-OFF voice of the registry goes once
    through the envelope switch, which follows the ADSR rules: ATTACK adds
    [1/(attackTime*sampleRate)] and at [1.0] or above clamps to [1.0] and
    enters DECAY; DECAY subtracts [(1-sustainLevel)/(decayTime*sampleRate)]
    and at [sustainLevel] or below clamps to it and enters SUSTAIN; SUSTAIN
    keeps the envelope; RELEASE subtracts [sustainLevel/(releaseTime*sampleRate)]
    and at [0.0] or below clamps to [0.0] and enters OFF.  A voice that
    enters OFF adds nothing to the mix of that frame, and an OFF voice is
    left as it is and adds nothing in any later frame. *)
Theorem envelope_state_machine tanh pow (vs : gmap Z Voice) (k : Z) (v : Voice) :
  vs !! k = Some v ->
  stage v <> OFF ->
  let v' := fst (process_voice tanh pow v) in
  fst (fst (voice_loop tanh pow vs)) !! k = Some v' /\
  (stage v', envelope v') = adsr_rule (stage v) (envelope v) /\
  (stage v' = OFF ->
     snd (process_voice tanh pow v) = None /\
     forall n, let w := Nat.iter n (fun w => fst (process_voice tanh pow w)) v' in
               w = v' /\ snd (process_voice tanh pow w) = None).
Proof.
  intros Hk Hon v'. split; [|split].
  - rewrite voice_loop_spec. cbn [fst]. rewrite lookup_fmap, Hk. reflexivity.
  - subst v'. rewrite (process_voice_on tanh pow v Hon). cbn zeta. cbn [fst].
    destruct (envelope_switch_rule (with_time v (F64.add (time v) dt))) as (H & _). exact H.
  - intros Hoff. split.
    + subst v'. rewrite (process_voice_on tanh pow v Hon) in *. cbn zeta in *. cbn [fst snd] in *.
      destruct (envelope_switch_rule (with_time v (F64.add (time v) dt))) as (Hr & _ & _ & _ & _ & Hs).
      cbn zeta in Hs, Hr. rewrite Hs, Hoff. rewrite Hoff in Hr. cbn [with_time stage envelope] in *.
      symmetry in Hr. apply adsr_rule_off in Hr as [Hr | Hr]; [congruence|]. rewrite Hr. reflexivity.
    + intros n w. subst w. rewrite (advance_off_iter tanh pow v' n Hoff).
      split; [reflexivity|]. rewrite (process_voice_off tanh pow v' Hoff). reflexivity.
Qed.

Lemma envelope_state_machine_witness :
  let v' := fst (process_voice tanh_sat pow_unit voice_A) in
  fst (fst (voice_loop tanh_sat pow_unit {[ 57 := voice_A ]})) !! 57 = Some v' /\
  (stage v', envelope v') = adsr_rule (stage voice_A) (envelope voice_A) /\
  (stage v' = OFF ->
     snd (process_voice tanh_sat pow_unit voice_A) = None /\
     forall n, let w := Nat.iter n (fun w => fst (process_voice tanh_sat pow_unit w)) v' in
               w = v' /\ snd (process_voice tanh_sat pow_unit w) = None).
Proof.
  apply (envelope_state_machine tanh_sat pow_unit {[ 57 := voice_A ]} 57 voice_A).
  - apply lookup_singleton_eq.
  - discriminate.
Defined.

(** * Envelope range and direction *)


Lemma engine_A_reachable tanh pow : reachable tanh pow engine_A.
Proof. exact (reachable_step tanh pow Engine_init (KeyDown "a"%char) engine_A
                (reachable_init tanh pow) eq_refl). Qed.

Lemma key_events_keep_envelope st c k v :
  voices st !! k = Some v ->
  (exists v', voices (key_down c st) !! k = Some v' /\ envelope v' = envelope v) /\
  (exists v', voices (key_up_scan c st) !! k = Some v' /\ envelope v' = envelope v).
Proof.
  intros Hk. split.
  - unfold key_down. destruct (bool_decide (c = ESC)); [eauto|].
    destruct (keyNoteMap !! c) as [n|]; [|eauto]. cbn [with_voices voices].
    destruct (decide (k = n)) as [-> | Hne].
    + rewrite lookup_insert_eq, Hk. cbn. eauto.
    + rewrite lookup_insert_ne by congruence. eauto.
  - rewrite key_up_scan_lookup, Hk. cbn. eexists; split; [reflexivity|].
    unfold release_voice. destruct (keyDown v && negb (is_key c)); reflexivity.
Qed.

(** C4: in every state the engine can reach, every voice has its envelope
    within [[0.0, 1.0]]; and whatever happens next, the voice is still there
    with an envelope that a key event leaves as it is and that a frame moves
    in the direction of the voice's stage: not down in ATTACK, not up in
    DECAY or RELEASE, not at all in SUSTAIN. *)
Theorem envelope_bounded_and_monotone tanh pow (st : Engine) (k : Z) (v : Voice) :
  reachable tanh pow st ->
  voices st !! k = Some v ->
  (F32.leb F32.zero (envelope v) = true /\ F32.leb (envelope v) F32.one = true) /\
  forall ev st', step tanh pow st ev = Some st' ->
    exists v', voices st' !! k = Some v' /\
      match ev with
      | Frame =>
          (stage v = ATTACK -> F32.leb (envelope v) (envelope v') = true) /\
          (stage v = DECAY \/ stage v = RELEASE -> F32.leb (envelope v') (envelope v) = true) /\
          (stage v = SUSTAIN -> envelope v' = envelope v)
      | KeyDown _ | KeyUpScan _ => envelope v' = envelope v
      end.
Proof.
  intros Hreach Hk. destruct (reachable_inv tanh pow st Hreach) as (Hv & _ & _).
  pose proof (Hv k v Hk) as Hinv. split.
  - apply env_range_leb. apply Hinv.
  - intros ev st' Hstep. destruct ev as [ | c | c]; cbn [step] in Hstep.
    + destruct (audio_frame tanh pow st) as [[st1 [l r]]|] eqn:E; [|discriminate].
      cbn in Hstep. injection Hstep as ->.
      apply audio_frame_inv in E as (stored & _ & _ & _ & _ & Ev & _).
      exists (fst (process_voice tanh pow v)). split.
      * rewrite Ev, lookup_fmap, Hk. reflexivity.
      * destruct (process_voice_inv tanh pow v Hinv) as (_ & Ha & Hd & Hs).
        split; [exact Ha|]. split; [exact Hd|]. intros H. apply Hs. left. exact H.
    + injection Hstep as <-. destruct (running st); [|eauto].
      apply (key_events_keep_envelope st (toupper c) k v Hk).
    + injection Hstep as <-. apply (key_events_keep_envelope st (toupper c) k v Hk).
Qed.

Lemma envelope_bounded_and_monotone_witness :
  (F32.leb F32.zero (envelope voice_A) = true /\ F32.leb (envelope voice_A) F32.one = true) /\
  forall ev st', step tanh_sat pow_unit engine_A ev = Some st' ->
    exists v', voices st' !! 57 = Some v' /\
      match ev with
      | Frame =>
          (stage voice_A = ATTACK -> F32.leb (envelope voice_A) (envelope v') = true) /\
          (stage voice_A = DECAY \/ stage voice_A = RELEASE ->
           F32.leb (envelope v') (envelope voice_A) = true) /\
          (stage voice_A = SUSTAIN -> envelope v' = envelope voice_A)
      | KeyDown _ | KeyUpScan _ => envelope v' = envelope voice_A
      end.
Proof.
  apply (envelope_bounded_and_monotone tanh_sat pow_unit engine_A 57 voice_A).
  - apply engine_A_reachable.
  - reflexivity.
Defined.

(** * The mixer *)
Lemma of_float_valid x : F64.valid (F64.of_float x) = true.
Proof.
  destruct x as [s | s | | s m e]; try reflexivity.
  apply (binary_round_valid F64.prec F64.emax F64_prec_pos).
Qed.

Lemma F64_emin_neg : emin F64.prec F64.emax <= 0.
Proof. vm_compute. discriminate. Qed.

Lemma saw_bank_valid tanh phase freq : F64.valid (saw_bank tanh phase freq) = true.
Proof.
  unfold saw_bank. generalize detune_offsets. intros l.
  assert (H0 : F64.valid F64.zero = true) by reflexivity.
  revert H0. generalize F64.zero. induction l as [ | i l IH]; intros acc Hacc; [exact Hacc|].
  cbn [foldl]. apply IH.
  apply (SFadd_valid F64.prec F64.emax F64_prec_pos); [exact Hacc | apply of_float_valid].
Qed.

Lemma NUM_VOICES_valid : F64.valid (F64.of_Z NUM_VOICES) = true.
Proof. vm_compute. reflexivity. Qed.

Lemma voice_sample_valid tanh v freq : F64.valid (voice_sample tanh v freq) = true.
Proof.
  unfold voice_sample.
  pose proof (saw_bank_valid tanh (time v) freq) as H1.
  pose proof NUM_VOICES_valid as H2.
  pose proof (of_float_valid (envelope v)) as H3.
  generalize dependent (saw_bank tanh (time v) freq). intros bank H1.
  generalize dependent (F64.of_Z NUM_VOICES). intros d H2.
  generalize dependent (F64.of_float (envelope v)). intros e H3.
  exact (SFmul_valid F64.prec F64.emax F64_prec_pos F64_emin_neg _ _
           (SFdiv_valid F64.prec F64.emax F64_prec_pos F64_emin_neg _ _ H1 H2) H3).
Qed.

Lemma process_voice_sample tanh pow v y :
  snd (process_voice tanh pow v) = Some y ->
  stage v <> OFF /\ stage (fst (process_voice tanh pow v)) <> OFF /\
  y = voice_sample tanh (fst (process_voice tanh pow v)) (midiToFreq pow (note v)).
Proof.
  intros H. destruct (decide (stage v = OFF)) as [Hoff | Hon].
  - rewrite (process_voice_off tanh pow v Hoff) in H. discriminate.
  - split; [exact Hon|]. rewrite (process_voice_on tanh pow v Hon) in *. cbn zeta in *.
    cbn [fst snd] in *.
    pose proof (envelope_switch_rule (with_time v (F64.add (time v) dt))) as (Hr & _ & _ & _ & _ & Hs).
    cbn zeta in Hr, Hs. rewrite Hs in H. cbn [with_time stage envelope] in *.
    destruct (stage v) eqn:Hst; try congruence;
      destruct (stage (fst (envelope_switch (with_time v (F64.add (time v) dt))))) eqn:Hst';
      try discriminate; try (injection H as <-; split; [congruence | reflexivity]).
    all: exfalso; symmetry in Hr; apply adsr_rule_off in Hr; destruct Hr; congruence.
Qed.

Lemma process_voice_silent tanh pow v :
  snd (process_voice tanh pow v) = None -> stage (fst (process_voice tanh pow v)) = OFF.
Proof.
  intros H. destruct (decide (stage v = OFF)) as [Hoff | Hon].
  - rewrite (process_voice_off tanh pow v Hoff). exact Hoff.
  - rewrite (process_voice_on tanh pow v Hon) in *. cbn zeta in *. cbn [fst snd] in *.
    pose proof (envelope_switch_rule (with_time v (F64.add (time v) dt))) as (_ & _ & _ & _ & _ & Hs).
    cbn zeta in Hs. rewrite Hs in H.
    destruct (stage (with_time v (F64.add (time v) dt))); try discriminate.
    destruct (stage (fst (envelope_switch (with_time v (F64.add (time v) dt))))); try discriminate.
    reflexivity.
Qed.

Lemma omap_filter_fmap {A B} (f : A -> option B) (g : A -> B) (P : A -> Prop)
    `{forall x, Decision (P x)} (l : list A) :
  (forall x, P x -> f x = Some (g x)) -> (forall x, ~ P x -> f x = None) ->
  omap f l = g <$> filter P l.
Proof.
  intros Hyes Hno. induction l as [ | x l IH]; [reflexivity|].
  rewrite filter_cons. change (omap f (x :: l)) with
    (match f x with Some y => y :: omap f l | None => omap f l end).
  destruct (decide (P x)) as [Hx | Hx].
  - rewrite (Hyes x Hx), IH. reflexivity.
  - rewrite (Hno x Hx). exact IH.
Qed.

Lemma contributions_rendered tanh pow (vs : gmap Z Voice) :
  contributions tanh pow vs = rendered tanh pow <$> sounding tanh pow vs.
Proof.
  unfold contributions, sounding.
  apply (omap_filter_fmap
           (fun entry : Z * Voice => snd (process_voice tanh pow entry.2))
           (rendered tanh pow)
           (fun entry : Z * Voice => stage (fst (process_voice tanh pow entry.2)) <> OFF)).
  - intros [k v] Hon. unfold rendered. cbn [fst snd] in *.
    destruct (snd (process_voice tanh pow v)) as [y|] eqn:E.
    + pose proof (process_voice_sample tanh pow v y E) as (_ & _ & Hy). rewrite Hy. reflexivity.
    + apply process_voice_silent in E. exfalso. exact (Hon E).
  - intros [k v] Hoff. cbn [fst snd] in *.
    destruct (snd (process_voice tanh pow v)) as [y|] eqn:E; [|reflexivity].
    pose proof (process_voice_sample tanh pow v y E) as (_ & Hon & _). exfalso. exact (Hoff Hon).
Qed.

(** C5: the value of [mixed] before the reverb is the sum of the samples
    of the voices that are not OFF once their envelope has been advanced,
    divided by the number of these voices and multiplied by [VOLUME], when
    there is at least one; it is [0.0] when there is none; and with exactly
    one it is that voice's sample times [VOLUME] (as a number: a zero result
    may differ in sign). *)
Theorem mixer_normalizes_by_active_count tanh pow (st : Engine) :
  let voices_on := sounding tanh pow (voices st) in
  let active := Z.of_nat (length voices_on) in
  (0 < active ->
     dry_mix tanh pow st
     = F64.mul (F64.div (foldl F64.add F64.zero (rendered tanh pow <$> voices_on))
                        (F64.of_Z active))
               (F64.of_float VOLUME)) /\
  (active = 0 -> dry_mix tanh pow st = F64.zero) /\
  (forall entry, voices_on = [entry] ->
     same_number (dry_mix tanh pow st)
                 (F64.mul (rendered tanh pow entry) (F64.of_float VOLUME))).
Proof.
  intros voices_on active.
  assert (Hmix : dry_mix tanh pow st
                 = normalize (foldl F64.add F64.zero (rendered tanh pow <$> voices_on)) active).
  { rewrite dry_mix_spec, contributions_rendered, length_fmap. reflexivity. }
  rewrite Hmix. unfold normalize. split; [|split].
  - intros Hpos. destruct (Z.ltb_spec 0 active); [reflexivity | lia].
  - intros H0. rewrite H0. cbn [Z.ltb Z.compare].
    destruct voices_on; [reflexivity | discriminate].
  - intros entry Hone. subst active. rewrite Hone.
    cbn [length fmap list_fmap foldl Z.of_nat Pos.of_succ_nat Z.ltb Z.compare].
    change (F64.of_Z 1) with F64.one.
    apply F64_mul_same; [|reflexivity].
    destruct (F64_add_zero_l (rendered tanh pow entry)) as [-> | [Hz1 Hz2]].
    + left. apply F64_div_one. apply voice_sample_valid.
    + right. split; [|exact Hz2].
      destruct (F64.add F64.zero (rendered tanh pow entry)) as [sz | | | ]; try discriminate.
      reflexivity.
Qed.

(** * The reverb *)

Lemma F64_add_zero_exact x z :
  is_zero z = true -> is_zero x = false -> F64.add x z = x.
Proof.
  destruct z as [sz | | | ]; try discriminate. intros _.
  destruct x as [sx | | | ]; try discriminate; reflexivity.
Qed.

Lemma zero_feedback_product (stored fb : float) :
  is_zero fb = true ->
  (is_finite stored = true -> is_zero (F64.of_float (F32.mul stored fb)) = true) /\
  (is_finite stored = false -> F64.of_float (F32.mul stored fb) = S754_nan).
Proof.
  destruct fb as [sf | | | ]; try discriminate. intros _.
  destruct stored as [ss | | | ss ms es]; split; try discriminate; reflexivity.
Qed.

Lemma F64_add_nan x : F64.to_float (F64.add x S754_nan) = S754_nan.
Proof. destruct x; reflexivity. Qed.

(** C6 (amended): a frame reads the sample stored under the cursor,
    multiplies it by the feedback coefficient, adds that to the dry mix and
    narrows the sum to [float]; this one value is written back under the
    cursor and sent to both stereo channels.  With a feedback coefficient of
    zero and a finite sample under the cursor the output is the dry mix
    narrowed to [float]: that very value when the dry mix is not zero, and a
    zero (of either sign) when it is.  With an infinity or a NaN under the
    cursor the output is NaN, whatever the dry mix. *)
Theorem reverb_feeds_back_wet_output tanh pow (st : Engine) :
  0 <= reverbIndex st < Z.of_nat (length (reverbDelayBuffer st)) ->
  exists stored out st',
    reverbDelayBuffer st !! Z.to_nat (reverbIndex st) = Some stored /\
    audio_frame tanh pow st = Some (st', (out, out)) /\
    out = F64.to_float (F64.add (dry_mix tanh pow st)
                                (F64.of_float (F32.mul stored (reverbFeedback st)))) /\
    reverbDelayBuffer st' = <[Z.to_nat (reverbIndex st) := out]> (reverbDelayBuffer st) /\
    reverbDelayBuffer st' !! Z.to_nat (reverbIndex st) = Some out /\
    (is_zero (reverbFeedback st) = true -> is_finite stored = true ->
     same_number out (F64.to_float (dry_mix tanh pow st))) /\
    (is_zero (reverbFeedback st) = true -> is_finite stored = true ->
     is_zero (dry_mix tanh pow st) = false ->
     out = F64.to_float (dry_mix tanh pow st)) /\
    (is_zero (reverbFeedback st) = true -> is_finite stored = false ->
     out = S754_nan).
Proof.
  intros Hidx. destruct (audio_frame_defined tanh pow st Hidx) as (st' & out & Hf).
  pose proof Hf as Hf'.
  apply audio_frame_inv in Hf' as (stored & _ & Hs & Hout & _ & _ & Hb & _).
  exists stored, out, st'. split; [exact Hs|]. split; [exact Hf|]. split; [exact Hout|].
  split; [exact Hb|]. split; [|split; [|split]].
  - rewrite Hb. apply list_lookup_insert_eq. lia.
  - intros Hfb Hfin. rewrite Hout. apply to_float_same. apply F64_add_zero_r.
    exact (proj1 (zero_feedback_product stored _ Hfb) Hfin).
  - intros Hfb Hfin Hdry. rewrite Hout. f_equal. apply F64_add_zero_exact; [|exact Hdry].
    exact (proj1 (zero_feedback_product stored _ Hfb) Hfin).
  - intros Hfb Hinf. rewrite Hout, (proj2 (zero_feedback_product stored _ Hfb) Hinf).
    apply F64_add_nan.
Qed.

Lemma engine_dry_cell :
  reverbDelayBuffer engine_dry !! Z.to_nat (reverbIndex engine_dry) = Some half.
Proof.
  change (Z.to_nat (reverbIndex engine_dry)) with 0%nat. cbn [engine_dry reverbDelayBuffer].
  apply list_lookup_insert_eq. rewrite length_replicate, DELAY_SIZE_val. lia.
Qed.

Lemma engine_dry_mix : is_zero (dry_mix tanh_sat pow_unit engine_dry) = false.
Proof. vm_compute. reflexivity. Qed.

Lemma reverb_feeds_back_wet_output_witness :
  exists stored out st',
    reverbDelayBuffer engine_dry !! Z.to_nat (reverbIndex engine_dry) = Some stored /\
    is_zero (reverbFeedback engine_dry) = true /\
    is_finite stored = true /\ is_zero stored = false /\
    audio_frame tanh_sat pow_unit engine_dry = Some (st', (out, out)) /\
    out = F64.to_float (F64.add (dry_mix tanh_sat pow_unit engine_dry)
                                (F64.of_float (F32.mul stored (reverbFeedback engine_dry)))) /\
    reverbDelayBuffer st' = <[Z.to_nat (reverbIndex engine_dry) := out]> (reverbDelayBuffer engine_dry) /\
    reverbDelayBuffer st' !! Z.to_nat (reverbIndex engine_dry) = Some out /\
    same_number out (F64.to_float (dry_mix tanh_sat pow_unit engine_dry)) /\
    out = F64.to_float (dry_mix tanh_sat pow_unit engine_dry) /\
    is_zero out = false.
Proof.
  destruct (reverb_feeds_back_wet_output tanh_sat pow_unit engine_dry)
    as (stored & out & st' & Hs & Hf & Hout & Hb & Hc & Hsame & Hexact & _).
  { cbn [engine_dry reverbIndex reverbDelayBuffer]. rewrite length_insert, length_replicate.
    vm_compute. split; [discriminate | reflexivity]. }
  assert (Hst : stored = half).
  { rewrite engine_dry_cell in Hs. injection Hs as <-. reflexivity. }
  exists stored, out, st'. rewrite Hst in *.
  split; [exact Hs|]. split; [reflexivity|]. split; [reflexivity|]. split; [reflexivity|].
  split; [exact Hf|]. split; [exact Hout|]. split; [exact Hb|]. split; [exact Hc|].
  split; [exact (Hsame eq_refl eq_refl)|].
  pose proof (Hexact eq_refl eq_refl engine_dry_mix) as He.
  split; [exact He|]. rewrite He. vm_compute. reflexivity.
Defined.

Lemma engine_overflowed_cell :
  reverbDelayBuffer engine_overflowed !! Z.to_nat (reverbIndex engine_overflowed)
  = Some (S754_infinity false : float).
Proof.
  change (Z.to_nat (reverbIndex engine_overflowed)) with 0%nat. cbn [engine_overflowed reverbDelayBuffer].
  apply list_lookup_insert_eq. rewrite length_replicate, DELAY_SIZE_val. lia.
Qed.

(** C6, as worded, fails: with a feedback coefficient of zero and no voice
    sounding, an infinity under the cursor gives the output NaN
    ([inf * 0.0f]), while the dry mix is [0.0]. *)
Lemma zero_feedback_infinite_cell :
  ~ (forall tanh pow st st' out,
       0 <= reverbIndex st < Z.of_nat (length (reverbDelayBuffer st)) ->
       is_zero (reverbFeedback st) = true ->
       audio_frame tanh pow st = Some (st', (out, out)) ->
       same_number out (F64.to_float (dry_mix tanh pow st))).
Proof.
  intros H.
  assert (Hidx : 0 <= reverbIndex engine_overflowed
                 < Z.of_nat (length (reverbDelayBuffer engine_overflowed))).
  { cbn [engine_overflowed reverbIndex reverbDelayBuffer]. rewrite length_insert, length_replicate.
    vm_compute. split; [discriminate | reflexivity]. }
  destruct (audio_frame_defined tanh_sat pow_unit engine_overflowed Hidx) as (st' & out & Hf).
  specialize (H tanh_sat pow_unit engine_overflowed st' out Hidx eq_refl Hf).
  apply audio_frame_inv in Hf as (stored & _ & Hs & Hout & _).
  pose proof engine_overflowed_cell as Hc. rewrite Hs in Hc. injection Hc as ->.
  assert (Hdry : dry_mix tanh_sat pow_unit engine_overflowed = F64.zero)
    by (vm_compute; reflexivity).
  rewrite Hdry in Hout, H.
  assert (Hnan : out = S754_nan) by (rewrite Hout; reflexivity).
  rewrite Hnan in H. destruct H as [H | [H _]]; discriminate H.
Qed.

(** * The delay line *)

(** C7: the delay line always holds [2 * SAMPLE_RATE] samples (two
    seconds), its cursor is always within the line, so that a frame never
    reads or writes outside it, and a frame moves the cursor by one position,
    modulo the length. *)
Theorem delay_cursor_in_range tanh pow (st : Engine) :
  reachable tanh pow st ->
  length (reverbDelayBuffer st) = Z.to_nat (2 * SAMPLE_RATE) /\
  0 <= reverbIndex st < Z.of_nat (length (reverbDelayBuffer st)) /\
  (exists st' out, audio_frame tanh pow st = Some (st', out)) /\
  forall st' out, audio_frame tanh pow st = Some (st', out) ->
    reverbIndex st' = (reverbIndex st + 1) mod (2 * SAMPLE_RATE) /\
    length (reverbDelayBuffer st') = length (reverbDelayBuffer st).
Proof.
  intros Hreach. destruct (reachable_inv tanh pow st Hreach) as (_ & Hlen & Hidx).
  rewrite DELAY_SIZE_val in *. change (2 * SAMPLE_RATE) with 88200.
  split; [exact Hlen|]. split; [rewrite Hlen; lia|]. split.
  - destruct (audio_frame_defined tanh pow st) as (st' & out & H); [rewrite Hlen; lia|]. eauto.
  - intros st' [l r] H. apply audio_frame_inv in H as (stored & _ & _ & _ & _ & _ & Eb & Ei & _).
    rewrite Ei, Eb, length_insert, DELAY_SIZE_val. split; [|reflexivity].
    apply Z.rem_mod_nonneg; lia.
Qed.

Lemma delay_cursor_in_range_witness :
  length (reverbDelayBuffer Engine_init) = Z.to_nat (2 * SAMPLE_RATE) /\
  0 <= reverbIndex Engine_init < Z.of_nat (length (reverbDelayBuffer Engine_init)) /\
  (exists st' out, audio_frame tanh_sat pow_unit Engine_init = Some (st', out)) /\
  forall st' out, audio_frame tanh_sat pow_unit Engine_init = Some (st', out) ->
    reverbIndex st' = (reverbIndex Engine_init + 1) mod (2 * SAMPLE_RATE) /\
    length (reverbDelayBuffer st') = length (reverbDelayBuffer Engine_init).
Proof.
  exact (delay_cursor_in_range tanh_sat pow_unit Engine_init (reachable_init tanh_sat pow_unit)).
Defined.

(** * The listener and the registry *)
Lemma release_voice_key c v : is_key c = true -> release_voice c v = v.
Proof. intros H. unfold release_voice. rewrite H, andb_false_r. reflexivity. Qed.

Lemma key_up_scan_key c st : is_key c = true -> voices (key_up_scan c st) = voices st.
Proof.
  intros H. unfold key_up_scan. cbn [with_voices voices]. apply map_eq. intros k.
  rewrite lookup_fmap. destruct (voices st !! k) as [v|]; [|reflexivity].
  cbn. rewrite (release_voice_key c v H). reflexivity.
Qed.

(** C8: a key-down on a note whose voice is already in the registry sets
    that voice to ATTACK at time 0, whatever its envelope is, and leaves the
    envelope (and the phase) as it was. *)
Theorem retrigger_keeps_envelope (st : Engine) (c : ascii) (n : Z) (v : Voice) :
  keyNoteMap !! toupper c = Some n ->
  voices st !! n = Some v ->
  voices (listener_iteration c st) !! n
  = Some {| note := n; phase := phase v; time := F64.zero; stage := ATTACK;
            envelope := envelope v; keyDown := true |}.
Proof.
  intros Hkey Hv. unfold listener_iteration.
  rewrite (key_up_scan_key _ _ (is_key_true _ _ Hkey)).
  rewrite (key_down_mapped _ _ st Hkey). cbn [with_voices voices].
  rewrite lookup_insert_eq, Hv. reflexivity.
Qed.

Lemma retrigger_keeps_envelope_witness :
  voices (listener_iteration "a"%char engine_A) !! 57
  = Some {| note := 57; phase := phase voice_A; time := F64.zero; stage := ATTACK;
            envelope := envelope voice_A; keyDown := true |}.
Proof.
  exact (retrigger_keeps_envelope engine_A "a"%char 57 voice_A eq_refl eq_refl).
Defined.


(** C9 (as stated) fails: with the voices of [A] and [S] held, one loop
    iteration on a space, which is no key of the table, releases both. *)
Lemma key_up_releases_two_voices :
  ~ (forall (st : Engine) (c : ascii) (k1 k2 : Z),
       released st (listener_iteration c st) k1 ->
       released st (listener_iteration c st) k2 -> k1 = k2).
Proof.
  intros H.
  assert (H57 : released engine_AS (listener_iteration " "%char engine_AS) 57).
  { exists {| note := 57; phase := F64.zero; time := F64.zero; stage := ATTACK;
              envelope := F32.zero; keyDown := true |},
           {| note := 57; phase := F64.zero; time := F64.zero; stage := RELEASE;
              envelope := F32.zero; keyDown := false |}.
    repeat split; vm_compute; reflexivity. }
  assert (H59 : released engine_AS (listener_iteration " "%char engine_AS) 59).
  { exists {| note := 59; phase := F64.zero; time := F64.zero; stage := ATTACK;
              envelope := F32.zero; keyDown := true |},
           {| note := 59; phase := F64.zero; time := F64.zero; stage := RELEASE;
              envelope := F32.zero; keyDown := false |}.
    repeat split; vm_compute; reflexivity. }
  specialize (H engine_AS " "%char 57 59 H57 H59). discriminate.
Qed.

Lemma key_down_unmapped_voices c st :
  keyNoteMap !! c = None -> voices (key_down c st) = voices st.
Proof.
  intros H. unfold key_down. destruct (bool_decide (c = ESC)); [reflexivity|].
  rewrite H. reflexivity.
Qed.

(** C9 (amended): the key-up scan of a loop iteration compares nothing to
    the voices: when the polled character is no key of the table (ESC
    included) it sends every held voice to RELEASE and clears its [keyDown],
    leaving the other voices as they are; when it is a key of the table it
    releases no voice. *)
Theorem key_up_scan_all_or_none (st : Engine) (c : ascii) :
  let st' := listener_iteration c st in
  (keyNoteMap !! toupper c = None ->
   forall k v, voices st !! k = Some v ->
     voices st' !! k
     = Some (if keyDown v
             then {| note := note v; phase := phase v; time := time v; stage := RELEASE;
                     envelope := envelope v; keyDown := false |}
             else v)) /\
  (is_Some (keyNoteMap !! toupper c) -> forall k, ~ released st st' k).
Proof.
  intros st'. subst st'. unfold listener_iteration. split.
  - intros Hc k v Hk. rewrite key_up_scan_lookup, (key_down_unmapped_voices _ st Hc), Hk.
    cbn. unfold release_voice. rewrite (is_key_false _ Hc). cbn.
    rewrite andb_true_r. reflexivity.
  - intros [n Hc] k (v & w & Hv & Hheld & Hw & Hst & Hup).
    rewrite (key_up_scan_key _ _ (is_key_true _ _ Hc)) in Hw.
    rewrite (key_down_mapped _ _ st Hc) in Hw. cbn [with_voices voices] in Hw.
    destruct (decide (k = n)) as [-> | Hne].
    + rewrite lookup_insert_eq in Hw. injection Hw as <-. discriminate.
    + rewrite lookup_insert_ne in Hw by congruence. congruence.
Qed.

(** ** A key-down inside a frame *)

Lemma reachable_raced_of_reachable tanh pow st :
  reachable tanh pow st -> reachable_raced tanh pow st.
Proof.
  induction 1 as [ | st ev st' _ IH Hstep]; [apply raced_init|].
  exact (raced_step tanh pow st ev st' IH Hstep).
Qed.

Lemma raced_frame_inv tanh pow c st st' :
  raced_frame tanh pow c st = Some st' ->
  exists n voice st1 out,
    keyNoteMap !! toupper c = Some n /\ audio_frame tanh pow st = Some (st1, out) /\
    voices st !! n = Some voice /\ running st = true /\ stage voice = RELEASE /\
    F32.leb (F32.sub (envelope voice) release_dec) F32.zero = true /\
    st' = with_voices st1 (<[n := raced_voice n voice]> (voices st1)).
Proof.
  unfold raced_frame. intros H.
  destruct (keyNoteMap !! toupper c) as [n|] eqn:Hc; [|discriminate].
  destruct (audio_frame tanh pow st) as [[st1 out]|] eqn:Hf; [|discriminate].
  destruct (voices st !! n) as [voice|] eqn:Hv; [|discriminate].
  destruct (running st) eqn:Hr; [|discriminate].
  destruct (stage voice) eqn:Hst; try discriminate. cbn [stage_eqb andb] in H.
  destruct (F32.leb (F32.sub (envelope voice) release_dec) F32.zero) eqn:Hle; [|discriminate].
  injection H as <-. exists n, voice, st1, out. repeat split; reflexivity || assumption.
Qed.

Lemma raced_frame_spec tanh pow c st n voice st1 out :
  keyNoteMap !! toupper c = Some n -> audio_frame tanh pow st = Some (st1, out) ->
  voices st !! n = Some voice -> running st = true -> stage voice = RELEASE ->
  F32.leb (F32.sub (envelope voice) release_dec) F32.zero = true ->
  raced_frame tanh pow c st
  = Some (with_voices st1 (<[n := raced_voice n voice]> (voices st1))).
Proof.
  intros Hc Hf Hv Hr Hs Hle. unfold raced_frame. rewrite Hc, Hf, Hv, Hr, Hs, Hle. reflexivity.
Qed.

(** A voice is OFF after its pass through the loop body only when it was
    OFF before, or when its release has just completed. *)
Lemma process_voice_enters_off tanh pow v :
  stage (fst (process_voice tanh pow v)) = OFF ->
  (stage v = OFF /\ fst (process_voice tanh pow v) = v) \/
  (stage v = RELEASE /\ envelope (fst (process_voice tanh pow v)) = F32.zero).
Proof.
  destruct (decide (stage v = OFF)) as [Hoff | Hon].
  - rewrite (process_voice_off tanh pow v Hoff). cbn [fst]. left. split; [exact Hoff | reflexivity].
  - rewrite (process_voice_on tanh pow v Hon). cbn zeta. cbn [fst].
    pose proof (envelope_switch_rule (with_time v (F64.add (time v) dt))) as (Hr & _).
    cbn zeta in Hr. cbn [with_time stage envelope] in Hr. revert Hr.
    generalize (fst (envelope_switch (with_time v (F64.add (time v) dt)))). intros w Hr Hw.
    unfold adsr_rule in Hr. destruct (stage v) eqn:Hst; [congruence | | | |].
    + destruct (F32.geb _ _); injection Hr as Hs He; congruence.
    + destruct (F32.leb _ _); injection Hr as Hs He; congruence.
    + injection Hr as Hs He. congruence.
    + right. split; [reflexivity|].
      destruct (F32.leb _ _); injection Hr as Hs He; congruence.
Qed.

Lemma release_voice_stage c v :
  release_voice c v = v \/ stage (release_voice c v) = RELEASE.
Proof.
  unfold release_voice. destruct (keyDown v && negb (is_key c)); [right | left]; reflexivity.
Qed.

(** With or without such frames, an OFF voice has its envelope at
    [0.0f]. *)
Lemma reachable_raced_off tanh pow st :
  reachable_raced tanh pow st ->
  forall k v, voices st !! k = Some v -> stage v = OFF -> envelope v = F32.zero.
Proof.
  assert (Hframe : forall st st1 out,
            (forall k v, voices st !! k = Some v -> stage v = OFF -> envelope v = F32.zero) ->
            audio_frame tanh pow st = Some (st1, out) ->
            forall k v, voices st1 !! k = Some v -> stage v = OFF -> envelope v = F32.zero).
  { intros st0 st1 [l r] IH E k v Hk Hoff.
    apply audio_frame_inv in E as (stored & _ & _ & _ & _ & Ev & _).
    rewrite Ev, lookup_fmap in Hk.
    destruct (voices st0 !! k) as [w|] eqn:Ew; [|discriminate]. cbn in Hk. injection Hk as <-.
    destruct (process_voice_enters_off tanh pow w Hoff) as [[Hw Heq] | [_ He]]; [|exact He].
    rewrite Heq. exact (IH k w Ew Hw). }
  induction 1 as [ | st ev st' _ IH Hstep | st c st' _ IH Hrace]; intros k v Hk Hoff.
  - cbn in Hk. rewrite lookup_empty in Hk. discriminate.
  - destruct ev as [ | c | c]; cbn [step] in Hstep.
    + destruct (audio_frame tanh pow st) as [[st1 out]|] eqn:E; [|discriminate].
      cbn in Hstep. injection Hstep as ->. exact (Hframe st st' out IH E k v Hk Hoff).
    + injection Hstep as <-. destruct (running st); [|exact (IH k v Hk Hoff)].
      revert Hk. unfold key_down.
      destruct (bool_decide (toupper c = ESC)); [intros Hk; exact (IH k v Hk Hoff)|].
      destruct (keyNoteMap !! toupper c) as [n|]; [|intros Hk; exact (IH k v Hk Hoff)].
      cbn [with_voices voices]. destruct (decide (k = n)) as [-> | Hne].
      * rewrite lookup_insert_eq. intros H. injection H as <-. discriminate.
      * rewrite lookup_insert_ne by congruence. intros Hk. exact (IH k v Hk Hoff).
    + injection Hstep as <-. rewrite key_up_scan_lookup in Hk.
      destruct (voices st !! k) as [w|] eqn:Ew; [|discriminate]. cbn in Hk. injection Hk as <-.
      destruct (release_voice_stage (toupper c) w) as [Heq | Hrel]; [|congruence].
      rewrite Heq in *. exact (IH k w Ew Hoff).
  - apply raced_frame_inv in Hrace as (n & w & st1 & out & _ & E & _ & _ & _ & _ & ->).
    cbn [with_voices voices] in Hk. destruct (decide (k = n)) as [-> | Hne].
    + rewrite lookup_insert_eq in Hk. injection Hk as <-. reflexivity.
    + rewrite lookup_insert_ne in Hk by congruence. exact (Hframe st st1 out IH E k v Hk Hoff).
Qed.

(** C10 (amended): no step of either thread removes an entry of the
    registry, not even a frame raced by a key-down.  A voice that is OFF has
    its envelope at [0.0f], is skipped by the audio callback and stays in the
    registry as it is; a key-down on its note rewrites that same entry in
    place, keeping its phase and envelope.  The callback leaves [keyDown] as
    it finds it: the frame that completes a release sets the stage to OFF and
    the envelope to [0.0f] and nothing else, and it is the key-up scan that
    clears [keyDown] when it sends the voice to RELEASE. *)
Theorem registry_entries_persist tanh pow (st : Engine) :
  reachable_raced tanh pow st ->
  (forall ev st' k, step tanh pow st ev = Some st' ->
     is_Some (voices st !! k) -> is_Some (voices st' !! k)) /\
  (forall c st' k, raced_frame tanh pow c st = Some st' ->
     is_Some (voices st !! k) -> is_Some (voices st' !! k)) /\
  (forall k v, voices st !! k = Some v -> stage v = OFF ->
     envelope v = F32.zero /\
     process_voice tanh pow v = (v, None) /\
     (forall st' out, audio_frame tanh pow st = Some (st', out) -> voices st' !! k = Some v) /\
     (forall c, keyNoteMap !! c = Some k ->
        voices (key_down c st) !! k = Some (retriggered k v) /\
        dom (voices (key_down c st)) = dom (voices st))) /\
  (forall k v st' out, voices st !! k = Some v -> stage v = RELEASE ->
     audio_frame tanh pow st = Some (st', out) ->
     exists v', voices st' !! k = Some v' /\ keyDown v' = keyDown v /\
       (stage v' = RELEASE \/ (stage v' = OFF /\ envelope v' = F32.zero))) /\
  (forall c k v, voices st !! k = Some v -> keyDown v = true -> is_key c = false ->
     exists v', voices (key_up_scan c st) !! k = Some v' /\
       stage v' = RELEASE /\ keyDown v' = false /\ envelope v' = envelope v).
Proof.
  intros Hreach. pose proof (reachable_raced_off tanh pow st Hreach) as Hzero.
  assert (Hkeep : forall st' out k, audio_frame tanh pow st = Some (st', out) ->
            is_Some (voices st !! k) -> is_Some (voices st' !! k)).
  { intros st' [l r] k E [v Hk].
    apply audio_frame_inv in E as (stored & _ & _ & _ & _ & Ev & _).
    rewrite Ev, lookup_fmap, Hk. cbn. eauto. }
  split; [|split; [|split; [|split]]].
  - intros ev st' k Hstep [v Hk]. destruct ev as [ | c | c]; cbn [step] in Hstep.
    + destruct (audio_frame tanh pow st) as [[st1 out]|] eqn:E; [|discriminate].
      cbn in Hstep. injection Hstep as ->. apply (Hkeep st' out k eq_refl). eauto.
    + injection Hstep as <-. destruct (running st); [|eauto].
      destruct (key_events_keep_envelope st (toupper c) k v Hk) as [(v' & H & _) _]. eauto.
    + injection Hstep as <-.
      destruct (key_events_keep_envelope st (toupper c) k v Hk) as [_ (v' & H & _)]. eauto.
  - intros c st' k Hrace Hk.
    apply raced_frame_inv in Hrace as (n & w & st1 & out & _ & E & _ & _ & _ & _ & ->).
    cbn [with_voices voices]. destruct (decide (k = n)) as [-> | Hne].
    + rewrite lookup_insert_eq. eauto.
    + rewrite lookup_insert_ne by congruence. exact (Hkeep st1 out k E Hk).
  - intros k v Hk Hoff. split; [exact (Hzero k v Hk Hoff)|].
    split; [apply process_voice_off; exact Hoff|]. split.
    + intros st' [l r] E. apply audio_frame_inv in E as (stored & _ & _ & _ & _ & Ev & _).
      rewrite Ev, lookup_fmap, Hk. cbn. rewrite (process_voice_off tanh pow v Hoff). reflexivity.
    + intros c Hc. rewrite (key_down_mapped _ _ st Hc). cbn [with_voices voices]. split.
      * rewrite lookup_insert_eq, Hk. reflexivity.
      * rewrite dom_insert_L. apply subseteq_union_1_L, singleton_subseteq_l.
        apply elem_of_dom_2 with v. exact Hk.
  - intros k v st' [l r] Hk Hrel E.
    apply audio_frame_inv in E as (stored & _ & _ & _ & _ & Ev & _).
    exists (fst (process_voice tanh pow v)). split; [rewrite Ev, lookup_fmap, Hk; reflexivity|].
    assert (Hon : stage v <> OFF) by congruence.
    pose proof (envelope_switch_rule (with_time v (F64.add (time v) dt)))
      as (Hr & _ & _ & _ & Hkd & _).
    cbn zeta in Hr, Hkd. cbn [with_time stage envelope keyDown] in Hr, Hkd. rewrite Hrel in Hr.
    rewrite (process_voice_on tanh pow v Hon). cbn zeta. cbn [fst].
    split; [exact Hkd|]. unfold adsr_rule in Hr.
    destruct (F32.leb _ F32.zero); injection Hr as Hs He.
    + right. split; assumption.
    + left. exact Hs.
  - intros c k v Hk Hd Hc. rewrite key_up_scan_lookup, Hk. cbn.
    eexists. split; [reflexivity|]. unfold release_voice. rewrite Hd, Hc. cbn.
    repeat split.
Qed.

Lemma frames_later_frame st st1 out :
  audio_frame tanh_sat pow_unit st = Some (st1, out) -> frames_later 1 st = st1.
Proof.
  intros Hf. unfold frames_later. cbn [audioCallback]. rewrite Hf. destruct out. reflexivity.
Qed.

Lemma engine_released_reachable : reachable tanh_sat pow_unit engine_released.
Proof.
  pose proof (reachable_step tanh_sat pow_unit engine_A (KeyUpScan " "%char) engine_A_up
                (engine_A_reachable tanh_sat pow_unit) eq_refl) as H0.
  destruct (reachable_inv tanh_sat pow_unit engine_A_up H0) as (_ & Hlen & Hidx).
  destruct (audio_frame_defined tanh_sat pow_unit engine_A_up) as (st1 & out & Hf).
  { rewrite Hlen, Z2Nat.id by (rewrite DELAY_SIZE_val; lia). exact Hidx. }
  pose proof (frames_later_frame _ _ _ Hf) as H1.
  assert (Hr1 : reachable tanh_sat pow_unit (frames_later 1 engine_A_up)).
  { rewrite H1. apply (reachable_step tanh_sat pow_unit engine_A_up Frame st1 H0).
    cbn [step]. rewrite Hf. reflexivity. }
  assert (Hrun : running (frames_later 1 engine_A_up) = true).
  { rewrite H1. apply audio_frame_inv in Hf as (stored & _ & _ & _ & _ & _ & _ & _ & _ & Hrun).
    rewrite Hrun. reflexivity. }
  unfold engine_released.
  set (s1 := frames_later 1 engine_A_up) in *.
  set (s2 := key_down "S"%char s1). set (s3 := key_up_scan " "%char s2).
  assert (Hr2 : reachable tanh_sat pow_unit s2).
  { apply (reachable_step tanh_sat pow_unit s1 (KeyDown "s"%char) s2 Hr1).
    cbn [step]. rewrite Hrun. reflexivity. }
  assert (Hr3 : reachable tanh_sat pow_unit s3)
    by exact (reachable_step tanh_sat pow_unit s2 (KeyUpScan " "%char) s3 Hr2 eq_refl).
  apply (reachable_step tanh_sat pow_unit s3 (KeyDown "d"%char) (key_down "D"%char s3) Hr3).
  assert (Hrun3 : running s3 = true) by exact Hrun.
  cbn [step]. rewrite Hrun3. reflexivity.
Qed.

Lemma engine_released_voices :
  voices engine_released !! 57
  = Some {| note := 57; phase := F64.zero; time := dt; stage := OFF;
            envelope := F32.zero; keyDown := false |} /\
  voices engine_released !! 59
  = Some {| note := 59; phase := F64.zero; time := F64.zero; stage := RELEASE;
            envelope := F32.zero; keyDown := false |} /\
  voices engine_released !! 61
  = Some {| note := 61; phase := F64.zero; time := F64.zero; stage := ATTACK;
            envelope := F32.zero; keyDown := true |}.
Proof. vm_compute. repeat split. Qed.

Lemma registry_entries_persist_witness :
  (exists v, voices engine_released !! 57 = Some v /\ stage v = OFF /\
             keyNoteMap !! "A"%char = Some 57) /\
  (exists v, voices engine_released !! 59 = Some v /\ stage v = RELEASE) /\
  (exists v, voices engine_released !! 61 = Some v /\ keyDown v = true) /\
  is_Some (audio_frame tanh_sat pow_unit engine_released) /\
  is_Some (raced_frame tanh_sat pow_unit "s"%char engine_released) /\
  (forall ev st' k, step tanh_sat pow_unit engine_released ev = Some st' ->
     is_Some (voices engine_released !! k) -> is_Some (voices st' !! k)) /\
  (forall c st' k, raced_frame tanh_sat pow_unit c engine_released = Some st' ->
     is_Some (voices engine_released !! k) -> is_Some (voices st' !! k)) /\
  (forall k v, voices engine_released !! k = Some v -> stage v = OFF ->
     envelope v = F32.zero /\
     process_voice tanh_sat pow_unit v = (v, None) /\
     (forall st' out, audio_frame tanh_sat pow_unit engine_released = Some (st', out) ->
        voices st' !! k = Some v) /\
     (forall c, keyNoteMap !! c = Some k ->
        voices (key_down c engine_released) !! k = Some (retriggered k v) /\
        dom (voices (key_down c engine_released)) = dom (voices engine_released))) /\
  (forall k v st' out, voices engine_released !! k = Some v -> stage v = RELEASE ->
     audio_frame tanh_sat pow_unit engine_released = Some (st', out) ->
     exists v', voices st' !! k = Some v' /\ keyDown v' = keyDown v /\
       (stage v' = RELEASE \/ (stage v' = OFF /\ envelope v' = F32.zero))) /\
  (forall c k v, voices engine_released !! k = Some v -> keyDown v = true ->
     is_key c = false ->
     exists v', voices (key_up_scan c engine_released) !! k = Some v' /\
       stage v' = RELEASE /\ keyDown v' = false /\ envelope v' = envelope v).
Proof.
  destruct engine_released_voices as (H57 & H59 & H61).
  destruct (reachable_inv tanh_sat pow_unit engine_released engine_released_reachable)
    as (_ & Hlen & Hidx).
  destruct (audio_frame_defined tanh_sat pow_unit engine_released) as (st1 & out & Hf).
  { rewrite Hlen, Z2Nat.id by (rewrite DELAY_SIZE_val; lia). exact Hidx. }
  split; [eexists; split; [exact H57 | split; reflexivity]|].
  split; [eexists; split; [exact H59 | reflexivity]|].
  split; [eexists; split; [exact H61 | reflexivity]|].
  split; [rewrite Hf; eexists; reflexivity|].
  split.
  { erewrite (raced_frame_spec tanh_sat pow_unit "s"%char engine_released 59 _ st1 (out, out));
      [eexists; reflexivity | reflexivity | exact Hf | exact H59 | | reflexivity | reflexivity].
    apply audio_frame_inv in Hf as (stored & _ & _ & _ & _ & _ & _ & _ & _ & Hrun).
    vm_compute. reflexivity. }
  exact (registry_entries_persist tanh_sat pow_unit engine_released
           (reachable_raced_of_reachable tanh_sat pow_unit engine_released
              engine_released_reachable)).
Defined.

(** The state after the voice of [A] has been released and a key-down on
    [A] has landed inside the frame that completes the release. *)
Lemma raced_release_state :
  exists st, reachable_raced tanh_sat pow_unit st /\
    voices st !! 57
    = Some {| note := 57; phase := F64.zero; time := F64.zero; stage := OFF;
              envelope := F32.zero; keyDown := true |}.
Proof.
  pose proof (reachable_step tanh_sat pow_unit engine_A (KeyUpScan " "%char) engine_A_up
                (engine_A_reachable tanh_sat pow_unit) eq_refl) as H0.
  destruct (reachable_inv tanh_sat pow_unit engine_A_up H0) as (_ & Hlen & Hidx).
  destruct (audio_frame_defined tanh_sat pow_unit engine_A_up) as (st1 & out & Hf).
  { rewrite Hlen, Z2Nat.id by (rewrite DELAY_SIZE_val; lia). exact Hidx. }
  eexists. split.
  - apply (raced_race tanh_sat pow_unit engine_A_up "a"%char);
      [exact (reachable_raced_of_reachable _ _ _ H0)|].
    apply (raced_frame_spec tanh_sat pow_unit "a"%char engine_A_up 57
             {| note := 57; phase := F64.zero; time := F64.zero; stage := RELEASE;
                envelope := F32.zero; keyDown := false |} st1 (out, out));
      [reflexivity | exact Hf | reflexivity | reflexivity | reflexivity | reflexivity].
  - cbn [with_voices voices]. rewrite lookup_insert_eq. reflexivity.
Qed.

(** C10, as worded, fails: in the state above the voice is OFF with its
    envelope at [0.0f], and its [keyDown] flag is set. *)
Lemma raced_release_keeps_keyDown :
  ~ (forall tanh pow st, reachable_raced tanh pow st ->
       forall k v, voices st !! k = Some v -> stage v = OFF ->
         envelope v = F32.zero /\ keyDown v = false).
Proof.
  intros H. destruct raced_release_state as (st & Hr & Hk).
  destruct (H tanh_sat pow_unit st Hr 57 _ Hk eq_refl) as [_ Hd]. discriminate Hd.
Qed.

(** * The voice registry in reachable states *)

Lemma table_notes_range k : k ∈ table_notes -> 48 <= k <= 74.
Proof.
  unfold table_notes. rewrite elem_of_list_to_set.
  assert (E : (map_to_list keyNoteMap).*2 ≡ₚ
              [57; 58; 59; 60; 61; 62; 63; 64; 65; 66; 67; 68; 69; 70; 71; 72; 73; 74; 72;
               48; 50; 52; 53; 55; 57]).
  { unfold keyNoteMap. rewrite map_to_list_to_map; [reflexivity|].
    vm_compute. repeat (constructor; [rewrite ?elem_of_cons, ?elem_of_nil; intuition discriminate|]).
    constructor. }
  rewrite E. rewrite !elem_of_cons, elem_of_nil. lia.
Qed.

Lemma table_notes_size : size table_notes = 23%nat.
Proof.
  assert (E : table_notes =
              list_to_set [48; 50; 52; 53; 55; 57; 58; 59; 60; 61; 62; 63; 64; 65; 66; 67; 68;
                           69; 70; 71; 72; 73; 74]).
  { apply set_eq. intros k. unfold table_notes, keyNoteMap.
    rewrite !elem_of_list_to_set, map_to_list_to_map.
    - cbn [fmap list_fmap snd]. rewrite !elem_of_cons, !elem_of_nil. lia.
    - vm_compute.
      repeat (constructor; [rewrite ?elem_of_cons, ?elem_of_nil; intuition discriminate|]).
      constructor. }
  rewrite E, size_list_to_set; [reflexivity|].
  repeat (constructor; [rewrite ?elem_of_cons, ?elem_of_nil; lia|]). constructor.
Qed.

Lemma table_notes_key c n : keyNoteMap !! c = Some n -> n ∈ table_notes.
Proof.
  intros H. unfold table_notes. rewrite elem_of_list_to_set, list_elem_of_fmap.
  exists (c, n). split; [reflexivity|]. apply elem_of_map_to_list. exact H.
Qed.

Lemma one_above_sustain : F32.leb F32.one SUSTAIN_LEVEL = false.
Proof. reflexivity. Qed.

Lemma envelope_switch_entry k v : entry_inv k v -> entry_inv k (fst (envelope_switch v)).
Proof.
  intros (Hn & Hk & Hp & Hd & Hs & Hdec). unfold envelope_switch, held in *.
  destruct (stage v) eqn:Es; cbn [with_envelope with_stage envelope stage fst].
  - unfold entry_inv, held. rewrite Es. tauto.
  - destruct (F32.geb (F32.add (envelope v) attack_inc) F32.one); unfold entry_inv, held; cbn; rewrite ?Es; repeat split; try tauto;
      try (intros; discriminate); try (intros _; exact one_above_sustain);
      try (intros; right; left; reflexivity); try (intros; left; reflexivity).
  - destruct (F32.leb (F32.sub (envelope v) decay_dec) SUSTAIN_LEVEL) eqn:El; unfold entry_inv, held; cbn; rewrite ?Es; repeat split;
      try tauto; try (intros; discriminate); try (intros _; exact El);
      try (intros; right; right; reflexivity); try (intros; right; left; reflexivity).
  - unfold entry_inv, held. rewrite Es. tauto.
  - destruct (F32.leb (F32.sub (envelope v) release_dec) F32.zero); unfold entry_inv, held; cbn; rewrite ?Es; repeat split;
      try (intros; discriminate); try assumption;
      try (intros H; apply Hd in H; destruct H as [H | [H | H]]; discriminate);
      try (intros [H | [H | H]]; discriminate).
Qed.

Lemma process_voice_entry tanh pow k v :
  entry_inv k v -> entry_inv k (fst (process_voice tanh pow v)).
Proof.
  intros H. destruct (decide (stage v = OFF)) as [Hoff | Hon].
  - rewrite (process_voice_off tanh pow v Hoff). exact H.
  - rewrite (process_voice_on tanh pow v Hon). cbn zeta. cbn [fst].
    apply envelope_switch_entry. exact H.
Qed.

Lemma release_voice_entry c k v : entry_inv k v -> entry_inv k (release_voice c v).
Proof.
  intros H. unfold release_voice. destruct (keyDown v && negb (is_key c)); [|exact H].
  destruct H as (Hn & Hk & Hp & _). unfold entry_inv, held. cbn.
  repeat split; try assumption; try (intros; discriminate).
  intros [H | [H | H]]; discriminate.
Qed.

Lemma key_down_entry c st : registry_inv st -> registry_inv (key_down c st).
Proof.
  intros Hinv. unfold key_down. destruct (bool_decide (c = ESC)); [exact Hinv|].
  destruct (keyNoteMap !! c) as [n|] eqn:Ec; [|exact Hinv].
  intros k v. cbn [with_voices voices]. destruct (decide (k = n)) as [-> | Hne].
  - rewrite lookup_insert_eq. intros [= <-]. unfold entry_inv, held. cbn.
    split; [reflexivity|]. split; [exact (table_notes_key c n Ec)|]. split.
    + destruct (voices st !! n) as [w|] eqn:Ew; [|reflexivity].
      cbn. apply (Hinv n w Ew).
    + repeat split; try (intros; discriminate). intros _. left. reflexivity.
  - rewrite lookup_insert_ne by congruence. apply Hinv.
Qed.

Lemma registry_inv_step tanh pow st ev st' :
  registry_inv st -> step tanh pow st ev = Some st' -> registry_inv st'.
Proof.
  intros Hinv Hstep. destruct ev as [ | c | c]; cbn [step] in Hstep.
  - destruct (audio_frame tanh pow st) as [[st1 [l r]]|] eqn:E; [|discriminate].
    cbn in Hstep. injection Hstep as ->.
    apply audio_frame_inv in E as (stored & _ & _ & _ & _ & Ev & _).
    intros k v. rewrite Ev, lookup_fmap. destruct (voices st !! k) as [w|] eqn:Ew; [|discriminate].
    cbn. intros [= <-]. apply process_voice_entry. exact (Hinv k w Ew).
  - injection Hstep as <-. destruct (running st); [|exact Hinv]. apply key_down_entry. exact Hinv.
  - injection Hstep as <-. intros k v. rewrite key_up_scan_lookup.
    destruct (voices st !! k) as [w|] eqn:Ew; [|discriminate].
    cbn. intros [= <-]. apply release_voice_entry. exact (Hinv k w Ew).
Qed.

Lemma reachable_registry tanh pow st : reachable tanh pow st -> registry_inv st.
Proof.
  induction 1 as [ | st ev st' _ IH Hstep].
  - intros k v H. cbn in H. rewrite lookup_empty in H. discriminate.
  - exact (registry_inv_step tanh pow st ev st' IH Hstep).
Qed.

Lemma engine_AS_reachable tanh pow : reachable tanh pow engine_AS.
Proof.
  set (s1 := key_down (toupper "a"%char) Engine_init).
  set (s2 := key_up_scan (toupper "a"%char) s1).
  set (s3 := key_down (toupper "s"%char) s2).
  apply (reachable_step tanh pow s3 (KeyUpScan "s"%char) engine_AS); [|reflexivity].
  apply (reachable_step tanh pow s2 (KeyDown "s"%char) s3); [|reflexivity].
  apply (reachable_step tanh pow s1 (KeyUpScan "a"%char) s2); [|reflexivity].
  apply (reachable_step tanh pow Engine_init (KeyDown "a"%char) s1); [|reflexivity].
  apply reachable_init.
Qed.

(** In every reachable state the registry is keyed by the notes of the
    key table: an entry's key is its voice's [note] and lies between 48 and
    74, its [phase] has never been written, and since the 25 keys of the
    table name 23 notes the registry never holds more than 23 voices. *)
Theorem registry_keyed_by_table_notes tanh pow (st : Engine) :
  reachable tanh pow st ->
  (forall k v, voices st !! k = Some v ->
     note v = k /\ 48 <= k <= 74 /\ (exists c, keyNoteMap !! c = Some k) /\
     phase v = F64.zero) /\
  (size (voices st) <= 23)%nat.
Proof.
  intros Hr. pose proof (reachable_registry tanh pow st Hr) as Hinv. split.
  - intros k v Hk. destruct (Hinv k v Hk) as (Hn & Ht & Hp & _).
    split; [exact Hn|]. split; [exact (table_notes_range k Ht)|]. split; [|exact Hp].
    unfold table_notes in Ht. rewrite elem_of_list_to_set, list_elem_of_fmap in Ht.
    destruct Ht as ([c n] & -> & Hc). exists c. apply elem_of_map_to_list in Hc. exact Hc.
  - rewrite <- size_dom, <- table_notes_size. apply subseteq_size.
    intros k Hk. apply elem_of_dom in Hk as [v Hv]. apply (Hinv k v Hv).
Qed.

Lemma registry_keyed_by_table_notes_witness :
  (forall k v, voices engine_AS !! k = Some v ->
     note v = k /\ 48 <= k <= 74 /\ (exists c, keyNoteMap !! c = Some k) /\
     phase v = F64.zero) /\
  (size (voices engine_AS) <= 23)%nat.
Proof.
  exact (registry_keyed_by_table_notes tanh_sat pow_unit engine_AS
           (engine_AS_reachable tanh_sat pow_unit)).
Defined.

(** In every reachable state a voice in SUSTAIN has its envelope at
    exactly [SUSTAIN_LEVEL], and a voice in DECAY has it strictly above
    [SUSTAIN_LEVEL] and not above [1.0f]. *)
Theorem sustain_and_decay_levels tanh pow (st : Engine) (k : Z) (v : Voice) :
  reachable tanh pow st -> voices st !! k = Some v ->
  (stage v = SUSTAIN -> envelope v = SUSTAIN_LEVEL) /\
  (stage v = DECAY ->
     F32.leb (envelope v) SUSTAIN_LEVEL = false /\
     F32.leb SUSTAIN_LEVEL (envelope v) = true /\
     F32.leb (envelope v) F32.one = true).
Proof.
  intros Hr Hk.
  destruct (reachable_registry tanh pow st Hr k v Hk) as (_ & _ & _ & _ & Hs & Hd).
  destruct (reachable_inv tanh pow st Hr) as (Hv & _).
  destruct (Hv k v Hk) as (Hrange & Hlow & _).
  split; [exact Hs|]. intros Hdec. split; [exact (Hd Hdec)|]. split.
  - rewrite (F32_leb_nonneg _ _ sustain_nonneg (proj1 Hrange)). apply Z.leb_le. exact (Hlow Hdec).
  - apply env_range_leb. exact Hrange.
Qed.

(** * The keyboard listener on a whole input *)

Lemma toupper_ESC c : toupper c = ESC <-> c = ESC.
Proof.
  destruct c as [[] [] [] [] [] [] [] []]; vm_compute; split; intros H;
    first [reflexivity | discriminate H].
Qed.

Lemma toupper_idem c : toupper (toupper c) = toupper c.
Proof. destruct c as [[] [] [] [] [] [] [] []]; reflexivity. Qed.

Lemma running_key_up_scan c st : running (key_up_scan c st) = running st.
Proof. reflexivity. Qed.

Lemma running_key_down c st :
  running (key_down c st) = if bool_decide (c = ESC) then false else running st.
Proof.
  unfold key_down. destruct (bool_decide (c = ESC)); [reflexivity|].
  destruct (keyNoteMap !! c); reflexivity.
Qed.

Lemma running_listener_iteration c st :
  running (listener_iteration c st) = if bool_decide (c = ESC) then false else running st.
Proof.
  unfold listener_iteration. cbn zeta. rewrite running_key_up_scan, running_key_down.
  destruct (decide (c = ESC)) as [-> | Hne].
  - reflexivity.
  - rewrite (bool_decide_eq_false_2 (c = ESC) Hne).
    rewrite bool_decide_eq_false_2; [reflexivity|]. rewrite toupper_ESC. exact Hne.
Qed.

Lemma keyboardListener_stopped input st :
  running st = false -> keyboardListener input st = st.
Proof. intros H. destruct input; cbn; [|rewrite H]; reflexivity. Qed.

Lemma keyboardListener_app pre rest st :
  keyboardListener (pre ++ rest) st = keyboardListener rest (keyboardListener pre st)
  \/ running (keyboardListener pre st) = false.
Proof.
  revert st. induction pre as [ | c pre IH]; intros st; [left; reflexivity|].
  cbn [app keyboardListener]. destruct (running st) eqn:Er; [apply IH | right; exact Er].
Qed.

Lemma listener_stops_only_on_ESC_aux (input : list ascii) (st : Engine) :
  running st = true ->
  running (keyboardListener input st) = false -> ESC ∈ input.
Proof.
  revert st. induction input as [ | c input IH]; intros st Hrun.
  - cbn. congruence.
  - cbn [keyboardListener]. rewrite Hrun, elem_of_cons.
    pose proof (running_listener_iteration c st) as Hit.
    destruct (decide (c = ESC)) as [-> | Hne]; [left; reflexivity|].
    rewrite (bool_decide_eq_false_2 _ Hne), Hrun in Hit.
    intros H. right. exact (IH _ Hit H).
Qed.

(** The listener leaves its loop only on ESC: on an input without the
    character 27 the [running] flag is still set at the end (an end of
    input, which [getchar] reports as a character that is no key, does not
    end the loop), and with one it is cleared. *)
Theorem listener_stops_only_on_ESC (input : list ascii) (st : Engine) :
  running st = true ->
  (running (keyboardListener input st) = false <-> ESC ∈ input).
Proof.
  revert st. induction input as [ | c input IH]; intros st Hrun.
  - cbn. rewrite Hrun. split; [discriminate | intros H; inversion H].
  - cbn [keyboardListener]. rewrite Hrun, elem_of_cons.
    pose proof (running_listener_iteration c st) as Hit.
    destruct (decide (c = ESC)) as [-> | Hne].
    + rewrite bool_decide_eq_true_2 in Hit by reflexivity.
      rewrite (keyboardListener_stopped input _ Hit). split; [left; reflexivity | intros _; exact Hit].
    + rewrite (bool_decide_eq_false_2 _ Hne), Hrun in Hit.
      rewrite (IH _ Hit). split; [right; assumption | intros [H | H]; [congruence | exact H]].
Qed.

Lemma listener_stops_only_on_ESC_witness :
  running (keyboardListener ["a"; "s"; " "]%char Engine_init) = false <->
  ESC ∈ ["a"; "s"; " "]%char.
Proof.
  exact (listener_stops_only_on_ESC ["a"; "s"; " "]%char Engine_init eq_refl).
Defined.

Lemma listener_iteration_ESC_voices st k :
  voices (listener_iteration ESC st) !! k = release_voice ESC <$> voices st !! k.
Proof. unfold listener_iteration. cbn zeta. rewrite key_up_scan_lookup. reflexivity. Qed.

(** ESC ends the listener: what follows it in the input is not read, the
    [running] flag is cleared, and the key-up scan of that last iteration
    sends every held voice to RELEASE, leaving every voice with its
    [keyDown] flag cleared and its envelope as it was. *)
Theorem ESC_ends_listener (pre rest : list ascii) (st : Engine) :
  running st = true -> ESC ∉ pre ->
  let before := keyboardListener pre st in
  let final := keyboardListener (pre ++ ESC :: rest) st in
  final = listener_iteration ESC before /\
  running final = false /\
  forall k, match voices before !! k with
            | Some v => exists w, voices final !! k = Some w /\
                          keyDown w = false /\ envelope w = envelope v /\
                          if keyDown v then stage w = RELEASE else w = v
            | None => voices final !! k = None
            end.
Proof.
  intros Hrun Hpre before final.
  assert (Hb : running before = true).
  { destruct (running before) eqn:E; [reflexivity|].
    apply (listener_stops_only_on_ESC_aux pre st Hrun) in E. contradiction. }
  assert (Hf : final = listener_iteration ESC before).
  { unfold final. destruct (keyboardListener_app pre (ESC :: rest) st) as [-> | E].
    - fold before. cbn [keyboardListener]. rewrite Hb. apply keyboardListener_stopped.
      rewrite running_listener_iteration. reflexivity.
    - fold before in E. congruence. }
  split; [exact Hf|]. split.
  - rewrite Hf, running_listener_iteration. reflexivity.
  - intros k. rewrite Hf, listener_iteration_ESC_voices.
    destruct (voices before !! k) as [v|]; [|reflexivity].
    cbn. exists (release_voice ESC v). split; [reflexivity|].
    unfold release_voice. replace (is_key ESC) with false by reflexivity.
    rewrite andb_true_r. destruct (keyDown v) eqn:Ed; cbn; auto.
Qed.

Lemma ESC_ends_listener_witness :
  let before := keyboardListener ["a"; "s"]%char Engine_init in
  let final := keyboardListener (["a"; "s"]%char ++ ESC :: ["d"]%char) Engine_init in
  final = listener_iteration ESC before /\
  running final = false /\
  forall k, match voices before !! k with
            | Some v => exists w, voices final !! k = Some w /\
                          keyDown w = false /\ envelope w = envelope v /\
                          if keyDown v then stage w = RELEASE else w = v
            | None => voices final !! k = None
            end.
Proof.
  apply (ESC_ends_listener ["a"; "s"]%char ["d"]%char Engine_init); [reflexivity|].
  rewrite !elem_of_cons, elem_of_nil. intros [H | [H | []]]; discriminate H.
Defined.

(** The listener folds its input to upper case before anything else, so
    an input and its upper-case form drive it to the same state: each
    letter key works in either case. *)
Theorem listener_ignores_case (input : list ascii) (st : Engine) :
  keyboardListener (toupper <$> input) st = keyboardListener input st.
Proof.
  revert st. induction input as [ | c input IH]; intros st; [reflexivity|].
  cbn [fmap list_fmap keyboardListener]. destruct (running st); [|reflexivity].
  change (list_fmap ascii ascii toupper input) with (toupper <$> input).
  rewrite IH. unfold listener_iteration. cbn zeta. rewrite toupper_idem. reflexivity.
Qed.

Lemma key_down_keeps c st :
  reverbDelayBuffer (key_down c st) = reverbDelayBuffer st /\
  reverbIndex (key_down c st) = reverbIndex st /\
  reverbFeedback (key_down c st) = reverbFeedback st /\
  forall k,
    match voices (key_down c st) !! k with
    | Some w => envelope w = envelope (default Voice_default (voices st !! k)) /\
                phase w = phase (default Voice_default (voices st !! k))
    | None => voices st !! k = None
    end.
Proof.
  unfold key_down. destruct (bool_decide (c = ESC)).
  - cbn. repeat split. intros k. destruct (voices st !! k); auto.
  - destruct (keyNoteMap !! c) as [n|].
    + cbn. repeat split. intros k. destruct (decide (k = n)) as [-> | Hne].
      * rewrite lookup_insert_eq. cbn. auto.
      * rewrite lookup_insert_ne by congruence. destruct (voices st !! k); auto.
    + repeat split. intros k. destruct (voices st !! k); auto.
Qed.

Lemma listener_iteration_keeps c st :
  reverbDelayBuffer (listener_iteration c st) = reverbDelayBuffer st /\
  reverbIndex (listener_iteration c st) = reverbIndex st /\
  reverbFeedback (listener_iteration c st) = reverbFeedback st /\
  forall k,
    match voices (listener_iteration c st) !! k with
    | Some w => envelope w = envelope (default Voice_default (voices st !! k)) /\
                phase w = phase (default Voice_default (voices st !! k))
    | None => voices st !! k = None
    end.
Proof.
  unfold listener_iteration. cbn zeta.
  destruct (key_down_keeps (toupper c) st) as (Hb & Hi & Hf & Hv).
  split; [exact Hb|]. split; [exact Hi|]. split; [exact Hf|].
  intros k. rewrite key_up_scan_lookup. specialize (Hv k).
  destruct (voices (key_down (toupper c) st) !! k) as [w|]; [|exact Hv].
  cbn. unfold release_voice. destruct (keyDown w && negb (is_key (toupper c))); exact Hv.
Qed.

(** The listener owns no audio state: whatever it reads, it leaves the
    delay line, its cursor and the feedback coefficient alone, erases no
    voice, and never writes an envelope or a phase: a voice that was there
    keeps its values, a voice it creates starts from [0.0]. *)
Theorem listener_keeps_audio_state (input : list ascii) (st : Engine) :
  let st' := keyboardListener input st in
  reverbDelayBuffer st' = reverbDelayBuffer st /\
  reverbIndex st' = reverbIndex st /\
  reverbFeedback st' = reverbFeedback st /\
  forall k,
    match voices st' !! k with
    | Some w =>
        match voices st !! k with
        | Some v => envelope w = envelope v /\ phase w = phase v
        | None => envelope w = F32.zero /\ phase w = F64.zero
        end
    | None => voices st !! k = None
    end.
Proof.
  cbn zeta. revert st. induction input as [ | c input IH]; intros st.
  - cbn. repeat split. intros k. destruct (voices st !! k); auto.
  - cbn [keyboardListener]. destruct (running st).
    + destruct (IH (listener_iteration c st)) as (Hb & Hi & Hf & Hv).
      destruct (listener_iteration_keeps c st) as (Hb1 & Hi1 & Hf1 & Hv1).
      split; [congruence|]. split; [congruence|]. split; [congruence|].
      intros k. specialize (Hv k). specialize (Hv1 k).
      destruct (voices (keyboardListener input (listener_iteration c st)) !! k) as [w|].
      * destruct (voices (listener_iteration c st) !! k) as [u|].
        -- destruct Hv as [He Hp]. destruct Hv1 as [He1 Hp1].
           destruct (voices st !! k) as [v|]; cbn in He1, Hp1; split; congruence.
        -- rewrite Hv1. exact Hv.
      * destruct (voices (listener_iteration c st) !! k) as [u|]; [discriminate|exact Hv1].
    + repeat split. intros k. destruct (voices st !! k); auto.
Qed.

(** * Conversions between [float] and [double] *)

(** A value on the grid of its own binade is rounded to itself. *)
Lemma rounded_on_grid prec emax K M ex m e :
  0 < prec -> - K <= emin prec emax -> - K <= ex ->
  rounded prec emax K M ex m e ->
  (2 ^ (fexp prec emax (Zdig M + ex) + K) | Fval K M ex) ->
  Fval K m e = Fval K M ex.
Proof.
  intros Hp HK Hex (_ & _ & [H | [H _]]) Hd; [exact H | contradiction].
Qed.

(** Widening a binary32 number: the same value, renormalised. *)
Lemma of_float_finite s m e :
  bounded F32.prec F32.emax m e = true ->
  exists M ex,
    F64.of_float (S754_finite s m e) = S754_finite s M ex /\
    bounded F64.prec F64.emax M ex = true /\
    Fval scale M ex = Fval scale m e.
Proof.
  intros B. pose proof (bounded32_scale m e B) as Sz.
  pose proof B as B'. apply bounded_inv in B' as [Cm Em].
  pose proof (canonical_inv _ _ m e Cm) as (He & Hfe & Hdig & _).
  pose proof (Fval_pos scale m e Sz) as Pm.
  pose proof (Fval_digits scale m e Sz) as [_ Hhi].
  unfold F64.of_float.
  destruct (binary_round_spec _ _ scale F64_prec_pos F64_scale s m e Sz)
    as [[_ Hsmall] | (M & ex & Hr & ->)].
  - pose proof (not_small_of_ge _ _ scale F64_prec_pos F64_scale m e 1 (-1074) Sz eq_refl) as Hn.
    assert (Fval scale 1 (-1074) <= Fval scale m e) by (change (Fval scale 1 (-1074)) with 1; lia).
    specialize (Hn H). lia.
  - assert (Hd : (2 ^ (fexp F64.prec F64.emax (Zdig m + e) + scale) | Fval scale m e)).
    { unfold Fval. apply Z.divide_mul_r.
      assert (Hle : fexp F64.prec F64.emax (Zdig m + e) <= e).
      { unfold fexp, emin, F64.prec, F64.emax, F32.prec, F32.emax, scale in *. lia. }
      pose proof (fexp_ge_emin F64.prec F64.emax (Zdig m + e)) as Hge.
      pose proof F64_scale as HS.
      exists (2 ^ (e - fexp F64.prec F64.emax (Zdig m + e))).
      rewrite <- Z.pow_add_r by lia. f_equal. lia. }
    pose proof (rounded_on_grid _ _ scale m e M ex F64_prec_pos F64_scale Sz Hr Hd) as Hv.
    assert (Bb : bounded F64.prec F64.emax 4503599627370496 76 = true) by reflexivity.
    assert (Hle : Fval scale m e <= Fval scale 4503599627370496 76).
    { change (Fval scale 4503599627370496 76) with (2 ^ (128 + scale)).
      assert (2 ^ (Zdig m + e + scale) <= 2 ^ (128 + scale)).
      { apply pow2_le. pose proof (Zdig_pos m). unfold F32.prec, F32.emax, scale in *. lia. }
      lia. }
    pose proof (rounded_le_bounded _ _ scale F64_prec_pos F64_scale m e M ex _ _ Sz Hr Bb Hle) as BM.
    exists M, ex. split; [|split; [exact BM | exact Hv]].
    unfold pack. apply bounded_inv in BM as [_ EM].
    destruct (Z.leb_spec ex (F64.emax - F64.prec)); [reflexivity | lia].
Qed.

(** Narrowing a [double] that holds a binary32 value gives that value
    back. *)
Lemma to_float_exact s M ex m e :
  - scale <= ex ->
  bounded F32.prec F32.emax m e = true ->
  Fval scale M ex = Fval scale m e ->
  F64.to_float (S754_finite s M ex) = S754_finite s m e.
Proof.
  intros Sz B Hv. pose proof (bounded32_scale m e B) as Sm.
  pose proof B as B'. apply bounded_inv in B' as [Cm Em].
  pose proof (canonical_inv _ _ m e Cm) as (He & Hfe & Hdig & _).
  unfold F64.to_float.
  destruct (binary_round_spec _ _ scale F32_prec_pos F32_scale s M ex Sz)
    as [[_ Hsmall] | (m' & e' & Hr & ->)].
  - pose proof (not_small_of_ge _ _ scale F32_prec_pos F32_scale M ex m e Sz Cm ltac:(lia)). lia.
  - assert (Hdg : Zdig M + ex = Zdig m + e).
    { pose proof (Fval_le_digits scale M ex m e Sz Sm ltac:(lia)).
      pose proof (Fval_le_digits scale m e M ex Sm Sz ltac:(lia)). lia. }
    assert (Hd : (2 ^ (fexp F32.prec F32.emax (Zdig M + ex) + scale) | Fval scale M ex)).
    { rewrite Hdg, Hfe, Hv. unfold Fval. apply Z.divide_factor_r. }
    pose proof (rounded_on_grid _ _ scale M ex m' e' F32_prec_pos F32_scale Sz Hr Hd) as Hv'.
    destruct Hr as (Cm' & _).
    destruct (canonical_unique _ _ scale F32_prec_pos F32_scale m' e' m e Cm' Cm ltac:(lia)) as [-> ->].
    unfold pack. destruct (Z.leb_spec e (F32.emax - F32.prec)); [reflexivity | lia].
Qed.

(** Widening and narrowing back is the identity on binary32. *)
Lemma to_float_of_float x : F32.valid x = true -> F64.to_float (F64.of_float x) = x.
Proof.
  intros Hv. destruct x as [s | s | | s m e]; try reflexivity.
  cbn [F32.valid valid_binary] in Hv.
  destruct (of_float_finite s m e Hv) as (M & ex & -> & BM & HV).
  apply to_float_exact; [exact (bounded64_scale M ex BM) | exact Hv | exact HV].
Qed.

(** * The delay line over many frames *)

Section Line.
Variable tanh : double -> double.
Variable pow : double -> double -> double.

Lemma reachable_line st : reachable tanh pow st -> line_ok st.
Proof. intros H. apply reachable_inv in H as (_ & Hl & Hi). split; assumption. Qed.

Lemma audio_frame_line st :
  line_ok st ->
  exists st1 l,
    audio_frame tanh pow st = Some (st1, (l, l)) /\ line_ok st1 /\
    reverbIndex st1 = (reverbIndex st + 1) mod DELAY_SIZE /\
    reverbDelayBuffer st1 = <[Z.to_nat (reverbIndex st) := l]> (reverbDelayBuffer st).
Proof.
  intros [Hlen Hidx].
  destruct (audio_frame_defined tanh pow st) as (st1 & l & Hf).
  { rewrite Hlen, Z2Nat.id by (rewrite DELAY_SIZE_val; lia). exact Hidx. }
  exists st1, l. split; [exact Hf|].
  apply audio_frame_inv in Hf as (stored & _ & _ & _ & _ & _ & Hb & Hi & _).
  assert (Hi' : reverbIndex st1 = (reverbIndex st + 1) mod DELAY_SIZE).
  { rewrite Hi. apply Z.rem_mod_nonneg; rewrite ?DELAY_SIZE_val; lia. }
  split; [|split; [exact Hi' | exact Hb]].
  split.
  - rewrite Hb, length_insert. exact Hlen.
  - rewrite Hi'. apply Z.mod_pos_bound. rewrite DELAY_SIZE_val. lia.
Qed.

Lemma cell_after_0 st : line_ok st -> cell_after st 0 = Z.to_nat (reverbIndex st).
Proof.
  intros [_ Hi]. unfold cell_after. rewrite Z.add_0_r, Z.mod_small by exact Hi. reflexivity.
Qed.

Lemma cell_after_S st st1 j :
  reverbIndex st1 = (reverbIndex st + 1) mod DELAY_SIZE ->
  cell_after st1 j = cell_after st (S j).
Proof.
  intros H. unfold cell_after. rewrite H. f_equal.
  rewrite Zplus_mod_idemp_l. f_equal. lia.
Qed.

Lemma cell_after_lt st j : (cell_after st j < Z.to_nat DELAY_SIZE)%nat.
Proof.
  unfold cell_after.
  pose proof (Z.mod_pos_bound (reverbIndex st + Z.of_nat j) DELAY_SIZE) as H.
  rewrite DELAY_SIZE_val in *. lia.
Qed.

(** Within one turn of the ring the cursor does not come back. *)
Lemma cell_after_inj st i j :
  (i < j)%nat -> (j < i + Z.to_nat DELAY_SIZE)%nat -> cell_after st i <> cell_after st j.
Proof.
  unfold cell_after. rewrite DELAY_SIZE_val. intros Hij Hj E.
  pose proof (Z.mod_pos_bound (reverbIndex st + Z.of_nat i) 88200 ltac:(lia)).
  pose proof (Z.mod_pos_bound (reverbIndex st + Z.of_nat j) 88200 ltac:(lia)).
  apply Z2Nat.inj in E; [|lia|lia].
  pose proof (Z.div_mod (reverbIndex st + Z.of_nat i) 88200 ltac:(lia)).
  pose proof (Z.div_mod (reverbIndex st + Z.of_nat j) 88200 ltac:(lia)).
  lia.
Qed.

(** [n] frames from a state whose delay line is in order: the callback
    runs to its end, the cursor has moved [n] cells round the ring, the
    cells it passed in the last turn hold the outputs written there, and
    the other cells are as before. *)
Lemma audioCallback_line n : forall st,
  line_ok st ->
  exists st' out,
    audioCallback tanh pow n st = Some (st', out) /\ line_ok st' /\
    length out = (2 * n)%nat /\
    reverbIndex st' = (reverbIndex st + Z.of_nat n) mod DELAY_SIZE /\
    (forall j, (j < n)%nat -> (n <= j + Z.to_nat DELAY_SIZE)%nat ->
       reverbDelayBuffer st' !! cell_after st j = out !! (2 * j)%nat) /\
    (forall p, (forall j, (j < n)%nat -> p <> cell_after st j) ->
       reverbDelayBuffer st' !! p = reverbDelayBuffer st !! p).
Proof.
  induction n as [ | n IH]; intros st Hok.
  - exists st, []. split; [reflexivity|]. split; [exact Hok|]. split; [reflexivity|].
    split; [|split; [intros j Hj; lia | reflexivity]].
    destruct Hok as [_ Hi]. rewrite Z.add_0_r, Z.mod_small by exact Hi. reflexivity.
  - destruct (audio_frame_line st Hok) as (st1 & l & Hf & Hok1 & Hi1 & Hb1).
    destruct (IH st1 Hok1) as (st' & out & Hrun & Hok' & Hlen & Hi' & Hwin & Hrest).
    exists st', (l :: l :: out). cbn [audioCallback]. rewrite Hf, Hrun.
    split; [reflexivity|]. split; [exact Hok'|]. split; [cbn [length]; lia|]. split.
    { rewrite Hi', Hi1, Zplus_mod_idemp_l. f_equal. lia. }
    split.
    + intros [ | j] Hj Hn.
      * cbn [Nat.mul lookup list_lookup]. rewrite Hrest.
        -- rewrite Hb1, (cell_after_0 st Hok). apply list_lookup_insert_eq.
           destruct Hok as [Hl Hidx]. rewrite Hl. rewrite DELAY_SIZE_val in *. lia.
        -- intros j Hj'. rewrite (cell_after_S st st1 j Hi1).
           apply cell_after_inj; lia.
      * replace (2 * S j)%nat with (S (S (2 * j))) by lia. cbn [lookup list_lookup].
        rewrite <- (cell_after_S st st1 j Hi1). apply Hwin; lia.
    + intros p Hp. rewrite Hrest.
      * rewrite Hb1. apply list_lookup_insert_ne.
        rewrite <- (cell_after_0 st Hok). intros E. apply (Hp 0%nat); [lia | congruence].
      * intros j Hj. rewrite (cell_after_S st st1 j Hi1). apply Hp. lia.
Qed.

(** Running [n + m] frames is running [n] and then [m]. *)
Lemma audioCallback_add n m : forall st,
  audioCallback tanh pow (n + m) st =
  match audioCallback tanh pow n st with
  | Some (st1, out1) =>
      match audioCallback tanh pow m st1 with
      | Some (st2, out2) => Some (st2, out1 ++ out2)
      | None => None
      end
  | None => None
  end.
Proof.
  induction n as [ | n IH]; intros st.
  - cbn. destruct (audioCallback tanh pow m st) as [[st2 out2]|]; reflexivity.
  - cbn [Nat.add audioCallback]. destruct (audio_frame tanh pow st) as [[st1 [l r]]|]; [|reflexivity].
    rewrite IH. destruct (audioCallback tanh pow n st1) as [[st2 out1]|]; [|reflexivity].
    destruct (audioCallback tanh pow m st2) as [[st3 out2]|]; reflexivity.
Qed.
End Line.

(** The audio produced does not depend on how the host cuts the stream
    into buffers: successive calls of the callback with any buffer sizes
    leave the same state and write the same samples as one call for the
    total number of frames. *)
Theorem stream_independent_of_buffer_sizes tanh pow (sizes : list nat) (st : Engine) :
  audio_stream tanh pow sizes st = audioCallback tanh pow (foldr Nat.add 0%nat sizes) st.
Proof.
  revert st. induction sizes as [ | n sizes IH]; intros st; [reflexivity|].
  cbn [audio_stream foldr]. rewrite audioCallback_add.
  destruct (audioCallback tanh pow n st) as [[st1 out1]|]; [|reflexivity].
  rewrite IH. reflexivity.
Qed.

(** The delay line is a ring holding the last outputs: after [n] frames
    from a reachable state the cursor has advanced by [n] modulo
    [DELAY_SIZE], each cell passed during the last [DELAY_SIZE] frames holds
    the sample that was output when the cursor was there, and every other
    cell is as it was. *)
Theorem delay_line_holds_last_outputs tanh pow (n : nat) (st : Engine) :
  reachable tanh pow st ->
  exists st' out,
    audioCallback tanh pow n st = Some (st', out) /\
    reverbIndex st' = (reverbIndex st + Z.of_nat n) mod DELAY_SIZE /\
    (forall j, (j < n)%nat -> (n <= j + Z.to_nat DELAY_SIZE)%nat ->
       reverbDelayBuffer st' !! cell_after st j = out !! (2 * j)%nat) /\
    (forall p, (forall j, (j < n)%nat -> p <> cell_after st j) ->
       reverbDelayBuffer st' !! p = reverbDelayBuffer st !! p).
Proof.
  intros Hr.
  destruct (audioCallback_line tanh pow n st (reachable_line tanh pow st Hr))
    as (st' & out & Hrun & _ & _ & Hi & Hwin & Hrest).
  exists st', out. auto.
Qed.

Lemma delay_line_holds_last_outputs_witness :
  exists st' out,
    audioCallback tanh_sat pow_unit 3 engine_A = Some (st', out) /\
    reverbIndex st' = (reverbIndex engine_A + Z.of_nat 3) mod DELAY_SIZE /\
    (forall j, (j < 3)%nat -> (3 <= j + Z.to_nat DELAY_SIZE)%nat ->
       reverbDelayBuffer st' !! cell_after engine_A j = out !! (2 * j)%nat) /\
    (forall p, (forall j, (j < 3)%nat -> p <> cell_after engine_A j) ->
       reverbDelayBuffer st' !! p = reverbDelayBuffer engine_A !! p).
Proof.
  exact (delay_line_holds_last_outputs tanh_sat pow_unit 3 engine_A
           (engine_A_reachable tanh_sat pow_unit)).
Defined.

(** The echo: the frame that comes [DELAY_SIZE] frames (two seconds)
    after frame [m] outputs its own dry mix plus the output of frame [m]
    times the feedback coefficient. *)
Theorem echo_after_delay tanh pow (m : nat) (st : Engine) :
  reachable tanh pow st ->
  exists st1 before st2 now echo,
    audioCallback tanh pow (Z.to_nat DELAY_SIZE + m) st = Some (st1, before) /\
    audioCallback tanh pow (Z.to_nat DELAY_SIZE + m + 1) st = Some (st2, before ++ [now; now]) /\
    before !! (2 * m)%nat = Some echo /\
    now = F64.to_float (F64.add (dry_mix tanh pow st1)
                                (F64.of_float (F32.mul echo (reverbFeedback st1)))).
Proof.
  intros Hr. pose proof (reachable_line tanh pow st Hr) as Hok.
  destruct (audioCallback_line tanh pow (Z.to_nat DELAY_SIZE + m) st Hok)
    as (st1 & before & Hrun & Hok1 & _ & Hi & Hwin & _).
  destruct (audio_frame_line tanh pow st1 Hok1) as (st2 & now & Hf & _).
  pose proof Hf as Hf'. apply audio_frame_inv in Hf' as (stored & _ & Hs & Hnow & _).
  exists st1, before, st2, now, stored. split; [exact Hrun|]. split.
  - rewrite audioCallback_add, Hrun. cbn [audioCallback]. rewrite Hf. reflexivity.
  - split; [|exact Hnow].
    assert (HD : (0 < Z.to_nat DELAY_SIZE)%nat) by (rewrite DELAY_SIZE_val; lia).
    rewrite <- Hwin by lia. rewrite <- Hs. f_equal.
    unfold cell_after. rewrite Hi. f_equal.
    rewrite Nat2Z.inj_add, Z2Nat.id by (rewrite DELAY_SIZE_val; lia).
    replace (reverbIndex st + (DELAY_SIZE + Z.of_nat m))
      with (reverbIndex st + Z.of_nat m + 1 * DELAY_SIZE) by lia.
    symmetry. apply Z.mod_add. rewrite DELAY_SIZE_val. lia.
Qed.

Lemma echo_after_delay_witness :
  exists st1 before st2 now echo,
    audioCallback tanh_sat pow_unit (Z.to_nat DELAY_SIZE + 0) engine_A = Some (st1, before) /\
    audioCallback tanh_sat pow_unit (Z.to_nat DELAY_SIZE + 0 + 1) engine_A
      = Some (st2, before ++ [now; now]) /\
    before !! (2 * 0)%nat = Some echo /\
    now = F64.to_float (F64.add (dry_mix tanh_sat pow_unit st1)
                                (F64.of_float (F32.mul echo (reverbFeedback st1)))).
Proof.
  exact (echo_after_delay tanh_sat pow_unit 0 engine_A (engine_A_reachable tanh_sat pow_unit)).
Defined.

Section Silence.
Variable tanh : double -> double.
Variable pow : double -> double -> double.

Lemma contributions_all_off st : all_off st -> contributions tanh pow (voices st) = [].
Proof.
  intros Hoff. unfold contributions.
  assert (H : forall l : list (Z * Voice),
             (forall entry, entry ∈ l -> stage entry.2 = OFF) ->
             omap (fun entry : Z * Voice => snd (process_voice tanh pow entry.2)) l = []).
  { induction l as [ | entry l IH]; intros Hl; [reflexivity|].
    cbn [omap list_omap]. rewrite (process_voice_off tanh pow _ (Hl entry ltac:(left))).
    cbn [snd]. apply IH. intros e He. apply Hl. right. exact He. }
  apply H. intros [k v] He. apply elem_of_map_to_list in He. exact (Hoff k v He).
Qed.

Lemma dry_mix_all_off st : all_off st -> dry_mix tanh pow st = F64.zero.
Proof. intros Hoff. rewrite dry_mix_spec, (contributions_all_off st Hoff). reflexivity. Qed.

Lemma voices_all_off st :
  all_off st -> (fun v => fst (process_voice tanh pow v)) <$> voices st = voices st.
Proof.
  intros Hoff. apply map_eq. intros k. rewrite lookup_fmap.
  destruct (voices st !! k) as [v|] eqn:Ev; [|reflexivity].
  cbn. rewrite (process_voice_off tanh pow v (Hoff k v Ev)). reflexivity.
Qed.

Lemma elem_of_insert_cell (l : list float) i x y :
  y ∈ <[i := x]> l -> y = x \/ y ∈ l.
Proof.
  intros H. apply list_elem_of_lookup_1 in H as [j Hj].
  destruct (decide (i = j)) as [-> | Hne].
  - destruct (decide (j < length l)%nat) as [Hlt | Hge].
    + rewrite list_lookup_insert_eq in Hj by exact Hlt. left. congruence.
    + rewrite list_insert_ge in Hj by lia. right. exact (list_elem_of_lookup_2 _ _ _ Hj).
  - rewrite list_lookup_insert_ne in Hj by exact Hne. right. exact (list_elem_of_lookup_2 _ _ _ Hj).
Qed.

Lemma audio_frame_silent st :
  line_ok st -> all_off st -> line_silent st -> is_finite (reverbFeedback st) = true ->
  exists st1,
    audio_frame tanh pow st = Some (st1, (F32.zero, F32.zero)) /\
    line_ok st1 /\ all_off st1 /\ line_silent st1 /\
    is_finite (reverbFeedback st1) = true /\ voices st1 = voices st.
Proof.
  intros Hok Hoff Hsil Hfb.
  destruct (audio_frame_line tanh pow st Hok) as (st1 & l & Hf & Hok1 & _ & Hb).
  pose proof Hf as Hf'.
  apply audio_frame_inv in Hf' as (stored & _ & Hs & Hl & _ & Hv & _ & _ & Hfb1 & _).
  rewrite (dry_mix_all_off st Hoff) in Hl. rewrite (voices_all_off st Hoff) in Hv.
  assert (Hz : l = F32.zero).
  { pose proof (Hsil stored (list_elem_of_lookup_2 _ _ _ Hs)) as Hz.
    rewrite Hl. destruct stored as [ss | | | ]; try discriminate Hz.
    destruct (reverbFeedback st) as [sf | | | sf mf ef]; try discriminate Hfb;
      destruct ss, sf; reflexivity. }
  clear Hl. subst l. exists st1. split; [exact Hf|]. split; [exact Hok1|]. split.
  - intros k v. rewrite Hv. apply Hoff.
  - split; [|split; [congruence | exact Hv]].
    intros x Hx. rewrite Hb in Hx. apply elem_of_insert_cell in Hx as [-> | Hx]; [reflexivity|].
    exact (Hsil x Hx).
Qed.

Lemma line_valid_init : line_valid Engine_init.
Proof.
  split; [|reflexivity]. intros x Hx. cbn in Hx. apply elem_of_replicate in Hx as [-> _].
  reflexivity.
Qed.

Lemma to_float_valid x : F32.valid (F64.to_float x) = true.
Proof.
  destruct x as [s | s | | s m e]; try reflexivity.
  apply (binary_round_valid _ _ F32_prec_pos).
Qed.

Lemma line_valid_step st ev st' :
  line_valid st -> step tanh pow st ev = Some st' -> line_valid st'.
Proof.
  intros [Hc Hfb] Hstep. destruct ev as [ | c | c]; cbn [step] in Hstep.
  - destruct (audio_frame tanh pow st) as [[st1 [l r]]|] eqn:E; [|discriminate].
    cbn in Hstep. injection Hstep as ->.
    apply audio_frame_inv in E as (stored & _ & _ & Hl & _ & _ & Hb & _ & Hf & _).
    split; [|congruence]. intros x Hx. rewrite Hb in Hx.
    apply elem_of_insert_cell in Hx as [-> | Hx]; [|exact (Hc x Hx)].
    rewrite Hl. apply to_float_valid.
  - injection Hstep as <-. destruct (running st); [|split; assumption].
    destruct (key_down_keeps (toupper c) st) as (Hb & _ & Hf & _).
    unfold line_valid. rewrite Hb, Hf. split; assumption.
  - injection Hstep as <-. split; assumption.
Qed.

Lemma reachable_line_valid st : reachable tanh pow st -> line_valid st.
Proof.
  induction 1 as [ | st ev st' _ IH Hstep]; [exact line_valid_init|].
  exact (line_valid_step st ev st' IH Hstep).
Qed.
End Silence.

(** Silence stays silent: with every voice OFF, nothing but zeros in the
    delay line and a finite feedback coefficient, any number of frames
    outputs [0.0f] only and leaves the voices as they are.  This is the
    state the program starts in, until the first key. *)
Theorem silence_stays_silent tanh pow (n : nat) (st : Engine) :
  line_ok st -> all_off st -> line_silent st -> is_finite (reverbFeedback st) = true ->
  exists st',
    audioCallback tanh pow n st = Some (st', replicate (2 * n) F32.zero) /\
    voices st' = voices st /\ line_silent st'.
Proof.
  revert st. induction n as [ | n IH]; intros st Hok Hoff Hsil Hfb.
  - exists st. split; [reflexivity|]. split; [reflexivity | exact Hsil].
  - destruct (audio_frame_silent tanh pow st Hok Hoff Hsil Hfb)
      as (st1 & Hf & Hok1 & Hoff1 & Hsil1 & Hfb1 & Hv1).
    destruct (IH st1 Hok1 Hoff1 Hsil1 Hfb1) as (st' & Hrun & Hv & Hs).
    exists st'. cbn [audioCallback]. rewrite Hf, Hrun.
    split; [|split; [congruence | exact Hs]].
    replace (2 * S n)%nat with (S (S (2 * n))) by lia. reflexivity.
Qed.

Lemma silence_stays_silent_witness :
  exists st',
    audioCallback tanh_sat pow_unit 256 Engine_init = Some (st', replicate (2 * 256) F32.zero) /\
    voices st' = voices Engine_init /\ line_silent st'.
Proof.
  apply (silence_stays_silent tanh_sat pow_unit 256 Engine_init).
  - split; [apply length_replicate | vm_compute; split; [discriminate | reflexivity]].
  - intros k v H. cbn in H. rewrite lookup_empty in H. discriminate H.
  - intros x Hx. cbn in Hx. apply elem_of_replicate in Hx as [-> _]. reflexivity.
  - reflexivity.
Defined.

(** The reverb tail: in a reachable state with every voice OFF, a frame
    outputs the sample under the cursor times the feedback coefficient
    [REVERB_DECAY] (0.5), as a binary32 product and up to the sign of a
    zero: with no input each echo is half the one before. *)
Theorem reverb_tail_halves tanh pow (st : Engine) :
  reachable tanh pow st -> all_off st ->
  exists stored out st',
    reverbDelayBuffer st !! Z.to_nat (reverbIndex st) = Some stored /\
    audio_frame tanh pow st = Some (st', (out, out)) /\
    same_number out (F32.mul stored REVERB_DECAY).
Proof.
  intros Hr Hoff. pose proof (reachable_line tanh pow st Hr) as Hok.
  destruct (reachable_line_valid tanh pow st Hr) as [Hc Hfb].
  destruct (audio_frame_line tanh pow st Hok) as (st1 & l & Hf & _).
  pose proof Hf as Hf'. apply audio_frame_inv in Hf' as (stored & _ & Hs & Hl & _).
  exists stored, l, st1. split; [exact Hs|]. split; [exact Hf|].
  rewrite (dry_mix_all_off tanh pow st Hoff), Hfb in Hl. rewrite Hl.
  assert (Hv : F32.valid (F32.mul stored REVERB_DECAY) = true).
  { apply (SFmul_valid _ _ F32_prec_pos); [vm_compute; discriminate | | reflexivity].
    exact (Hc stored (list_elem_of_lookup_2 _ _ _ Hs)). }
  rewrite <- (to_float_of_float _ Hv) at 2.
  apply to_float_same. apply F64_add_zero_l.
Qed.

(** * The oscillator outside its normal range *)

Lemma saw_of_infinity s :
  F64.mul
    (F64.mul (F64.of_Z 2)
       (F64.sub (S754_infinity s)
          (F64.floor (F64.add (S754_infinity s) (F64.lit 5 10)))))
    (F64.of_Z 6) = S754_nan.
Proof. destruct s; vm_compute; reflexivity. Qed.

Lemma saw_of_nan :
  F64.mul
    (F64.mul (F64.of_Z 2)
       (F64.sub S754_nan (F64.floor (F64.add S754_nan (F64.lit 5 10)))))
    (F64.of_Z 6) = S754_nan.
Proof. vm_compute. reflexivity. Qed.

(** [getSaw] returns NaN exactly when the product [t * freq] is not
    finite (it has overflowed, or an operand was infinite or NaN), and a
    value of [[-1, 1]] otherwise; it never returns an infinity. *)
Theorem getSaw_nan_iff_overflow tanh (t freq : double) :
  tanh_contract tanh ->
  (getSaw tanh t freq = S754_nan <-> is_finite (F64.mul t freq) = false) /\
  (is_finite (F64.mul t freq) = true -> in_unit (getSaw tanh t freq)).
Proof.
  intros [Hnan Hc].
  assert (Hin : is_finite (F64.mul t freq) = true -> in_unit (getSaw tanh t freq)).
  { intros Hp. unfold getSaw.
    destruct (Hc _ (saw_argument_not_nan t freq Hp)) as (Hv & Hlo & Hhi).
    apply to_float_unit; assumption. }
  split; [|exact Hin]. split.
  - intros E. destruct (is_finite (F64.mul t freq)) eqn:Hp; [|reflexivity].
    destruct (Hin eq_refl) as [Hlo _]. rewrite E in Hlo. discriminate Hlo.
  - intros Hp. unfold getSaw.
    destruct (F64.mul t freq) as [s | s | | s m e]; try discriminate Hp.
    + rewrite saw_of_infinity, Hnan. reflexivity.
    + rewrite saw_of_nan, Hnan. reflexivity.
Qed.

Lemma getSaw_nan_iff_overflow_witness :
  (getSaw tanh_sat two_pow_600 two_pow_600 = S754_nan <->
   is_finite (F64.mul two_pow_600 two_pow_600) = false) /\
  (is_finite (F64.mul two_pow_600 two_pow_600) = true ->
   in_unit (getSaw tanh_sat two_pow_600 two_pow_600)).
Proof.
  exact (getSaw_nan_iff_overflow tanh_sat two_pow_600 two_pow_600 tanh_sat_contract).
Defined.

(** * The audio callback and the listener's state *)

Lemma envelope_switch_keeps v :
  let w := fst (envelope_switch v) in
  note w = note v /\ phase w = phase v /\ time w = time v /\ keyDown w = keyDown v.
Proof.
  unfold envelope_switch. destruct (stage v).
  - repeat split.
  - destruct (F32.geb _ _); repeat split.
  - destruct (F32.leb _ _); repeat split.
  - repeat split.
  - destruct (F32.leb _ _); repeat split.
Qed.

Lemma process_voice_keeps tanh pow v :
  let w := fst (process_voice tanh pow v) in
  note w = note v /\ phase w = phase v /\ keyDown w = keyDown v /\
  (stage v = OFF -> w = v) /\
  (stage v <> OFF -> time w = F64.add (time v) dt).
Proof.
  cbn zeta. destruct (decide (stage v = OFF)) as [Hoff | Hon].
  - rewrite (process_voice_off tanh pow v Hoff). repeat split. intros H. contradiction.
  - rewrite (process_voice_on tanh pow v Hon). cbn zeta. cbn [fst].
    destruct (envelope_switch_keeps (with_time v (F64.add (time v) dt))) as (Hn & Hp & Ht & Hk).
    cbn zeta in *. cbn [with_time note phase time keyDown] in *.
    split; [exact Hn|]. split; [exact Hp|]. split; [exact Hk|].
    split; [intros H; contradiction | intros _; exact Ht].
Qed.

Lemma audioCallback_keeps tanh pow n : forall st st' out,
  audioCallback tanh pow n st = Some (st', out) ->
  running st' = running st /\ reverbFeedback st' = reverbFeedback st /\
  forall k,
    match voices st !! k with
    | Some v => exists w, voices st' !! k = Some w /\
                  note w = note v /\ phase w = phase v /\ keyDown w = keyDown v /\
                  (stage v = OFF -> w = v)
    | None => voices st' !! k = None
    end.
Proof.
  induction n as [ | n IH]; intros st st' out Hrun.
  - cbn in Hrun. injection Hrun as <- <-. repeat split.
    intros k. destruct (voices st !! k) as [v|]; [|reflexivity]. exists v. repeat split.
  - cbn [audioCallback] in Hrun.
    destruct (audio_frame tanh pow st) as [[st1 [l r]]|] eqn:Hf; [|discriminate].
    destruct (audioCallback tanh pow n st1) as [[st2 out2]|] eqn:Hrest; [|discriminate].
    injection Hrun as <- <-.
    apply audio_frame_inv in Hf as (stored & _ & _ & _ & _ & Hv & _ & _ & Hfb & Hr).
    destruct (IH st1 st2 out2 Hrest) as (Hr2 & Hfb2 & Hv2).
    split; [congruence|]. split; [congruence|].
    intros k. specialize (Hv2 k). rewrite Hv, lookup_fmap in Hv2.
    destruct (voices st !! k) as [v|]; [|exact Hv2].
    cbn in Hv2. destruct Hv2 as (w & Hw & Hn & Hp & Hk & Hoff).
    destruct (process_voice_keeps tanh pow v) as (Hn1 & Hp1 & Hk1 & Hoff1 & _). cbn zeta in *.
    exists w. split; [exact Hw|]. split; [congruence|]. split; [congruence|].
    split; [congruence|]. intros Ho. rewrite (Hoff1 Ho) in Hoff. exact (Hoff Ho).
Qed.

(** The callback owns no keyboard state: over any number of frames from a
    reachable state it runs to its end and leaves the [running] flag and the
    feedback coefficient as they are, creates and erases no voice, never
    writes a [note], a [phase] or a [keyDown] flag, and leaves an OFF voice
    untouched. *)
Theorem callback_keeps_keyboard_state tanh pow (n : nat) (st : Engine) :
  reachable tanh pow st ->
  exists st' out,
    audioCallback tanh pow n st = Some (st', out) /\
    running st' = running st /\ reverbFeedback st' = reverbFeedback st /\
    forall k,
      match voices st !! k with
      | Some v => exists w, voices st' !! k = Some w /\
                    note w = note v /\ phase w = phase v /\ keyDown w = keyDown v /\
                    (stage v = OFF -> w = v)
      | None => voices st' !! k = None
      end.
Proof.
  intros Hr.
  destruct (audioCallback_line tanh pow n st (reachable_line tanh pow st Hr))
    as (st' & out & Hrun & _).
  exists st', out. split; [exact Hrun|]. exact (audioCallback_keeps tanh pow n st st' out Hrun).
Qed.

Lemma callback_keeps_keyboard_state_witness :
  exists st' out,
    audioCallback tanh_sat pow_unit 256 engine_AS = Some (st', out) /\
    running st' = running engine_AS /\ reverbFeedback st' = reverbFeedback engine_AS /\
    forall k,
      match voices engine_AS !! k with
      | Some v => exists w, voices st' !! k = Some w /\
                    note w = note v /\ phase w = phase v /\ keyDown w = keyDown v /\
                    (stage v = OFF -> w = v)
      | None => voices st' !! k = None
      end.
Proof.
  exact (callback_keeps_keyboard_state tanh_sat pow_unit 256 engine_AS
           (engine_AS_reachable tanh_sat pow_unit)).
Defined.

(** * How long the envelope stages last *)

Lemma Fmag_one : Fmag F32.one = 2 ^ scale.
Proof. reflexivity. Qed.

(** Below [1.0f] the grid of binary32 is no coarser than [2^-24]. *)
Lemma fexp_below_one M ez :
  - scale <= ez -> Fval scale M ez < Fmag F32.one ->
  2 ^ (fexp F32.prec F32.emax (Zdig M + ez) + scale) <= ulp_below_one.
Proof.
  intros Sz Hlt. rewrite Fmag_one in Hlt.
  pose proof (Fval_digits scale M ez Sz) as [Hlo _].
  pose proof (Zdig_pos M).
  assert (Hd : Zdig M + ez + scale - 1 < scale).
  { apply (Z.pow_lt_mono_r_iff 2); unfold scale in *; lia. }
  unfold ulp_below_one. apply pow2_le.
  unfold fexp, emin, F32.prec, F32.emax, scale in *. lia.
Qed.

(** Subtracting a positive decrement from an envelope value: the
    difference is non-positive, or positive and below the exact difference
    plus one grid step. *)
Lemma F32_sub_step x cm ce :
  env_range x ->
  bounded F32.prec F32.emax cm ce = true ->
  nonpos (F32.sub x (S754_finite false cm ce)) \/
  exists m e,
    F32.sub x (S754_finite false cm ce) = S754_finite false m e /\
    bounded F32.prec F32.emax m e = true /\
    Fval scale m e < Fmag x - Fval scale cm ce + ulp_below_one.
Proof.
  intros [Hx Hle] Bc.
  pose proof (bounded32_scale _ _ Bc) as Sc.
  pose proof (Fval_pos scale cm ce Sc) as Pc.
  destruct Hx as [-> | (mx & ex & -> & Bx)]; [left; exact I|].
  pose proof (bounded32_scale _ _ Bx) as Sx. cbn [Fmag] in *.
  assert (Sz : - scale <= Z.min ex ce) by lia.
  assert (Hu : 0 < ulp_below_one) by (apply pow2_gt0; unfold scale; lia).
  unfold F32.sub.
  destruct (SFsub_pos F32.prec F32.emax scale mx ex cm ce Sx Sc)
    as [[_ ->] | [(M & HV & ->) | (M & HV & ->)]]; [left; exact I | | ].
  - destruct (binary_round_spec _ _ scale F32_prec_pos F32_scale false M _ Sz)
      as [[-> _] | (m & e & Hr & ->)]; [left; exact I|].
    right. pose proof Bx as Bx'. apply bounded_inv in Bx' as [Cx _].
    assert (Bm : bounded F32.prec F32.emax m e = true).
    { apply (rounded_le_bounded _ _ scale F32_prec_pos F32_scale M _ m e mx ex Sz Hr Bx). lia. }
    exists m, e. split.
    + unfold pack. apply bounded_inv in Bm as [_ Em].
      destruct (Z.leb_spec e (F32.emax - F32.prec)); [reflexivity | lia].
    + split; [assumption|].
      pose proof (fexp_below_one M (Z.min ex ce) Sz ltac:(lia)) as Hg.
      destruct Hr as (_ & _ & [He | [_ [_ Hhi]]]); lia.
  - left.
    destruct (binary_round_spec _ _ scale F32_prec_pos F32_scale true M _ Sz)
      as [[-> _] | (m & e & Hr & ->)]; [exact I|].
    unfold pack. destruct (Z.leb e (F32.emax - F32.prec)); exact I.
Qed.

(** Adding a positive increment not above [1.0f] to an envelope value:
    the sum is positive, and either at least [1.0f] or above the exact sum
    minus one grid step. *)
Lemma F32_add_step x cm ce :
  env_range x ->
  bounded F32.prec F32.emax cm ce = true ->
  Fval scale cm ce <= Fmag F32.one ->
  exists m e,
    F32.add x (S754_finite false cm ce) = S754_finite false m e /\
    bounded F32.prec F32.emax m e = true /\
    (Fmag F32.one <= Fval scale m e \/
     Fmag x + Fval scale cm ce - ulp_below_one < Fval scale m e).
Proof.
  intros [Hx Hle] Bc Hc.
  pose proof (bounded32_scale _ _ Bc) as Sc.
  pose proof (Fval_pos scale cm ce Sc) as Pc.
  assert (Hu : 0 < ulp_below_one) by (apply pow2_gt0; unfold scale; lia).
  destruct Hx as [-> | (mx & ex & -> & Bx)].
  - exists cm, ce. cbn in *. split; [reflexivity|]. split; [assumption|]. right. lia.
  - pose proof (bounded32_scale _ _ Bx) as Sx. cbn [Fmag] in *.
    pose proof (Fval_pos scale mx ex Sx) as Px.
    destruct (SFadd_pos F32.prec F32.emax scale mx ex cm ce Sx Sc) as (M & HM & HV).
    unfold F32.add. rewrite HM.
    assert (Sz : - scale <= Z.min ex ce) by lia.
    apply bounded_inv in Bx as [Cx _].
    destruct (binary_round_spec _ _ scale F32_prec_pos F32_scale false M _ Sz)
      as [[_ Hsmall] | (m & e & Hr & ->)].
    + pose proof (not_small_of_ge _ _ scale F32_prec_pos F32_scale M _ mx ex Sz Cx ltac:(lia)). lia.
    + assert (Bm : bounded F32.prec F32.emax m e = true).
      { apply (rounded_le_bounded _ _ scale F32_prec_pos F32_scale M _ m e 8388608 (-22) Sz Hr
                 two_bounded).
        change (Fval scale 8388608 (-22)) with (2 * 2 ^ scale). rewrite Fmag_one in *. lia. }
      exists m, e. split.
      * unfold pack. apply bounded_inv in Bm as [_ Em].
        destruct (Z.leb_spec e (F32.emax - F32.prec)); [reflexivity | lia].
      * split; [assumption|].
        destruct (Z_lt_le_dec (Fval scale M (Z.min ex ce)) (Fmag F32.one)) as [Hlt | Hge].
        -- right. pose proof (fexp_below_one M (Z.min ex ce) Sz Hlt) as Hg.
           destruct Hr as (_ & _ & [He | [_ [Hlo _]]]); lia.
        -- left. change (Fmag F32.one) with (Fval scale 8388608 (-23)) in *.
           apply (rounded_ge _ _ scale F32_prec_pos F32_scale M _ m e 8388608 (-23) Sz Hr eq_refl).
           exact Hge.
Qed.

Section Durations.
Variable tanh : double -> double.
Variable pow : double -> double -> double.

Local Abbreviation advance v := (fst (process_voice tanh pow v)) (only parsing).

Lemma voice_after_S n v : voice_after tanh pow (S n) v = advance (voice_after tanh pow n v).
Proof. reflexivity. Qed.

Lemma voice_after_add a b v :
  voice_after tanh pow (a + b) v = voice_after tanh pow a (voice_after tanh pow b v).
Proof. unfold voice_after. apply Nat.iter_add. Qed.

Lemma voice_after_inv n v : voice_inv v -> voice_inv (voice_after tanh pow n v).
Proof.
  intros H. induction n as [ | n IH]; [exact H|].
  rewrite voice_after_S. apply (process_voice_inv tanh pow _ IH).
Qed.

Lemma advance_stage v :
  stage v <> OFF ->
  stage (advance v) = stage (fst (envelope_switch (with_time v (F64.add (time v) dt)))) /\
  envelope (advance v) = envelope (fst (envelope_switch (with_time v (F64.add (time v) dt)))).
Proof. intros Hon. rewrite (process_voice_on tanh pow v Hon). split; reflexivity. Qed.

Lemma attack_step v :
  voice_inv v -> stage v = ATTACK ->
  (stage (advance v) = DECAY /\ envelope (advance v) = F32.one) \/
  (stage (advance v) = ATTACK /\
   Fmag (envelope v) + attack_gain <= Fmag (envelope (advance v))).
Proof.
  intros (Hr & _) Hst.
  destruct (advance_stage v ltac:(congruence)) as [-> ->].
  unfold envelope_switch. cbn [with_time stage envelope]. rewrite Hst.
  cbn [with_envelope envelope].
  change attack_inc with (S754_finite false 9739155 (-32)).
  destruct (F32_add_step (envelope v) 9739155 (-32) Hr attack_inc_bounded) as (m & e & -> & Bm & Hb).
  { vm_compute. discriminate. }
  pose proof (finite_nonneg m e Bm) as Hn.
  unfold F32.geb. fold (F32.leb F32.one (S754_finite false m e)).
  rewrite (F32_leb_nonneg F32.one _ one_nonneg Hn).
  destruct (Z.leb_spec (Fmag F32.one) (Fmag (S754_finite false m e))) as [H1 | H1];
    cbn [fst with_stage with_envelope stage envelope].
  - left. split; reflexivity.
  - right. split; [exact Hst|]. cbn [Fmag] in *.
    unfold attack_gain. change (Fmag attack_inc) with (Fval scale 9739155 (-32)).
    destruct Hb as [Hb | Hb]; lia.
Qed.

Lemma decay_step v :
  voice_inv v -> stage v = DECAY ->
  (stage (advance v) = SUSTAIN /\ envelope (advance v) = SUSTAIN_LEVEL) \/
  (stage (advance v) = DECAY /\
   Fmag (envelope (advance v)) + decay_loss <= Fmag (envelope v)).
Proof.
  intros (Hr & _) Hst.
  destruct (advance_stage v ltac:(congruence)) as [-> ->].
  unfold envelope_switch. cbn [with_time stage envelope]. rewrite Hst.
  cbn [with_envelope envelope].
  change decay_dec with (S754_finite false 12466117 (-38)).
  destruct (F32_sub_step (envelope v) 12466117 (-38) Hr decay_dec_bounded)
    as [Hneg | (m & e & -> & Bm & Hb)].
  - rewrite (nonpos_leb _ SUSTAIN_LEVEL Hneg sustain_nonneg). left. split; reflexivity.
  - pose proof (finite_nonneg m e Bm) as Hn.
    rewrite (F32_leb_nonneg _ _ Hn sustain_nonneg).
    destruct (Z.leb_spec (Fmag (S754_finite false m e)) (Fmag SUSTAIN_LEVEL)) as [H1 | H1];
      cbn [fst with_stage with_envelope stage envelope].
    + left. split; reflexivity.
    + right. split; [exact Hst|]. cbn [Fmag] in *.
      unfold decay_loss. change (Fmag decay_dec) with (Fval scale 12466117 (-38)). lia.
Qed.

Lemma release_step v :
  voice_inv v -> stage v = RELEASE ->
  (stage (advance v) = OFF /\ envelope (advance v) = F32.zero) \/
  (stage (advance v) = RELEASE /\
   Fmag (envelope (advance v)) + release_loss <= Fmag (envelope v)).
Proof.
  intros (Hr & _) Hst.
  destruct (advance_stage v ltac:(congruence)) as [-> ->].
  unfold envelope_switch. cbn [with_time stage envelope]. rewrite Hst.
  cbn [with_envelope envelope].
  change release_dec with (S754_finite false 9972895 (-38)).
  destruct (F32_sub_step (envelope v) 9972895 (-38) Hr release_dec_bounded)
    as [Hneg | (m & e & -> & Bm & Hb)].
  - rewrite (nonpos_leb _ F32.zero Hneg zero_nonneg). left. split; reflexivity.
  - pose proof (finite_nonneg m e Bm) as Hn.
    rewrite (F32_leb_nonneg _ _ Hn zero_nonneg).
    destruct (Z.leb_spec (Fmag (S754_finite false m e)) (Fmag F32.zero)) as [H1 | H1];
      cbn [fst with_stage with_envelope stage envelope].
    + left. split; reflexivity.
    + right. split; [exact Hst|]. cbn [Fmag] in *.
      unfold release_loss. change (Fmag release_dec) with (Fval scale 9972895 (-38)). lia.
Qed.

Lemma attack_run n v :
  voice_inv v -> stage v = ATTACK ->
  (exists j, (j <= n)%nat /\ stage (voice_after tanh pow j v) = DECAY /\
             envelope (voice_after tanh pow j v) = F32.one) \/
  (stage (voice_after tanh pow n v) = ATTACK /\
   Z.of_nat n * attack_gain <= Fmag (envelope (voice_after tanh pow n v))).
Proof.
  intros Hinv Hst. induction n as [ | n IH].
  - right. split; [exact Hst|]. destruct Hinv as ((Hn & _) & _).
    pose proof (Fmag_nonneg _ Hn). cbn. lia.
  - destruct IH as [(j & Hj & H) | (Hs & Hb)]; [left; exists j; split; [lia | exact H]|].
    rewrite voice_after_S.
    destruct (attack_step _ (voice_after_inv n v Hinv) Hs) as [H | (Hs' & Hb')].
    + left. exists (S n). split; [lia|]. rewrite voice_after_S. exact H.
    + right. split; [exact Hs'|]. lia.
Qed.

Lemma decay_run n v :
  voice_inv v -> stage v = DECAY ->
  (exists j, (j <= n)%nat /\ stage (voice_after tanh pow j v) = SUSTAIN /\
             envelope (voice_after tanh pow j v) = SUSTAIN_LEVEL) \/
  (stage (voice_after tanh pow n v) = DECAY /\
   Fmag (envelope (voice_after tanh pow n v)) + Z.of_nat n * decay_loss <= Fmag (envelope v)).
Proof.
  intros Hinv Hst. induction n as [ | n IH].
  - right. split; [exact Hst|]. cbn. lia.
  - destruct IH as [(j & Hj & H) | (Hs & Hb)]; [left; exists j; split; [lia | exact H]|].
    rewrite voice_after_S.
    destruct (decay_step _ (voice_after_inv n v Hinv) Hs) as [H | (Hs' & Hb')].
    + left. exists (S n). split; [lia|]. rewrite voice_after_S. exact H.
    + right. split; [exact Hs'|]. lia.
Qed.

Lemma release_run n v :
  voice_inv v -> stage v = RELEASE ->
  (exists j, (j <= n)%nat /\ stage (voice_after tanh pow j v) = OFF /\
             envelope (voice_after tanh pow j v) = F32.zero) \/
  (stage (voice_after tanh pow n v) = RELEASE /\
   Fmag (envelope (voice_after tanh pow n v)) + Z.of_nat n * release_loss <= Fmag (envelope v)).
Proof.
  intros Hinv Hst. induction n as [ | n IH].
  - right. split; [exact Hst|]. cbn. lia.
  - destruct IH as [(j & Hj & H) | (Hs & Hb)]; [left; exists j; split; [lia | exact H]|].
    rewrite voice_after_S.
    destruct (release_step _ (voice_after_inv n v Hinv) Hs) as [H | (Hs' & Hb')].
    + left. exists (S n). split; [lia|]. rewrite voice_after_S. exact H.
    + right. split; [exact Hs'|]. lia.
Qed.

Lemma sustain_stays n v :
  stage v = SUSTAIN ->
  stage (voice_after tanh pow n v) = SUSTAIN /\
  envelope (voice_after tanh pow n v) = envelope v.
Proof.
  intros Hst. induction n as [ | n [IHs IHe]]; [split; [exact Hst | reflexivity]|].
  rewrite voice_after_S.
  destruct (advance_stage (voice_after tanh pow n v) ltac:(congruence)) as [-> ->].
  unfold envelope_switch. cbn [with_time stage]. rewrite IHs. cbn [fst with_time stage envelope].
  split; [exact IHs | exact IHe].
Qed.

Lemma off_stays n v : stage v = OFF -> voice_after tanh pow n v = v.
Proof.
  intros Hst. induction n as [ | n IH]; [reflexivity|].
  rewrite voice_after_S, IH, (process_voice_off tanh pow v Hst). reflexivity.
Qed.

(** The bounds. *)
Lemma attack_ends v :
  voice_inv v -> stage v = ATTACK ->
  exists j, Z.of_nat j <= 442 /\ stage (voice_after tanh pow j v) = DECAY /\
            envelope (voice_after tanh pow j v) = F32.one.
Proof.
  intros Hinv Hst.
  destruct (attack_run 442 v Hinv Hst) as [(j & Hj & H) | (_ & Hb)];
    [exists j; split; [lia | exact H]|].
  destruct (voice_after_inv 442 v Hinv) as ((_ & Hle) & _).
  exfalso. revert Hb Hle. generalize (Fmag (envelope (voice_after tanh pow 442 v))).
  intros z Hb Hle. assert (Fmag F32.one < Z.of_nat 442 * attack_gain) by (vm_compute; reflexivity).
  lia.
Qed.

Lemma decay_ends v :
  voice_inv v -> stage v = DECAY ->
  exists j, Z.of_nat j <= 4416 /\ stage (voice_after tanh pow j v) = SUSTAIN /\
            envelope (voice_after tanh pow j v) = SUSTAIN_LEVEL.
Proof.
  intros Hinv Hst.
  destruct (decay_run 4416 v Hinv Hst) as [(j & Hj & H) | (Hs & Hb)];
    [exists j; split; [lia | exact H]|].
  destruct (voice_after_inv 4416 v Hinv) as (_ & Hlow & _). specialize (Hlow Hs).
  destruct Hinv as ((_ & Hle) & _).
  exfalso. revert Hb Hlow Hle.
  generalize (Fmag (envelope (voice_after tanh pow 4416 v))), (Fmag (envelope v)).
  intros z z0 Hb Hlow Hle.
  assert (Fmag F32.one - Fmag SUSTAIN_LEVEL < Z.of_nat 4416 * decay_loss)
    by (vm_compute; reflexivity).
  lia.
Qed.

Lemma release_ends v :
  voice_inv v -> stage v = RELEASE ->
  exists j, Z.of_nat j <= 27608 /\ stage (voice_after tanh pow j v) = OFF /\
            envelope (voice_after tanh pow j v) = F32.zero.
Proof.
  intros Hinv Hst.
  destruct (release_run (Z.to_nat 27608) v Hinv Hst) as [(j & Hj & H) | (_ & Hb)].
  - exists j. split; [lia | exact H].
  - destruct (voice_after_inv (Z.to_nat 27608) v Hinv) as ((Hn & _) & _).
    pose proof (Fmag_nonneg _ Hn) as H0. destruct Hinv as ((_ & Hle) & _).
    exfalso. revert Hb H0 Hle.
    generalize (Fmag (envelope (voice_after tanh pow (Z.to_nat 27608) v))), (Fmag (envelope v)).
    intros z z0 Hb H0 Hle.
    assert (Fmag F32.one < Z.of_nat (Z.to_nat 27608) * release_loss) by (vm_compute; reflexivity).
    lia.
Qed.
End Durations.

Section Frames.
Variable tanh : double -> double.
Variable pow : double -> double -> double.

Lemma voice_after_swap n v :
  voice_after tanh pow n (fst (process_voice tanh pow v)) = voice_after tanh pow (S n) v.
Proof. unfold voice_after. symmetry. apply Nat.iter_succ_r. Qed.

(** The registry after [n] frames: every voice advanced [n] times. *)
Lemma audioCallback_voices n : forall st st' out,
  audioCallback tanh pow n st = Some (st', out) ->
  voices st' = voice_after tanh pow n <$> voices st.
Proof.
  induction n as [ | n IH]; intros st st' out Hrun.
  - cbn in Hrun. injection Hrun as <- <-. symmetry. apply map_fmap_id.
  - cbn [audioCallback] in Hrun.
    destruct (audio_frame tanh pow st) as [[st1 [l r]]|] eqn:Hf; [|discriminate].
    destruct (audioCallback tanh pow n st1) as [[st2 out2]|] eqn:Hrest; [|discriminate].
    injection Hrun as <- <-.
    apply audio_frame_inv in Hf as (stored & _ & _ & _ & _ & Hv & _).
    rewrite (IH st1 st2 out2 Hrest), Hv, <- map_fmap_compose.
    apply map_fmap_ext. intros k v _. apply voice_after_swap.
Qed.

Lemma frames_from_reachable n st k v :
  reachable tanh pow st -> voices st !! k = Some v ->
  exists st' out,
    audioCallback tanh pow n st = Some (st', out) /\
    voices st' !! k = Some (voice_after tanh pow n v) /\ voice_inv v.
Proof.
  intros Hr Hk.
  destruct (audioCallback_line tanh pow n st (reachable_line tanh pow st Hr))
    as (st' & out & Hrun & _).
  exists st', out. split; [exact Hrun|]. split.
  - rewrite (audioCallback_voices n st st' out Hrun), lookup_fmap, Hk. reflexivity.
  - destruct (reachable_inv tanh pow st Hr) as (Hv & _). exact (Hv k v Hk).
Qed.
End Frames.

(** A released voice falls silent: from a reachable state with voice [k]
    in RELEASE, after 27608 frames (0.63 s) or more without a key event the
    voice is OFF with its envelope at [0.0f], whatever level it was
    released from. *)
Theorem released_voice_falls_silent tanh pow (n : nat) (st : Engine) (k : Z) (v : Voice) :
  reachable tanh pow st -> voices st !! k = Some v -> stage v = RELEASE ->
  27608 <= Z.of_nat n ->
  exists st' out w,
    audioCallback tanh pow n st = Some (st', out) /\
    voices st' !! k = Some w /\ stage w = OFF /\ envelope w = F32.zero.
Proof.
  intros Hr Hk Hst Hn.
  destruct (frames_from_reachable tanh pow n st k v Hr Hk) as (st' & out & Hrun & Hw & Hinv).
  exists st', out, (voice_after tanh pow n v). split; [exact Hrun|]. split; [exact Hw|].
  destruct (release_ends tanh pow v Hinv Hst) as (j & Hj & Hs & He).
  replace n with ((n - j) + j)%nat by lia.
  rewrite voice_after_add, (off_stays tanh pow _ _ Hs). split; assumption.
Qed.

Lemma engine_A_up_reachable tanh pow : reachable tanh pow engine_A_up.
Proof.
  apply (reachable_step tanh pow engine_A (KeyUpScan " "%char) engine_A_up);
    [apply engine_A_reachable | reflexivity].
Qed.

Lemma released_voice_falls_silent_witness :
  exists st' out w,
    audioCallback tanh_sat pow_unit (Z.to_nat 27608) engine_A_up = Some (st', out) /\
    voices st' !! 57 = Some w /\ stage w = OFF /\ envelope w = F32.zero.
Proof.
  apply (released_voice_falls_silent tanh_sat pow_unit (Z.to_nat 27608) engine_A_up 57
           (with_stage (mkVoice 57 F64.zero F64.zero ATTACK F32.zero false) RELEASE)
           (engine_A_up_reachable tanh_sat pow_unit)).
  - reflexivity.
  - reflexivity.
  - vm_compute. discriminate.
Defined.

(** A held key settles: from a reachable state with voice [k] in ATTACK
    or in DECAY, after 4858 frames (0.11 s) or more without a key event the
    voice is in SUSTAIN with its envelope at exactly [SUSTAIN_LEVEL]. *)
Theorem held_voice_reaches_sustain tanh pow (n : nat) (st : Engine) (k : Z) (v : Voice) :
  reachable tanh pow st -> voices st !! k = Some v ->
  stage v = ATTACK \/ stage v = DECAY ->
  4858 <= Z.of_nat n ->
  exists st' out w,
    audioCallback tanh pow n st = Some (st', out) /\
    voices st' !! k = Some w /\ stage w = SUSTAIN /\ envelope w = SUSTAIN_LEVEL.
Proof.
  intros Hr Hk Hst Hn.
  destruct (frames_from_reachable tanh pow n st k v Hr Hk) as (st' & out & Hrun & Hw & Hinv).
  exists st', out, (voice_after tanh pow n v). split; [exact Hrun|]. split; [exact Hw|].
  assert (Hd : exists j1, Z.of_nat j1 <= 442 /\ stage (voice_after tanh pow j1 v) = DECAY).
  { destruct Hst as [Hst | Hst].
    - destruct (attack_ends tanh pow v Hinv Hst) as (j & Hj & Hs & _). exists j. auto.
    - exists 0%nat. split; [lia | exact Hst]. }
  destruct Hd as (j1 & Hj1 & Hs1).
  destruct (decay_ends tanh pow _ (voice_after_inv tanh pow j1 v Hinv) Hs1) as (j2 & Hj2 & Hs2 & He2).
  replace n with ((n - (j2 + j1)) + (j2 + j1))%nat by lia.
  rewrite voice_after_add, (voice_after_add tanh pow j2 j1).
  destruct (sustain_stays tanh pow (n - (j2 + j1)) _ Hs2) as [H1 H2].
  split; [exact H1 | congruence].
Qed.

Lemma held_voice_reaches_sustain_witness :
  exists st' out w,
    audioCallback tanh_sat pow_unit (Z.to_nat 4858) engine_A = Some (st', out) /\
    voices st' !! 57 = Some w /\ stage w = SUSTAIN /\ envelope w = SUSTAIN_LEVEL.
Proof.
  apply (held_voice_reaches_sustain tanh_sat pow_unit (Z.to_nat 4858) engine_A 57 voice_A
           (engine_A_reachable tanh_sat pow_unit)).
  - reflexivity.
  - left. reflexivity.
  - vm_compute. discriminate.
Defined.

(** * The envelope timeline *)

(** Stage and envelope after the switch depend on stage and envelope
    only. *)
Lemma envelope_switch_core v w :
  stage v = stage w -> envelope v = envelope w ->
  stage (fst (envelope_switch v)) = stage (fst (envelope_switch w)) /\
  envelope (fst (envelope_switch v)) = envelope (fst (envelope_switch w)).
Proof.
  intros Hs He. unfold envelope_switch. rewrite Hs, He. destruct (stage w) eqn:Ew.
  - cbn. split; congruence.
  - destruct (F32.geb _ _); cbn; split; congruence.
  - destruct (F32.leb _ _); cbn; split; congruence.
  - cbn. split; congruence.
  - destruct (F32.leb _ _); cbn; split; congruence.
Qed.

Lemma process_voice_core tanh pow v w :
  stage v = stage w -> envelope v = envelope w ->
  stage (fst (process_voice tanh pow v)) = stage (fst (envelope_switch w)) /\
  envelope (fst (process_voice tanh pow v)) = envelope (fst (envelope_switch w)).
Proof.
  intros Hs He. destruct (decide (stage v = OFF)) as [Hoff | Hon].
  - rewrite (process_voice_off tanh pow v Hoff). unfold envelope_switch.
    rewrite <- Hs, Hoff. cbn. auto.
  - rewrite (process_voice_on tanh pow v Hon). cbn zeta. cbn [fst].
    apply envelope_switch_core; assumption.
Qed.

Lemma voice_after_core tanh pow p : forall v w,
  stage v = stage w -> envelope v = envelope w ->
  stage (voice_after tanh pow (Pos.to_nat p) v) = stage (envelope_after p w) /\
  envelope (voice_after tanh pow (Pos.to_nat p) v) = envelope (envelope_after p w).
Proof.
  unfold envelope_after. induction p as [ | p IH] using Pos.peano_ind; intros v w Hs He.
  - cbn. apply process_voice_core; assumption.
  - rewrite Pos2Nat.inj_succ, Pos.iter_succ. cbn [voice_after Nat.iter].
    destruct (IH v w Hs He) as [IHs IHe].
    apply process_voice_core; assumption.
Qed.

Lemma stage_with_stage v s : stage (with_stage v s) = s.
Proof. reflexivity. Qed.

Lemma envelope_with_stage v s : envelope (with_stage v s) = envelope v.
Proof. reflexivity. Qed.

(** The timeline of the first key of the table, evaluated. *)
Lemma timeline_from_zero :
  stage (envelope_after 440 voice_A) = ATTACK /\
  stage (envelope_after 441 voice_A) = DECAY /\
  envelope (envelope_after 441 voice_A) = F32.one /\
  stage (envelope_after 4409 (envelope_after 441 voice_A)) = DECAY /\
  stage (envelope_after 4410 (envelope_after 441 voice_A)) = SUSTAIN /\
  envelope (envelope_after 4410 (envelope_after 441 voice_A)) = SUSTAIN_LEVEL /\
  stage (envelope_after 22047
           (with_stage (envelope_after 4410 (envelope_after 441 voice_A)) RELEASE)) = RELEASE /\
  stage (envelope_after 22048
           (with_stage (envelope_after 4410 (envelope_after 441 voice_A)) RELEASE)) = OFF /\
  envelope (envelope_after 22048
              (with_stage (envelope_after 4410 (envelope_after 441 voice_A)) RELEASE)) = F32.zero.
Proof. vm_compute. repeat split. Qed.

(** The envelope timeline on binary32, in frames without key events.  A
    voice triggered from silence reaches [1.0f] and enters DECAY on frame
    441 and not before; the decay that follows reaches [SUSTAIN_LEVEL] and
    enters SUSTAIN on its frame 4410 and not before; and a release from the
    sustain level reaches [0.0f] and OFF on its frame 22048 and not before,
    two frames short of the 22050 frames of [RELEASE_TIME]. *)
Theorem adsr_timeline tanh pow (v : Voice) :
  stage v = ATTACK -> envelope v = F32.zero ->
  let after n := voice_after tanh pow (Pos.to_nat n) in
  let peak := after 441%positive v in
  let held := after 4410%positive peak in
  let freed := with_stage held RELEASE in
  stage (after 440%positive v) = ATTACK /\
  (stage peak, envelope peak) = (DECAY, F32.one) /\
  stage (after 4409%positive peak) = DECAY /\
  (stage held, envelope held) = (SUSTAIN, SUSTAIN_LEVEL) /\
  stage (after 22047%positive freed) = RELEASE /\
  (stage (after 22048%positive freed), envelope (after 22048%positive freed)) = (OFF, F32.zero).
Proof.
  intros Hs He. cbv zeta.
  destruct timeline_from_zero as (T1 & T2 & T3 & T4 & T5 & T6 & T7 & T8 & T9).
  assert (HAs : stage v = stage voice_A) by exact Hs.
  assert (HAe : envelope v = envelope voice_A) by exact He.
  destruct (voice_after_core tanh pow 440 v voice_A HAs HAe) as [A1 _].
  destruct (voice_after_core tanh pow 441 v voice_A HAs HAe) as [P1 P2].
  destruct (voice_after_core tanh pow 4409 _ _ P1 P2) as [D1 _].
  destruct (voice_after_core tanh pow 4410 _ _ P1 P2) as [H1 H2].
  assert (F1 : stage (with_stage (voice_after tanh pow (Pos.to_nat 4410)
                                    (voice_after tanh pow (Pos.to_nat 441) v)) RELEASE)
               = stage (with_stage (envelope_after 4410 (envelope_after 441 voice_A)) RELEASE)).
  { rewrite !stage_with_stage. reflexivity. }
  assert (F2 : envelope (with_stage (voice_after tanh pow (Pos.to_nat 4410)
                                       (voice_after tanh pow (Pos.to_nat 441) v)) RELEASE)
               = envelope (with_stage (envelope_after 4410 (envelope_after 441 voice_A)) RELEASE)).
  { rewrite !envelope_with_stage. exact H2. }
  destruct (voice_after_core tanh pow 22047 _ _ F1 F2) as [R1 _].
  destruct (voice_after_core tanh pow 22048 _ _ F1 F2) as [O1 O2].
  rewrite A1, P1, P2, D1, H1, H2, R1, O1, O2, T1, T2, T3, T4, T5, T6, T7, T8, T9.
  repeat split.
Qed.

Lemma adsr_timeline_witness :
  let after n := voice_after tanh_sat pow_unit (Pos.to_nat n) in
  let peak := after 441%positive voice_A in
  let held := after 4410%positive peak in
  let freed := with_stage held RELEASE in
  stage (after 440%positive voice_A) = ATTACK /\
  (stage peak, envelope peak) = (DECAY, F32.one) /\
  stage (after 4409%positive peak) = DECAY /\
  (stage held, envelope held) = (SUSTAIN, SUSTAIN_LEVEL) /\
  stage (after 22047%positive freed) = RELEASE /\
  (stage (after 22048%positive freed), envelope (after 22048%positive freed)) = (OFF, F32.zero).
Proof.
  exact (adsr_timeline tanh_sat pow_unit voice_A eq_refl eq_refl).
Defined.

(** * Tuning *)

(** The notes at whole octaves from A4: the exponent handed to [pow],
    [(midiNote - 69) / 12.0], is then the whole number [k] exactly, and when
    [pow] returns the exact power of two for it the frequency is [440 * 2^k]
    exactly: 440 Hz for note 69 (key [K]), 220 Hz for note 57 (keys [A] and
    [N]). *)
Theorem midiToFreq_octaves pow (k : Z) :
  -5 <= k <= 4 ->
  pow (F64.of_Z 2) (F64.of_Z k) = two_to k ->
  F64.div (F64.of_Z (69 + 12 * k - 69)) (F64.of_Z 12) = F64.of_Z k /\
  midiToFreq pow (69 + 12 * k) = A440_times_two_to k.
Proof.
  intros Hk Hpow.
  assert (E : F64.div (F64.of_Z (69 + 12 * k - 69)) (F64.of_Z 12) = F64.of_Z k).
  { assert (Hc : k = -5 \/ k = -4 \/ k = -3 \/ k = -2 \/ k = -1 \/ k = 0 \/ k = 1 \/ k = 2 \/
                 k = 3 \/ k = 4) by lia.
    repeat (destruct Hc as [-> | Hc]; [vm_compute; reflexivity|]). subst k. vm_compute. reflexivity. }
  split; [exact E|]. unfold midiToFreq. rewrite E, Hpow.
  assert (Hc : k = -5 \/ k = -4 \/ k = -3 \/ k = -2 \/ k = -1 \/ k = 0 \/ k = 1 \/ k = 2 \/
               k = 3 \/ k = 4) by lia.
  repeat (destruct Hc as [-> | Hc]; [vm_compute; reflexivity|]). subst k. vm_compute. reflexivity.
Qed.

Lemma midiToFreq_octaves_witness :
  F64.div (F64.of_Z (69 + 12 * 0 - 69)) (F64.of_Z 12) = F64.of_Z 0 /\
  midiToFreq pow_unit (69 + 12 * 0) = A440_times_two_to 0.
Proof.
  apply (midiToFreq_octaves pow_unit 0); [lia | reflexivity].
Defined.

(** * The output buffer *)

Lemma audio_frame_reachable tanh pow st st' out :
  reachable tanh pow st -> audio_frame tanh pow st = Some (st', out) -> reachable tanh pow st'.
Proof.
  intros Hr Hf. apply (reachable_step tanh pow st Frame st' Hr).
  cbn [step]. rewrite Hf. reflexivity.
Qed.

(** From any reachable state [audioCallback] runs to its end for any
    number of frames, never leaving the delay line, and writes two equal
    samples per frame. *)
Theorem audioCallback_writes_stereo_frames tanh pow (n : nat) (st : Engine) :
  reachable tanh pow st ->
  exists st' out,
    audioCallback tanh pow n st = Some (st', out) /\
    reachable tanh pow st' /\
    length out = (2 * n)%nat /\
    forall i, (i < n)%nat -> out !! (2 * i)%nat = out !! (2 * i + 1)%nat.
Proof.
  revert st. induction n as [ | n IH]; intros st Hr.
  - exists st, []. split; [reflexivity|]. split; [exact Hr|]. split; [reflexivity|].
    intros i Hi. lia.
  - destruct (reachable_inv tanh pow st Hr) as (_ & Hlen & Hidx).
    assert (Hin : 0 <= reverbIndex st < Z.of_nat (length (reverbDelayBuffer st))).
    { rewrite Hlen, Z2Nat.id by (rewrite DELAY_SIZE_val; lia). exact Hidx. }
    destruct (audio_frame_defined tanh pow st Hin) as (st1 & o & Hf).
    pose proof (audio_frame_reachable tanh pow st st1 _ Hr Hf) as Hr1.
    destruct (IH st1 Hr1) as (st' & out & Hrun & Hr' & Hl & Hpair).
    exists st', (o :: o :: out). cbn [audioCallback]. rewrite Hf, Hrun.
    split; [reflexivity|]. split; [exact Hr'|]. split; [cbn [length]; lia|].
    intros [ | i] Hi; [reflexivity|].
    replace (2 * S i)%nat with (S (S (2 * i))) by lia.
    replace (S (S (2 * i)) + 1)%nat with (S (S (2 * i + 1))) by lia.
    cbn [lookup list_lookup]. apply Hpair. lia.
Qed.

Lemma audioCallback_writes_stereo_frames_witness :
  exists st' out,
    audioCallback tanh_sat pow_unit 2 engine_A = Some (st', out) /\
    reachable tanh_sat pow_unit st' /\
    length out = (2 * 2)%nat /\
    forall i, (i < 2)%nat -> out !! (2 * i)%nat = out !! (2 * i + 1)%nat.
Proof.
  exact (audioCallback_writes_stereo_frames tanh_sat pow_unit 2 engine_A
           (engine_A_reachable tanh_sat pow_unit)).
Defined.

(** * Bounds on the results of the operations *)

Section Bounds.
Variables prec emax K : Z.
Hypothesis Hprec : 0 < prec.
Hypothesis Hemax : 3 <= emax.
Hypothesis HK : - K <= 2 * SpecFloat.emin prec emax.
Hypothesis HK' : - K <= SpecFloat.emin prec emax - (emax - prec).

Local Abbreviation emin := (SpecFloat.emin prec emax).
Local Abbreviation fexp := (SpecFloat.fexp prec emax).
Local Abbreviation within := (within prec emax K).
Local Abbreviation grid_bound := (grid_bound prec emax K).
Local Abbreviation rounded := (rounded prec emax K).

Lemma emin_neg : emin < 0.
Proof using All. unfold SpecFloat.emin. lia. Qed.

Lemma scale_emin : - K <= emin.
Proof using All. pose proof emin_neg. lia. Qed.

Lemma mag_nonneg x : valid_binary prec emax x = true -> 0 <= mag K x.
Proof using All.
  destruct x as [ | | | s m e]; cbn; try lia. intros B.
  apply bounded_inv in B as [C _]. apply canonical_inv in C as (He & _).
  pose proof scale_emin. pose proof (Fval_pos K m e ltac:(lia)). lia.
Qed.

Lemma within_weaken A B x : within A x -> A <= B -> within B x.
Proof using All. intros (V & F & H) Hle. repeat split; try assumption. lia. Qed.

Lemma within_zero s B : 0 <= B -> within B (S754_zero s).
Proof using All. intros H. repeat split. exact H. Qed.

(** A value not above a grid bound lies in a binade whose grid divides
    the bound. *)
Lemma grid_bound_fexp d b B v :
  grid_bound b B -> 2 ^ (d + K - 1) <= v -> v <= B -> fexp d <= b.
Proof using All.
  intros (Hb & _ & _ & _ & HB) Hlo Hle.
  destruct (Z_lt_le_dec (b + prec) d) as [Hlt | Hge];
    [|clear - Hb Hge; unfold SpecFloat.fexp, SpecFloat.emin in *; lia].
  exfalso. assert (0 <= b + prec + K \/ b + prec + K < 0) as [Hn | Hn] by lia.
  - assert (2 ^ (b + prec + K) <= 2 ^ (d + K - 1)) by (apply pow2_le; lia). lia.
  - rewrite (Z.pow_neg_r 2 (b + prec + K)) in HB by lia. lia.
Qed.

Lemma grid_step a G B : 0 < G -> (G | B) -> (a - 1) * G < B -> a * G <= B.
Proof using All.
  intros HG [c ->] H. destruct (Z_lt_le_dec c a) as [Hlt | Hge].
  - exfalso. assert (c * G <= (a - 1) * G) by (apply Z.mul_le_mono_nonneg_r; lia). lia.
  - apply Z.mul_le_mono_nonneg_r; lia.
Qed.

Lemma pow2_divide a b : 0 <= a <= b -> (2 ^ a | 2 ^ b).
Proof using All.
  intros H. exists (2 ^ (b - a)). rewrite <- Z.pow_add_r by lia. f_equal. lia.
Qed.

(** A canonical number below [2^emax] does not overflow. *)
Lemma canonical_bounded m e :
  canonical_mantissa prec emax m e = true -> Fval K m e < 2 ^ (emax + K) ->
  bounded prec emax m e = true.
Proof using All.
  intros C Hlt. unfold bounded. rewrite C. cbn. apply Z.leb_le.
  pose proof C as C'. apply canonical_inv in C' as (He & Hf & _).
  pose proof scale_emin as HS.
  pose proof (Fval_digits K m e ltac:(lia)) as [Hlo _]. pose proof (Zdig_pos m).
  assert (Zdig m + e + K - 1 < emax + K).
  { apply (Z.pow_lt_mono_r_iff 2); [lia | unfold SpecFloat.emin in *; lia | lia]. }
  clear Hlo Hlt. unfold SpecFloat.fexp, SpecFloat.emin in *. lia.
Qed.

(** Rounding never crosses a grid bound. *)
Lemma rounded_le_grid M ex m e b B :
  - K <= ex -> rounded M ex m e -> grid_bound b B -> Fval K M ex <= B ->
  Fval K m e <= B /\ bounded prec emax m e = true.
Proof using All.
  intros Hex (C & He' & Hv) HG Hle.
  pose proof scale_emin as HS.
  pose proof (fexp_ge_emin prec emax (Zdig M + ex)) as Hfe.
  pose proof (Fval_digits K M ex Hex) as [Hlo _].
  pose proof (grid_bound_fexp (Zdig M + ex) b B (Fval K M ex) HG Hlo Hle) as Hb.
  destruct HG as (Hbmin & Hbmax & Hdiv & HB0 & HB).
  set (e' := fexp (Zdig M + ex)) in *.
  assert (HGp : 0 < 2 ^ (e' + K)) by (apply pow2_gt0; lia).
  assert (Hle' : Fval K m e <= B).
  { destruct Hv as [-> | [_ [_ Hhi]]]; [exact Hle|].
    rewrite (Fval_grid K m e e') by lia.
    apply grid_step; [exact HGp | | rewrite (Fval_grid K m e e') in Hhi by lia; lia].
    apply Z.divide_trans with (2 ^ (b + K)); [apply pow2_divide; lia | exact Hdiv]. }
  split; [exact Hle'|]. apply canonical_bounded; [exact C|].
  assert (2 ^ (b + prec + K) <= 2 ^ (emax + K)) by (apply pow2_le; lia). lia.
Qed.

Lemma pack_within s m e B :
  bounded prec emax m e = true -> Fval K m e <= B -> within B (pack prec emax s m e).
Proof using All.
  intros Bm Hle. unfold pack. pose proof Bm as Bm'. apply bounded_inv in Bm' as [_ He].
  destruct (Z.leb_spec e (emax - prec)); [|lia]. repeat split; assumption.
Qed.

(** [binary_round] of a value not above a grid bound. *)
Lemma binary_round_within s M ex b B :
  - K <= ex -> grid_bound b B -> Fval K M ex <= B ->
  within B (binary_round prec emax s M ex).
Proof using All.
  intros Hex HG Hle. pose proof scale_emin as HS.
  destruct (binary_round_spec prec emax K Hprec HS s M ex Hex) as [[-> _] | (m & e & Hr & ->)].
  - apply within_zero. destruct HG as (_ & _ & _ & H & _). exact H.
  - destruct (rounded_le_grid M ex m e b B Hex Hr HG Hle) as [H1 H2].
    apply pack_within; assumption.
Qed.

(** [binary_round_aux] on an exact location, once the exponent is not
    above the target one. *)
Lemma binary_round_aux_spec s M ex :
  - K <= ex -> ex <= fexp (Zdig M + ex) ->
  binary_round_aux prec emax s (Zpos M) ex loc_Exact = S754_zero s \/
  exists m e, rounded M ex m e /\
              binary_round_aux prec emax s (Zpos M) ex loc_Exact = pack prec emax s m e.
Proof using All.
  intros Hex Hge. set (e' := fexp (Zdig M + ex)) in *.
  destruct (binary_round_aux_exact prec emax Hprec s M ex Hge) as (m2 & Hm2 & Hv & Hp).
  fold e' in Hv, Hp.
  assert (Hn : 0 <= e' - ex) by lia.
  pose proof (pow2_gt0 (e' - ex) Hn) as Hpn. pose proof (pow2_gt0 (ex + K) ltac:(lia)) as Hpk.
  assert (HG : 2 ^ (e' + K) = 2 ^ (e' - ex) * 2 ^ (ex + K)).
  { rewrite <- pow2_split by lia. f_equal; lia. }
  inversion Hp as [E0 | m3 e3 Hm3 He3 Hc3]; [left; reflexivity|].
  right. exists m3, e3. split; [|reflexivity].
  assert (Hval : Fval K m3 e3 = m2 * 2 ^ (e' + K)).
  { unfold Fval. replace (e3 + K) with ((e3 - e') + (e' + K)) by lia.
    rewrite (pow2_split (e3 - e') (e' + K)) by lia. rewrite Z.mul_assoc, Hm3. reflexivity. }
  split; [assumption|]. split; [fold e'; lia|]. rewrite Hval. fold e'.
  clear HK HK' Hemax.
  destruct Hv as [Hv | [Hnd Hv]].
  - left. unfold Fval. rewrite HG. nia.
  - right. split.
    + intros [c Hc]. apply Hnd. apply Z.mod_divide; [lia|]. exists c.
      unfold Fval in Hc. rewrite HG in Hc. nia.
    + unfold Fval. rewrite HG. nia.
Qed.

Lemma valid_finite_inv s m e :
  valid_binary prec emax (S754_finite s m e) = true ->
  bounded prec emax m e = true /\ - K <= e /\ emin <= e /\ 0 < Fval K m e.
Proof using All.
  intros B. cbn in B. split; [exact B|].
  pose proof B as B'. apply bounded_inv in B' as [C _]. apply canonical_inv in C as (He & _).
  pose proof scale_emin. split; [lia|]. split; [exact He|]. apply Fval_pos. lia.
Qed.

(** The magnitude of a sum is at most the sum of the magnitudes. *)
Lemma SFadd_within A A' b B x y :
  within A x -> within A' y -> A + A' <= B -> grid_bound b B ->
  within B (SFadd prec emax x y).
Proof using All.
  intros (Vx & Fx & Hx) (Vy & Fy & Hy) Hsum HG.
  pose proof (mag_nonneg x Vx) as Px. pose proof (mag_nonneg y Vy) as Py.
  destruct x as [sx | | | sx mx ex]; try discriminate Fx;
    destruct y as [sy | | | sy my ey]; try discriminate Fy.
  - destruct sx, sy; cbn [SFadd]; apply within_zero; destruct HG as (_ & _ & _ & H & _); exact H.
  - cbn [SFadd]. repeat split; try assumption. lia.
  - cbn [SFadd]. repeat split; try assumption. lia.
  - destruct (valid_finite_inv sx mx ex Vx) as (Bx & Sx & _ & Pmx).
    destruct (valid_finite_inv sy my ey Vy) as (By & Sy & _ & Pmy).
    cbn [SFadd]. cbn [mag] in *.
    destruct (shl_align_spec mx ex (Z.min ex ey) ltac:(lia)) as (mx' & -> & Hmx').
    destruct (shl_align_spec my ey (Z.min ex ey) ltac:(lia)) as (my' & -> & Hmy').
    cbn [fst]. set (ez := Z.min ex ey) in *.
    assert (Sz : - K <= ez) by (subst ez; lia).
    assert (Ex : Fval K mx ex = Zpos mx' * 2 ^ (ez + K)).
    { rewrite Hmx'. rewrite (Fval_grid K mx ex ez) by (subst ez; lia). reflexivity. }
    assert (Ey : Fval K my ey = Zpos my' * 2 ^ (ez + K)).
    { rewrite Hmy'. rewrite (Fval_grid K my ey ez) by (subst ez; lia). reflexivity. }
    pose proof (pow2_gt0 (ez + K) ltac:(lia)) as Hp.
    assert (Hz : forall M s, Zpos M <= Zpos mx' + Zpos my' ->
                 within B (binary_round prec emax s M ez)).
    { intros M s HM. apply (binary_round_within s M ez b B Sz HG).
      unfold Fval. clear HK HK' Hemax. nia. }
    unfold binary_normalize.
    destruct (cond_Zopp sx (Zpos mx') + cond_Zopp sy (Zpos my')) as [ | p | p] eqn:Ez.
    + apply within_zero. destruct HG as (_ & _ & _ & H & _). exact H.
    + apply Hz. destruct sx, sy; cbn [cond_Zopp] in Ez; lia.
    + apply Hz. destruct sx, sy; cbn [cond_Zopp] in Ez; lia.
Qed.

(** The magnitude of a product is at most the product of the
    magnitudes. *)
Lemma SFmul_within A A' b B x y :
  within A x -> within A' y -> A * A' <= B * 2 ^ K -> grid_bound b B ->
  within B (SFmul prec emax x y).
Proof using All.
  intros (Vx & Fx & Hx) (Vy & Fy & Hy) Hprod HG.
  assert (HB0 : 0 <= B) by (destruct HG as (_ & _ & _ & H & _); exact H).
  destruct x as [sx | | | sx mx ex]; try discriminate Fx;
    destruct y as [sy | | | sy my ey]; try discriminate Fy;
    try (cbn [SFmul]; apply within_zero; exact HB0).
  destruct (valid_finite_inv sx mx ex Vx) as (Bx & Sx & Ex & Pmx).
  destruct (valid_finite_inv sy my ey Vy) as (By & Sy & Ey & Pmy).
  cbn [SFmul]. cbn [mag] in *.
  assert (Sz : - K <= ex + ey) by lia.
  assert (Hge : ex + ey <= fexp (Zdig (mx * my) + (ex + ey))).
  { apply bounded_inv in Bx as [Cx _]. apply bounded_inv in By as [Cy _].
    apply canonical_inv in Cx as (Ax & Fx' & Dx & Nx).
    apply canonical_inv in Cy as (Ay & Fy' & Dy & Ny).
    pose proof (Zdig_mul_ge mx my) as HD. pose proof (Zdig_pos mx). pose proof (Zdig_pos my).
    pose proof emin_neg as Hneg.
    clear Hx Hy Hprod Pmx Pmy HK HK' Sz Sx Sy HG Fx' Fy'.
    unfold SpecFloat.fexp.
    destruct (Z.eq_dec ex emin) as [Ex' | Ex'], (Z.eq_dec ey emin) as [Ey' | Ey'].
    - lia.
    - specialize (Ny ltac:(lia)). lia.
    - specialize (Nx ltac:(lia)). lia.
    - specialize (Nx ltac:(lia)). specialize (Ny ltac:(lia)). lia. }
  assert (Hv : Fval K (mx * my) (ex + ey) <= B).
  { assert (E : Fval K (mx * my) (ex + ey) * 2 ^ K = Fval K mx ex * Fval K my ey).
    { unfold Fval. rewrite Pos2Z.inj_mul.
      replace (ex + ey + K) with ((ex + K) + (ey + K) - K) by lia.
      assert (HKn : 0 <= K) by (pose proof emin_neg; lia).
      assert (E1 : 2 ^ (ex + K + (ey + K) - K) * 2 ^ K = 2 ^ (ex + K) * 2 ^ (ey + K)).
      { rewrite <- !Z.pow_add_r by lia. f_equal. lia. }
      rewrite <- Z.mul_assoc, E1. ring. }
    assert (HKp : 0 < 2 ^ K) by (apply pow2_gt0; pose proof emin_neg; lia).
    assert (Fval K mx ex * Fval K my ey <= A * A').
    { apply Z.mul_le_mono_nonneg; lia. }
    apply (Z.mul_le_mono_pos_r _ _ (2 ^ K) HKp). lia. }
  destruct (binary_round_aux_spec (xorb sx sy) (mx * my) (ex + ey) Sz Hge)
    as [-> | (m & e & Hr & ->)]; [apply within_zero; exact HB0|].
  destruct (rounded_le_grid (mx * my) (ex + ey) m e b B Sz Hr HG Hv) as [H1 H2].
  apply pack_within; assumption.
Qed.

(** [binary_round_aux] from any location: the rounded mantissa is at most
    one above the truncated one. *)
Lemma binary_round_aux_upper s q e l :
  0 <= q -> e <= fexp (Zdigits2 q + e) ->
  exists m2,
    packs prec emax s m2 (fexp (Zdigits2 q + e)) (binary_round_aux prec emax s q e l) /\
    0 <= m2 /\ (m2 - 1) * 2 ^ (fexp (Zdigits2 q + e) - e) <= q.
Proof using All.
  intros Hq Hle. set (e' := fexp (Zdigits2 q + e)) in *.
  destruct (first_shift_bounds prec emax q e l Hq Hle) as (mrs & Hs & Hm1 & Hb).
  fold e' in Hs, Hb. unfold binary_round_aux. rewrite Hs.
  set (m2 := round_nearest_even (shr_m mrs) (loc_of_shr_record mrs)).
  pose proof (round_nearest_even_cases mrs) as Hr. cbv zeta in Hr. fold m2 in Hr.
  pose proof (pow2_gt0 (e' - e) ltac:(lia)) as Hp.
  exists m2. split; [|split].
  - apply second_shift with (m1 := shr_m mrs); try assumption.
    + apply fexp_ge_emin.
    + destruct q as [ | qp | qp]; [ | | lia].
      * assert (shr_m mrs = 0) by (clear HK HK' Hemax; nia).
        rewrite H. cbn [Zdigits2]. subst e'. cbn [Zdigits2] in *.
        clear Hb Hp. unfold SpecFloat.fexp in *. lia.
      * apply shifted_canonical; assumption.
    + destruct Hr as [-> | [-> _]]; auto.
  - destruct Hr as [-> | [-> _]]; lia.
  - assert (m2 - 1 <= shr_m mrs) by (destruct Hr as [-> | [-> _]]; lia).
    assert ((m2 - 1) * 2 ^ (e' - e) <= shr_m mrs * 2 ^ (e' - e))
      by (apply Z.mul_le_mono_nonneg_r; lia).
    lia.
Qed.

Lemma packs_within s m2 e' R B :
  packs prec emax s m2 e' R -> - K <= e' ->
  m2 * 2 ^ (e' + K) <= B -> 0 <= B < 2 ^ (emax + K) ->
  within B R.
Proof using All.
  intros Hp He Hle [HB0 HB]. inversion Hp as [E0 | m3 e3 Hm3 He3 Hc3].
  - apply within_zero. exact HB0.
  - assert (Hv : Fval K m3 e3 = m2 * 2 ^ (e' + K)).
    { rewrite (Fval_grid K m3 e3 e') by lia. rewrite Hm3. reflexivity. }
    apply pack_within; [|lia]. apply canonical_bounded; [exact Hc3 | lia].
Qed.

(** A quotient strictly below a grid bound is rounded to a number not
    above it. *)
Lemma SFdiv_within A b B x sy my ey :
  within A x -> valid_binary prec emax (S754_finite sy my ey) = true ->
  A * 2 ^ K < B * Fval K my ey -> grid_bound b B ->
  within B (SFdiv prec emax x (S754_finite sy my ey)).
Proof using All.
  intros (Vx & Fx & Hx) Vy Hquot HG.
  assert (HB0 : 0 <= B) by (destruct HG as (_ & _ & _ & H & _); exact H).
  destruct x as [sx | | | sx mx ex]; try discriminate Fx;
    [cbn [SFdiv]; apply within_zero; exact HB0|].
  destruct (valid_finite_inv sx mx ex Vx) as (Bx & Sx & Ex & Pmx).
  destruct (valid_finite_inv sy my ey Vy) as (By & Sy & Ey & Pmy).
  cbn [mag] in Hx. cbn [SFdiv].
  pose proof Bx as Bx'. pose proof By as By'.
  apply bounded_inv in Bx' as [Cx Ux']. apply bounded_inv in By' as [Cy Uy'].
  apply canonical_inv in Cx as (Ax & Fx' & Dx & Nx). apply canonical_inv in Cy as (Ay & Fy' & Dy & Ny).
  unfold SFdiv_core_binary. cbn [Zdigits2]. fold (Zdig mx) (Zdig my).
  pose proof (Zdig_pos mx) as Px. pose proof (Zdig_pos my) as Py.
  pose proof (Zdig_bounds mx) as [Lx Ux]. pose proof (Zdig_bounds my) as [Ly Uy].
  set (X := Zdig mx + ex - (Zdig my + ey)).
  set (e' := Z.min (fexp X) (ex - ey)).
  set (sh := ex - ey - e').
  assert (Hsh : 0 <= sh) by (subst sh e'; lia).
  set (m' := match sh with Zpos _ => Z.shiftl (Zpos mx) sh | Z0 => Zpos mx | Zneg _ => 0 end).
  assert (Hm' : m' = Zpos mx * 2 ^ sh).
  { subst m'. destruct sh as [ | p | p] eqn:E; [cbn; lia | | lia].
    apply Z.shiftl_mul_pow2. lia. }
  clearbody m'.
  destruct (Z.div_eucl m' (Zpos my)) as [q r] eqn:Ediv.
  pose proof (Z_div_mod m' (Zpos my) ltac:(lia)) as Hdm. rewrite Ediv in Hdm.
  destruct Hdm as [Hdm Hr].
  pose proof (pow2_gt0 sh Hsh) as Hpsh.
  assert (Hq : 0 <= q) by (clear HK HK' Hemax Hquot Hx; nia).
  pose proof (fexp_ge_emin prec emax X) as HfX.
  assert (Se' : - K <= e').
  { pose proof scale_emin. subst e'. clear - HfX H HK' Ex Uy'. lia. }
  pose proof (pow2_gt0 (e' + K) ltac:(lia)) as HP.
  (* the exponent handed to the rounding is not above its target *)
  assert (Hexp : e' <= fexp (Zdigits2 q + e') /\ (q = 0 -> e' <= emin)).
  { destruct q as [ | qp | qp]; [ | | lia].
    - cbn [Zdigits2]. rewrite Z.add_0_l.
      assert (e' <= emin);
        [|split; [clear - H; unfold SpecFloat.fexp; lia | intros _; exact H]].
      destruct (Z_le_gt_dec e' emin) as [|Hgt]; [assumption|]. exfalso.
      assert (HX : fexp X = X - prec)
        by (subst e'; clear - Hgt HfX; unfold SpecFloat.fexp in *; lia).
      assert (He' : e' = X - prec \/ (e' = ex - ey /\ ex - ey < X - prec))
        by (subst e'; clear - HX; lia).
      destruct He' as [He' | [_ He']]; [|subst X; clear - He' Dx Py; lia].
      assert (Hs2 : sh = Zdig my - Zdig mx + prec) by (subst sh X; clear - He'; lia).
      assert (2 ^ Zdig my <= 2 ^ ((Zdig mx - 1) + sh)) by (apply pow2_le; clear - Hs2 Px Py Hprec; lia).
      rewrite pow2_split in H by lia.
      pose proof (pow2_gt0 (Zdig mx - 1) ltac:(lia)).
      clear HK HK' Hemax Hquot Hx HP. nia.
    - split; [|intros H; discriminate H].
      cbn [Zdigits2]. fold (Zdig qp).
      assert (HD : X - e' <= Zdig qp).
      { pose proof (Zdig_bounds qp) as [_ Uq]. pose proof (Zdig_pos qp).
        destruct (Z_lt_le_dec (Zdig qp) (X - e')) as [Hlt|]; [|lia]. exfalso.
        assert (Hk : X - e' = Zdig mx - Zdig my + sh) by (subst sh X; clear; lia).
        assert (2 ^ Zdig qp <= 2 ^ (Zdig mx - 1 + sh - Zdig my)) by (apply pow2_le; lia).
        assert (E1 : 2 ^ (Zdig mx - 1 + sh) = 2 ^ (Zdig mx - 1 + sh - Zdig my) * 2 ^ Zdig my).
        { rewrite <- pow2_split by lia. f_equal. lia. }
        assert (E2 : 2 ^ (Zdig mx - 1 + sh) = 2 ^ (Zdig mx - 1) * 2 ^ sh) by (apply pow2_split; lia).
        pose proof (pow2_gt0 (Zdig mx - 1 + sh - Zdig my) ltac:(lia)).
        pose proof (pow2_gt0 (Zdig mx - 1) ltac:(lia)).
        assert (Zpos qp + 1 <= 2 ^ (Zdig mx - 1 + sh - Zdig my)) by lia.
        clear HK HK' Hemax Hquot Hx HP.
        assert (m' < 2 ^ (Zdig mx - 1 + sh - Zdig my) * Zpos my) by nia.
        assert (2 ^ (Zdig mx - 1 + sh - Zdig my) * Zpos my < 2 ^ (Zdig mx - 1 + sh)) by nia.
        nia. }
      pose proof (fexp_mono prec emax X (Zdig qp + e') ltac:(lia)). subst e'. lia. }
  destruct Hexp as [Hexp Hq0].
  destruct (binary_round_aux_upper (xorb sx sy) q e' (new_location (Zpos my) r) Hq Hexp)
    as (m2 & Hp & Hm2 & Hup).
  set (e'' := fexp (Zdigits2 q + e')) in *.
  (* the truncated quotient is below the bound *)
  assert (HqB : q * 2 ^ (e' + K) < B).
  { assert (E : Zpos mx * 2 ^ sh * 2 ^ (e' + K) * 2 ^ (ey + K) = Fval K mx ex * 2 ^ K).
    { unfold Fval. assert (HKn : 0 <= K) by (pose proof emin_neg; lia).
      rewrite <- !Z.mul_assoc, <- !Z.pow_add_r by lia. do 2 f_equal. subst sh. lia. }
    assert (H1 : q * Zpos my <= Zpos mx * 2 ^ sh) by lia.
    assert (H2 : q * 2 ^ (e' + K) * Fval K my ey <= Fval K mx ex * 2 ^ K).
    { rewrite <- E. unfold Fval at 1.
      pose proof (pow2_gt0 (ey + K) ltac:(lia)) as HPy.
      replace (q * 2 ^ (e' + K) * (Zpos my * 2 ^ (ey + K)))
        with (q * Zpos my * (2 ^ (e' + K) * 2 ^ (ey + K))) by ring.
      replace (Zpos mx * 2 ^ sh * 2 ^ (e' + K) * 2 ^ (ey + K))
        with (Zpos mx * 2 ^ sh * (2 ^ (e' + K) * 2 ^ (ey + K))) by ring.
      apply Z.mul_le_mono_nonneg_r; [|exact H1].
      apply Z.mul_nonneg_nonneg; lia. }
    assert (HKp : 0 < 2 ^ K) by (apply pow2_gt0; pose proof emin_neg; lia).
    assert (H3 : Fval K mx ex * 2 ^ K <= A * 2 ^ K) by (apply Z.mul_le_mono_nonneg_r; lia).
    apply (Z.mul_lt_mono_pos_r (Fval K my ey)); [exact Pmy | lia]. }
  assert (He'' : e'' <= b /\ e' <= e'').
  { split; [|exact Hexp]. destruct q as [ | qp | qp]; [ | | lia].
    - specialize (Hq0 eq_refl). destruct HG as (Hb & _). subst e''. cbn [Zdigits2].
      rewrite Z.add_0_l. clear - Hq0 Hb Hprec. unfold SpecFloat.fexp. lia.
    - subst e''. cbn [Zdigits2]. fold (Zdig qp).
      apply (grid_bound_fexp (Zdig qp + e') b B (Zpos qp * 2 ^ (e' + K)) HG); [|lia].
      pose proof (Zdig_bounds qp) as [Lq _]. pose proof (Zdig_pos qp).
      replace (Zdig qp + e' + K - 1) with ((Zdig qp - 1) + (e' + K)) by lia.
      rewrite pow2_split by lia. apply Z.mul_le_mono_nonneg_r; lia. }
  destruct He'' as [Hb1 Hb2].
  assert (Se'' : - K <= e'') by lia.
  pose proof (pow2_gt0 (e'' + K) ltac:(lia)) as HP''.
  assert (HG' : 2 ^ (e'' + K) = 2 ^ (e'' - e') * 2 ^ (e' + K)).
  { rewrite <- pow2_split by lia. f_equal. lia. }
  apply (packs_within (xorb sx sy) m2 e'' _ B Hp Se'').
  - apply grid_step; [exact HP'' | |].
    + destruct HG as (_ & _ & Hdiv & _).
      apply Z.divide_trans with (2 ^ (b + K)); [apply pow2_divide; lia | exact Hdiv].
    + rewrite HG', Z.mul_assoc.
      assert ((m2 - 1) * 2 ^ (e'' - e') * 2 ^ (e' + K) <= q * 2 ^ (e' + K))
        by (apply Z.mul_le_mono_nonneg_r; lia).
      lia.
  - destruct HG as (_ & Hbm & _ & _ & HB).
    assert (2 ^ (b + prec + K) <= 2 ^ (emax + K)) by (apply pow2_le; lia). lia.
Qed.
End Bounds.

(** * The output stays within half scale *)

(** The two formats on the wide scale. *)
Lemma F32_emax3 : 3 <= F32.emax.
Proof. vm_compute. discriminate. Qed.

Lemma F32_wide : - wide <= 2 * emin F32.prec F32.emax.
Proof. vm_compute. discriminate. Qed.

Lemma F32_wide' : - wide <= emin F32.prec F32.emax - (F32.emax - F32.prec).
Proof. vm_compute. discriminate. Qed.

Lemma F64_emax3 : 3 <= F64.emax.
Proof. vm_compute. discriminate. Qed.

Lemma F64_wide : - wide <= 2 * emin F64.prec F64.emax.
Proof. vm_compute. discriminate. Qed.

Lemma F64_wide' : - wide <= emin F64.prec F64.emax - (F64.emax - F64.prec).
Proof. vm_compute. discriminate. Qed.

Lemma F32_wide_emin : - wide <= emin F32.prec F32.emax.
Proof. vm_compute. discriminate. Qed.

Lemma F64_wide_emin : - wide <= emin F64.prec F64.emax.
Proof. vm_compute. discriminate. Qed.

Local Abbreviation within32 := (within F32.prec F32.emax wide).
Local Abbreviation within64 := (within F64.prec F64.emax wide).
Local Abbreviation grid32 := (grid_bound F32.prec F32.emax wide).
Local Abbreviation grid64 := (grid_bound F64.prec F64.emax wide).

(** Between [-c] and [c] for the program's comparisons means of magnitude
    at most [c]. *)
Lemma leb_within32 cm ce x :
  canonical_mantissa F32.prec F32.emax cm ce = true ->
  F32.valid x = true ->
  F32.leb (S754_finite true cm ce) x = true -> F32.leb x (S754_finite false cm ce) = true ->
  within32 (Fval wide cm ce) x.
Proof.
  intros Cc Hv Hlo Hhi.
  pose proof Cc as Cc'. apply canonical_inv in Cc' as (Hce & _).
  pose proof F32_wide_emin as HS.
  pose proof (Fval_pos wide cm ce ltac:(lia)) as Pc.
  destruct x as [s | [|] | | [|] m e]; try discriminate.
  - repeat split. cbn. lia.
  - split; [exact Hv|]. split; [reflexivity|]. cbn [F32.valid valid_binary] in Hv.
    apply bounded_inv in Hv as [Cx _]. unfold F32.leb, SFleb in Hlo.
    rewrite (SFcompare_neg _ _ wide F32_prec_pos HS cm ce m e Cc Cx) in Hlo.
    cbn [mag]. destruct (Z.compare_spec (Fval wide m e) (Fval wide cm ce)); try discriminate; lia.
  - split; [exact Hv|]. split; [reflexivity|]. cbn [F32.valid valid_binary] in Hv.
    apply bounded_inv in Hv as [Cx _]. unfold F32.leb, SFleb in Hhi.
    rewrite (SFcompare_pos _ _ wide F32_prec_pos HS m e cm ce Cx Cc) in Hhi.
    cbn [mag]. destruct (Z.compare_spec (Fval wide m e) (Fval wide cm ce)); try discriminate; lia.
Qed.

Lemma within32_leb cm ce x :
  canonical_mantissa F32.prec F32.emax cm ce = true ->
  within32 (Fval wide cm ce) x ->
  F32.leb (S754_finite true cm ce) x = true /\ F32.leb x (S754_finite false cm ce) = true.
Proof.
  intros Cc (Hv & Hf & Hm). pose proof F32_wide_emin as HS.
  destruct x as [s | [|] | | [|] m e]; try discriminate; try (split; reflexivity).
  - split; [|reflexivity]. cbn [valid_binary] in Hv. apply bounded_inv in Hv as [Cx _].
    unfold F32.leb, SFleb. rewrite (SFcompare_neg _ _ wide F32_prec_pos HS cm ce m e Cc Cx).
    cbn [mag] in Hm. destruct (Z.compare_spec (Fval wide m e) (Fval wide cm ce)); try reflexivity; lia.
  - split; [reflexivity|]. cbn [valid_binary] in Hv. apply bounded_inv in Hv as [Cx _].
    unfold F32.leb, SFleb. rewrite (SFcompare_pos _ _ wide F32_prec_pos HS m e cm ce Cx Cc).
    cbn [mag] in Hm. destruct (Z.compare_spec (Fval wide m e) (Fval wide cm ce)); try reflexivity; lia.
Qed.

(** Widening and narrowing keep a grid bound. *)
Lemma of_float_within b B x : within32 B x -> grid64 b B -> within64 B (F64.of_float x).
Proof.
  intros (Hv & Hf & Hm) HG.
  assert (HB0 : 0 <= B) by (destruct HG as (_ & _ & _ & H & _); exact H).
  destruct x as [s | | | s m e]; try discriminate Hf.
  - repeat split. exact HB0.
  - cbn [F64.of_float]. cbn [valid_binary] in Hv.
    apply bounded_inv in Hv as [Cx _]. apply canonical_inv in Cx as (He & _).
    pose proof F32_wide_emin.
    apply (binary_round_within F64.prec F64.emax wide F64_prec_pos F64_emax3 F64_wide F64_wide'
             s m e b B ltac:(lia) HG Hm).
Qed.

Lemma to_float_within b B x : within64 B x -> grid32 b B -> within32 B (F64.to_float x).
Proof.
  intros (Hv & Hf & Hm) HG.
  assert (HB0 : 0 <= B) by (destruct HG as (_ & _ & _ & H & _); exact H).
  destruct x as [s | | | s m e]; try discriminate Hf.
  - repeat split. exact HB0.
  - cbn [F64.to_float]. cbn [valid_binary] in Hv.
    apply bounded_inv in Hv as [Cx _]. apply canonical_inv in Cx as (He & _).
    pose proof F64_wide_emin.
    apply (binary_round_within F32.prec F32.emax wide F32_prec_pos F32_emax3 F32_wide F32_wide'
             s m e b B ltac:(lia) HG Hm).
Qed.

(** The grid bounds of the proof: whole multiples of [1], of [2^-10], and
    the quarter and the half. *)
Lemma grid64_units j : 0 <= j < 2 ^ 53 -> grid64 0 (j * 2 ^ wide).
Proof.
  intros Hj. split; [vm_compute; discriminate|]. split; [vm_compute; discriminate|]. split.
  - exists j. reflexivity.
  - change (2 ^ (0 + F64.prec + wide)) with (2 ^ 53 * 2 ^ wide).
    assert (0 < 2 ^ wide) by (apply pow2_gt0; vm_compute; discriminate). nia.
Qed.

Lemma grid64_fine j : 0 <= j < 2 ^ 53 -> grid64 (-10) (j * 2 ^ (wide - 10)).
Proof.
  intros Hj. split; [vm_compute; discriminate|]. split; [vm_compute; discriminate|]. split.
  - exists j. reflexivity.
  - change (2 ^ (-10 + F64.prec + wide)) with (2 ^ 53 * 2 ^ (wide - 10)).
    assert (0 < 2 ^ (wide - 10)) by (apply pow2_gt0; vm_compute; discriminate). nia.
Qed.

Lemma grid64_quarter : grid64 (-2) (2 ^ (wide - 2)).
Proof.
  split; [vm_compute; discriminate|]. split; [vm_compute; discriminate|]. split.
  - exists 1. vm_compute. reflexivity.
  - split; [vm_compute; discriminate | vm_compute; reflexivity].
Qed.

Lemma grid32_quarter : grid32 (-2) (2 ^ (wide - 2)).
Proof.
  split; [vm_compute; discriminate|]. split; [vm_compute; discriminate|]. split.
  - exists 1. vm_compute. reflexivity.
  - split; [vm_compute; discriminate | vm_compute; reflexivity].
Qed.

Lemma grid64_half : grid64 (-1) (2 ^ (wide - 1)).
Proof.
  split; [vm_compute; discriminate|]. split; [vm_compute; discriminate|]. split.
  - exists 1. vm_compute. reflexivity.
  - split; [vm_compute; discriminate | vm_compute; reflexivity].
Qed.

Lemma grid32_half : grid32 (-1) (2 ^ (wide - 1)).
Proof.
  split; [vm_compute; discriminate|]. split; [vm_compute; discriminate|]. split.
  - exists 1. vm_compute. reflexivity.
  - split; [vm_compute; discriminate | vm_compute; reflexivity].
Qed.

Lemma wide_pos : 0 < 2 ^ wide.
Proof. apply pow2_gt0. vm_compute. discriminate. Qed.

(** One saw of the bank. *)
Lemma saw_within tanh t freq :
  tanh_contract tanh -> is_finite (F64.mul t freq) = true ->
  within64 (1 * 2 ^ wide) (F64.of_float (getSaw tanh t freq)).
Proof.
  intros [_ Hc] Hp.
  assert (Hin : in_unit (getSaw tanh t freq)).
  { unfold getSaw. destruct (Hc _ (saw_argument_not_nan t freq Hp)) as (Hv & Hlo & Hhi).
    apply to_float_unit; assumption. }
  assert (Hv : F32.valid (getSaw tanh t freq) = true) by apply to_float_valid.
  revert Hin Hv. generalize (getSaw tanh t freq). intros g [Hlo Hhi] Hv.
  apply (of_float_within 0); [|apply grid64_units; vm_compute; split; [discriminate | reflexivity]].
  change (1 * 2 ^ wide) with (Fval wide 8388608 (-23)).
  apply leb_within32; [reflexivity | exact Hv | exact Hlo | exact Hhi].
Qed.

(** A running sum of terms of magnitude at most [c]. *)
Lemma foldl_add_within {A} (f : A -> double) (c b : Z) (l : list A) : forall acc k,
  0 <= k -> within64 (k * c) acc ->
  (forall a, a ∈ l -> within64 c (f a)) ->
  (forall j, 0 <= j <= k + Z.of_nat (length l) -> grid64 b (j * c)) ->
  within64 ((k + Z.of_nat (length l)) * c) (foldl (fun acc a => F64.add acc (f a)) acc l).
Proof.
  induction l as [ | a l IH]; intros acc k Hk Hacc Hf HG.
  - cbn [foldl length]. rewrite Z.add_0_r. exact Hacc.
  - cbn [foldl]. replace (k + Z.of_nat (length (a :: l))) with ((k + 1) + Z.of_nat (length l))
      by (cbn [length]; lia).
    apply IH.
    + lia.
    + apply (SFadd_within F64.prec F64.emax wide F64_prec_pos F64_emax3 F64_wide F64_wide'
               (k * c) c b ((k + 1) * c) acc (f a) Hacc).
      * apply Hf. left.
      * lia.
      * apply HG. cbn [length]. lia.
    + intros a' Ha'. apply Hf. right. exact Ha'.
    + intros j Hj. apply HG. cbn [length]. lia.
Qed.

Lemma detune_offsets_length : Z.of_nat (length detune_offsets) = 27.
Proof. reflexivity. Qed.

(** The bank of 27 saws. *)
Lemma saw_bank_within tanh phase freq :
  tanh_contract tanh ->
  (forall i, i ∈ detune_offsets ->
     is_finite (F64.mul phase (F64.add freq (F64.mul (F64.of_Z i) detune_step))) = true) ->
  within64 (27 * 2 ^ wide) (saw_bank tanh phase freq).
Proof.
  intros Ht Hfin. unfold saw_bank.
  pose proof (foldl_add_within
                (fun i => F64.of_float
                            (getSaw tanh phase (F64.add freq (F64.mul (F64.of_Z i) detune_step))))
                (2 ^ wide) 0 detune_offsets F64.zero 0 ltac:(lia)) as H.
  rewrite detune_offsets_length in H. apply H.
  - repeat split. cbn. lia.
  - intros i Hi. rewrite <- (Z.mul_1_l (2 ^ wide)). apply saw_within; [exact Ht | exact (Hfin i Hi)].
  - intros j Hj. apply grid64_units. assert (27 < 2 ^ 53) by reflexivity. lia.
Qed.

(** Magnitudes on the two scales. *)
Lemma Fval_wide m e : - scale <= e -> Fval wide m e = Fval scale m e * 2 ^ (wide - scale).
Proof.
  intros He. unfold Fval. rewrite <- Z.mul_assoc, <- Z.pow_add_r by (unfold wide, scale in *; lia).
  do 2 f_equal. lia.
Qed.

Lemma env_range_within x : env_range x -> within32 (1 * 2 ^ wide) x.
Proof.
  intros [[-> | (m & e & -> & Bm)] Hle].
  - repeat split. cbn. pose proof wide_pos. lia.
  - split; [exact Bm|]. split; [reflexivity|]. cbn [mag Fmag] in *.
    rewrite (Fval_wide m e (bounded32_scale m e Bm)).
    change (Fmag F32.one) with (2 ^ scale) in Hle.
    change (1 * 2 ^ wide) with (2 ^ scale * 2 ^ (wide - scale)).
    apply Z.mul_le_mono_nonneg_r; [vm_compute; discriminate | exact Hle].
Qed.

(** What one voice adds to the mix: below a quarter. *)
Lemma voice_sample_within tanh v freq :
  tanh_contract tanh -> env_range (envelope v) ->
  (forall i, i ∈ detune_offsets ->
     is_finite (F64.mul (time v) (F64.add freq (F64.mul (F64.of_Z i) detune_step))) = true) ->
  within64 (255 * 2 ^ (wide - 10)) (voice_sample tanh v freq).
Proof.
  intros Ht He Hfin. unfold voice_sample.
  pose proof (saw_bank_within tanh (time v) freq Ht Hfin) as Hbank.
  pose proof (of_float_within 0 _ _ (env_range_within _ He)
                (grid64_units 1 ltac:(vm_compute; split; [discriminate | reflexivity]))) as Henv.
  revert Hbank Henv. generalize (saw_bank tanh (time v) freq), (F64.of_float (envelope v)).
  intros bank env Hbank Henv.
  change (F64.of_Z NUM_VOICES) with (S754_finite false 8514618045497344 (-46)).
  assert (HG : grid64 (-10) (255 * 2 ^ (wide - 10)))
    by (apply grid64_fine; vm_compute; split; [discriminate | reflexivity]).
  apply (SFmul_within F64.prec F64.emax wide F64_prec_pos F64_emax3 F64_wide F64_wide'
           (255 * 2 ^ (wide - 10)) (1 * 2 ^ wide) (-10) (255 * 2 ^ (wide - 10))
           (F64.div bank (S754_finite false 8514618045497344 (-46))) env);
    [ | exact Henv | lia | exact HG].
  apply (SFdiv_within F64.prec F64.emax wide F64_prec_pos F64_emax3 F64_wide F64_wide'
           (27 * 2 ^ wide) (-10) (255 * 2 ^ (wide - 10)) bank false 8514618045497344 (-46) Hbank);
    [reflexivity | vm_compute; reflexivity | exact HG].
Qed.

(** A whole number as a [double]. *)
Lemma of_Z_exact p :
  Zpos p < 2 ^ 53 ->
  exists m e, F64.of_Z (Zpos p) = S754_finite false m e /\
              F64.valid (S754_finite false m e) = true /\
              Fval wide m e = Zpos p * 2 ^ wide.
Proof.
  intros Hp. unfold F64.of_Z, binary_normalize.
  pose proof F64_wide_emin as HS. pose proof wide_pos as HW.
  assert (Sz : - wide <= 0) by (vm_compute; discriminate).
  assert (Hv : Fval wide p 0 = Zpos p * 2 ^ wide) by reflexivity.
  assert (HG : grid64 0 (Zpos p * 2 ^ wide)) by (apply grid64_units; lia).
  destruct (binary_round_spec _ _ wide F64_prec_pos HS false p 0 Sz)
    as [[_ Hsmall] | (m & e & Hr & ->)].
  - exfalso.
    pose proof (not_small_of_ge _ _ wide F64_prec_pos HS p 0 4503599627370496 (-52) Sz eq_refl) as Hn.
    assert (Fval wide 4503599627370496 (-52) <= Fval wide p 0).
    { rewrite Hv. change (Fval wide 4503599627370496 (-52)) with (1 * 2 ^ wide).
      apply Z.mul_le_mono_nonneg_r; lia. }
    specialize (Hn H). lia.
  - destruct (rounded_le_grid F64.prec F64.emax wide F64_prec_pos F64_emax3 F64_wide F64_wide'
                p 0 m e 0 _ Sz Hr HG ltac:(lia)) as [_ Bm].
    exists m, e. split; [|split].
    + unfold pack. apply bounded_inv in Bm as [_ Em].
      destruct (Z.leb_spec e (F64.emax - F64.prec)); [reflexivity | lia].
    + exact Bm.
    + rewrite <- Hv. apply (rounded_on_grid _ _ wide p 0 m e F64_prec_pos HS Sz Hr).
      rewrite Hv. apply Z.divide_mul_r.
      apply (pow2_divide F64.prec F64.emax wide F64_prec_pos F64_emax3 F64_wide F64_wide').
      pose proof (fexp_ge_emin F64.prec F64.emax (Zdig p + 0)) as Hfe.
      pose proof (Zdig_bounds p) as [Hlo _]. pose proof (Zdig_pos p).
      assert (Zdig p - 1 < 53) by (apply (Z.pow_lt_mono_r_iff 2); lia).
      clear - Hfe H0 H HS. unfold fexp, emin, F64.prec, F64.emax, wide in *. lia.
Qed.

Lemma VOLUME_within : within64 (1 * 2 ^ wide) (F64.of_float VOLUME).
Proof. repeat split. vm_compute. discriminate. Qed.

Lemma quarter_fine : 255 * 2 ^ (wide - 10) < 2 ^ (wide - 2).
Proof. reflexivity. Qed.

(** [if (active > 0) mixed = (mixed / active) * VOLUME;] on a sum of
    [active] terms below a quarter. *)
Lemma normalize_within mixed n :
  (0 < n)%nat -> Z.of_nat n < 2 ^ 53 ->
  within64 (Z.of_nat n * (255 * 2 ^ (wide - 10))) mixed ->
  within64 (2 ^ (wide - 2)) (normalize mixed (Z.of_nat n)).
Proof.
  intros Hn Hn' Hm. unfold normalize.
  destruct (Z.ltb_spec 0 (Z.of_nat n)) as [_ | H]; [|lia].
  destruct (Z.of_nat n) as [ | p | p] eqn:En; try lia.
  destruct (of_Z_exact p Hn') as (m & e & -> & Vn & Hval).
  pose proof VOLUME_within as HV. revert HV. generalize (F64.of_float VOLUME). intros vol HV.
  pose proof wide_pos as HW. pose proof quarter_fine as HQ.
  apply (SFmul_within F64.prec F64.emax wide F64_prec_pos F64_emax3 F64_wide F64_wide'
           (2 ^ (wide - 2)) (1 * 2 ^ wide) (-2) (2 ^ (wide - 2))
           (F64.div mixed (S754_finite false m e)) vol);
    [ | exact HV | lia | exact grid64_quarter].
  apply (SFdiv_within F64.prec F64.emax wide F64_prec_pos F64_emax3 F64_wide F64_wide'
           (Zpos p * (255 * 2 ^ (wide - 10))) (-2) (2 ^ (wide - 2)) mixed false m e Hm Vn);
    [|exact grid64_quarter].
  rewrite Hval.
  replace (2 ^ (wide - 2) * (Zpos p * 2 ^ wide)) with (Zpos p * 2 ^ (wide - 2) * 2 ^ wide) by ring.
  apply Z.mul_lt_mono_pos_r; [exact HW|].
  apply Z.mul_lt_mono_pos_l; [lia | exact HQ].
Qed.

Lemma length_omap_le {A B} (f : A -> option B) (l : list A) :
  (length (omap f l) <= length l)%nat.
Proof.
  induction l as [ | a l IH]; [reflexivity|]. cbn [omap list_omap length].
  destruct (f a); cbn [length]; lia.
Qed.

Section Frame.
Variable tanh : double -> double.
Variable pow : double -> double -> double.
Hypothesis Htanh : tanh_contract tanh.

Lemma contribution_within st k v y :
  reachable tanh pow st -> frame_finite pow st ->
  voices st !! k = Some v -> snd (process_voice tanh pow v) = Some y ->
  within64 (255 * 2 ^ (wide - 10)) y.
Proof using Htanh.
  intros Hr Hfin Hk Hy.
  destruct (reachable_inv tanh pow st Hr) as (Hinv & _).
  destruct (process_voice_sample tanh pow v y Hy) as (Hon & _ & ->).
  destruct (process_voice_inv tanh pow v (Hinv k v Hk)) as ((Hrange & _) & _).
  destruct (process_voice_keeps tanh pow v) as (_ & _ & _ & _ & Ht). cbn zeta in Ht.
  specialize (Ht Hon).
  apply voice_sample_within; [exact Htanh | exact Hrange|].
  intros i Hi. rewrite Ht. exact (Hfin k v i Hk Hon Hi).
Qed.

Lemma contributions_count st :
  reachable tanh pow st ->
  (length (contributions tanh pow (voices st)) <= 23)%nat.
Proof using.
  intros Hr. unfold contributions.
  etransitivity; [apply length_omap_le|].
  rewrite length_map_to_list, <- size_dom, <- table_notes_size. apply subseteq_size.
  intros k Hk. apply elem_of_dom in Hk as [v Hv].
  exact (proj1 (proj2 (reachable_registry tanh pow st Hr k v Hv))).
Qed.

(** The dry mix is at most a quarter. *)
Lemma dry_mix_within st :
  reachable tanh pow st -> frame_finite pow st ->
  within64 (2 ^ (wide - 2)) (dry_mix tanh pow st).
Proof using Htanh.
  intros Hr Hfin. rewrite dry_mix_spec.
  pose proof (contributions_count st Hr) as Hcount.
  assert (Hall : forall y, y ∈ contributions tanh pow (voices st) ->
                           within64 (255 * 2 ^ (wide - 10)) y).
  { intros y Hy. unfold contributions in Hy. apply list_elem_of_omap in Hy as ([k v] & Hkv & Hs).
    apply elem_of_map_to_list in Hkv. exact (contribution_within st k v y Hr Hfin Hkv Hs). }
  revert Hcount Hall. generalize (contributions tanh pow (voices st)). intros l Hcount Hall.
  pose proof (foldl_add_within (fun y : double => y) (255 * 2 ^ (wide - 10)) (-10) l F64.zero 0
                ltac:(lia)) as Hsum.
  cbn beta in Hsum. rewrite Z.add_0_l in Hsum.
  assert (Hs : within64 (Z.of_nat (length l) * (255 * 2 ^ (wide - 10))) (foldl F64.add F64.zero l)).
  { apply Hsum.
    - repeat split. cbn. lia.
    - exact Hall.
    - intros j Hj. replace (j * (255 * 2 ^ (wide - 10))) with ((j * 255) * 2 ^ (wide - 10)) by ring.
      apply grid64_fine. assert (23 * 255 < 2 ^ 53) by reflexivity. lia. }
  destruct l as [ | y l].
  - cbn. repeat split. vm_compute. discriminate.
  - apply normalize_within; [cbn [length]; lia | | exact Hs].
    assert (23 < 2 ^ 53) by reflexivity. lia.
Qed.
End Frame.

Lemma half_within x : F32.valid x = true -> in_half x -> within32 (2 ^ (wide - 1)) x.
Proof.
  intros Hv [Hlo Hhi]. change (2 ^ (wide - 1)) with (Fval wide 8388608 (-24)).
  apply leb_within32; [reflexivity | exact Hv | exact Hlo | exact Hhi].
Qed.

Lemma within_half x : within32 (2 ^ (wide - 1)) x -> in_half x.
Proof.
  intros H. change (2 ^ (wide - 1)) with (Fval wide 8388608 (-24)) in H.
  apply within32_leb in H; [exact H | reflexivity].
Qed.

Section Output.
Variable tanh : double -> double.
Variable pow : double -> double -> double.
Hypothesis Htanh : tanh_contract tanh.

(** One frame. *)
Lemma audio_frame_within st :
  reachable tanh pow st -> line_bounded st -> frame_finite pow st ->
  exists st' out,
    audio_frame tanh pow st = Some (st', (out, out)) /\ in_half out /\ line_bounded st'.
Proof using Htanh.
  intros Hr Hline Hfin.
  destruct (audio_frame_line tanh pow st (reachable_line tanh pow st Hr)) as (st1 & l & Hf & _ & _ & Hb).
  destruct (reachable_line_valid tanh pow st Hr) as [Hvalid Hfb].
  pose proof Hf as Hf'. apply audio_frame_inv in Hf' as (stored & _ & Hs & Hl & _).
  pose proof (list_elem_of_lookup_2 _ _ _ Hs) as Hin.
  pose proof (half_within stored (Hvalid stored Hin) (Hline stored Hin)) as Hstored.
  pose proof (dry_mix_within tanh pow Htanh st Hr Hfin) as Hdry.
  assert (Hout : in_half l).
  { rewrite Hl, Hfb. revert Hdry. generalize (dry_mix tanh pow st). intros dry Hdry.
    apply within_half. apply (to_float_within (-1)); [|exact grid32_half].
    apply (SFadd_within F64.prec F64.emax wide F64_prec_pos F64_emax3 F64_wide F64_wide'
             (2 ^ (wide - 2)) (2 ^ (wide - 2)) (-1) (2 ^ (wide - 1)) dry _ Hdry);
      [ | vm_compute; discriminate | exact grid64_half].
    apply (of_float_within (-2)); [|exact grid64_quarter].
    apply (SFmul_within F32.prec F32.emax wide F32_prec_pos F32_emax3 F32_wide F32_wide'
             (2 ^ (wide - 1)) (2 ^ (wide - 1)) (-2) (2 ^ (wide - 2)) stored REVERB_DECAY Hstored);
      [ | vm_compute; discriminate | exact grid32_quarter].
    repeat split. vm_compute. discriminate. }
  exists st1, l. split; [exact Hf|]. split; [exact Hout|].
  intros x Hx. rewrite Hb in Hx. apply elem_of_insert_cell in Hx as [-> | Hx]; [exact Hout|].
  exact (Hline x Hx).
Qed.

Lemma audioCallback_within n : forall st,
  reachable tanh pow st -> line_bounded st -> frames_finite tanh pow n st ->
  exists st' out,
    audioCallback tanh pow n st = Some (st', out) /\
    (forall x, x ∈ out -> in_half x) /\ line_bounded st'.
Proof using Htanh.
  induction n as [ | n IH]; intros st Hr Hline Hfin.
  - exists st, []. split; [reflexivity|]. split; [|exact Hline].
    intros x Hx. inversion Hx.
  - destruct (audio_frame_within st Hr Hline (Hfin 0%nat st [] ltac:(lia) eq_refl))
      as (st1 & l & Hf & Hl & Hline1).
    destruct (IH st1 (audio_frame_reachable tanh pow st st1 _ Hr Hf) Hline1)
      as (st' & out & Hrun & Hout & Hline').
    { intros j st2 out2 Hj Hrun. apply (Hfin (S j) st2 (l :: l :: out2) ltac:(lia)).
      cbn [audioCallback]. rewrite Hf, Hrun. reflexivity. }
    exists st', (l :: l :: out). cbn [audioCallback]. rewrite Hf, Hrun.
    split; [reflexivity|]. split; [|exact Hline'].
    intros x Hx. rewrite !elem_of_cons in Hx. destruct Hx as [-> | [-> | Hx]]; auto.
Qed.
End Output.

(** The output never clips: from a reachable state whose delay line
    holds samples within [[-0.5, 0.5]] (as it does at the start), and as
    long as no oscillator overflows, every sample the callback writes lies
    within [[-0.5, 0.5]], half of full scale, and so does the delay line
    afterwards, whatever the number of voices. *)
Theorem output_within_half_scale tanh pow (n : nat) (st : Engine) :
  tanh_contract tanh ->
  reachable tanh pow st -> line_bounded st -> frames_finite tanh pow n st ->
  exists st' out,
    audioCallback tanh pow n st = Some (st', out) /\
    (forall x, x ∈ out -> in_half x) /\ line_bounded st'.
Proof.
  intros Ht Hr Hline Hfin. exact (audioCallback_within tanh pow Ht n st Hr Hline Hfin).
Qed.

Lemma engine_A_line_bounded : line_bounded engine_A.
Proof.
  intros x Hx. cbn in Hx. apply elem_of_replicate in Hx as [-> _]. split; reflexivity.
Qed.

Lemma engine_A_frame_finite : frames_finite tanh_sat pow_unit 1 engine_A.
Proof.
  intros j st' out Hj Hrun. assert (j = 0%nat) as -> by lia.
  cbn in Hrun. injection Hrun as <- _.
  intros k v i Hk Hon Hi.
  assert (v = voice_A) as ->.
  { change (voices engine_A) with (<[57 := voice_A]> (∅ : gmap Z Voice)) in Hk.
    apply lookup_insert_Some in Hk as [[_ <-] | [_ Hk]]; [reflexivity|].
    rewrite lookup_empty in Hk. discriminate Hk. }
  unfold detune_offsets in Hi. cbn in Hi.
  repeat (apply elem_of_cons in Hi as [-> | Hi]; [vm_compute; reflexivity|]).
  inversion Hi.
Qed.

Lemma output_within_half_scale_witness :
  exists st' out,
    audioCallback tanh_sat pow_unit 1 engine_A = Some (st', out) /\
    (forall x, x ∈ out -> in_half x) /\ line_bounded st'.
Proof.
  exact (output_within_half_scale tanh_sat pow_unit 1 engine_A tanh_sat_contract
           (engine_A_reachable tanh_sat pow_unit) engine_A_line_bounded engine_A_frame_finite).
Defined.

(** * Infinities and NaN in the delay line *)

(** A sample that is not finite stays so through the feedback path,
    whatever the dry mix and the feedback coefficient. *)
Lemma feedback_not_finite (dry : double) (stored fb : float) :
  is_finite stored = false ->
  is_finite (F64.to_float (F64.add dry (F64.of_float (F32.mul stored fb)))) = false.
Proof.
  intros H.
  assert (Hm : is_finite (F32.mul stored fb) = false).
  { destruct stored as [ | s | | ]; try discriminate H;
      destruct fb as [ | | | ]; reflexivity. }
  revert Hm. generalize (F32.mul stored fb). intros y Hy.
  destruct y as [ | sy | | ]; try discriminate Hy; cbn [F64.of_float].
  - destruct dry as [ | sd | | ]; try reflexivity. destruct sd, sy; reflexivity.
  - destruct dry; reflexivity.
Qed.

Section Poison.
Variable tanh : double -> double.
Variable pow : double -> double -> double.

Lemma audio_frame_poison st p (x : float) :
  line_ok st -> reverbDelayBuffer st !! p = Some x -> is_finite x = false ->
  exists st1 l,
    audio_frame tanh pow st = Some (st1, (l, l)) /\ line_ok st1 /\
    (exists x' : float, reverbDelayBuffer st1 !! p = Some x' /\ is_finite x' = false) /\
    (Z.to_nat (reverbIndex st) = p -> is_finite l = false).
Proof.
  intros Hok Hp Hx.
  destruct (audio_frame_line tanh pow st Hok) as (st1 & l & Hf & Hok1 & _ & Hb).
  pose proof Hf as Hf'. apply audio_frame_inv in Hf' as (stored & _ & Hs & Hl & _).
  exists st1, l. split; [exact Hf|]. split; [exact Hok1|].
  assert (Hcur : Z.to_nat (reverbIndex st) = p -> is_finite l = false).
  { intros E. assert (stored = x) as -> by congruence. rewrite Hl.
    apply feedback_not_finite. exact Hx. }
  split; [|exact Hcur].
  destruct (decide (Z.to_nat (reverbIndex st) = p)) as [E | Hne].
  - exists l. split; [|exact (Hcur E)]. rewrite Hb, E. apply list_lookup_insert_eq.
    apply lookup_lt_Some in Hp. exact Hp.
  - exists x. split; [|exact Hx]. rewrite Hb, list_lookup_insert_ne by exact Hne. exact Hp.
Qed.

Lemma audioCallback_poison n : forall st p (x : float),
  line_ok st -> reverbDelayBuffer st !! p = Some x -> is_finite x = false ->
  exists st' out (x' : float),
    audioCallback tanh pow n st = Some (st', out) /\
    reverbDelayBuffer st' !! p = Some x' /\ is_finite x' = false.
Proof.
  induction n as [ | n IH]; intros st p x Hok Hp Hx.
  - exists st, [], x. split; [reflexivity|]. split; assumption.
  - destruct (audio_frame_poison st p x Hok Hp Hx) as (st1 & l & Hf & Hok1 & (x1 & Hp1 & Hx1) & _).
    destruct (IH st1 p x1 Hok1 Hp1 Hx1) as (st' & out & x' & Hrun & Hp' & Hx').
    exists st', (l :: l :: out), x'. cbn [audioCallback]. rewrite Hf, Hrun.
    split; [reflexivity|]. split; assumption.
Qed.
End Poison.

(** An overflow poisons the delay line for good: once a cell of the
    delay line holds an infinity or a NaN, the frame whose cursor is on that
    cell outputs a sample that is not finite and stores it back, so that
    after any number of frames the cell still holds an infinity or a NaN. *)
Theorem poisoned_cell_stays_poisoned tanh pow (n : nat) (st : Engine) (p : nat) (x : float) :
  line_ok st -> reverbDelayBuffer st !! p = Some x -> is_finite x = false ->
  (exists st' out (x' : float),
     audioCallback tanh pow n st = Some (st', out) /\
     reverbDelayBuffer st' !! p = Some x' /\ is_finite x' = false) /\
  (Z.to_nat (reverbIndex st) = p ->
   exists st1 l, audio_frame tanh pow st = Some (st1, (l, l)) /\ is_finite l = false).
Proof.
  intros Hok Hp Hx. split; [exact (audioCallback_poison tanh pow n st p x Hok Hp Hx)|].
  intros E. destruct (audio_frame_poison tanh pow st p x Hok Hp Hx) as (st1 & l & Hf & _ & _ & Hl).
  exists st1, l. split; [exact Hf | exact (Hl E)].
Qed.

Lemma poisoned_cell_stays_poisoned_witness :
  (exists st' out (x' : float),
     audioCallback tanh_sat pow_unit 256 engine_poisoned = Some (st', out) /\
     reverbDelayBuffer st' !! 0%nat = Some x' /\ is_finite x' = false) /\
  (Z.to_nat (reverbIndex engine_poisoned) = 0%nat ->
   exists st1 l, audio_frame tanh_sat pow_unit engine_poisoned = Some (st1, (l, l)) /\
                 is_finite l = false).
Proof.
  apply (poisoned_cell_stays_poisoned tanh_sat pow_unit 256 engine_poisoned 0%nat (S754_nan : float)).
  - split; [|vm_compute; split; [discriminate | reflexivity]].
    cbn [engine_poisoned reverbDelayBuffer]. rewrite length_insert. apply length_replicate.
  - cbn [engine_poisoned reverbDelayBuffer]. apply list_lookup_insert_eq.
    rewrite length_replicate, DELAY_SIZE_val. lia.
  - reflexivity.
Defined.

(** * From a key press to sound *)




(** * One turn of the delay line without input *)

Section Turn.
Variable tanh : double -> double.
Variable pow : double -> double -> double.

(** A frame with every voice OFF: the voices stay as they are, and the
    output is the sample under the cursor times the feedback. *)
Lemma audio_frame_tail st :
  reachable tanh pow st -> all_off st ->
  exists stored out st',
    reverbDelayBuffer st !! Z.to_nat (reverbIndex st) = Some stored /\
    audio_frame tanh pow st = Some (st', (out, out)) /\
    same_number out (F32.mul stored REVERB_DECAY) /\
    reachable tanh pow st' /\ all_off st' /\
    reverbIndex st' = (reverbIndex st + 1) mod DELAY_SIZE /\
    reverbDelayBuffer st' = <[Z.to_nat (reverbIndex st) := out]> (reverbDelayBuffer st).
Proof.
  intros Hr Hoff. pose proof (reachable_line tanh pow st Hr) as Hok.
  destruct (reachable_line_valid tanh pow st Hr) as [Hc Hfb].
  destruct (audio_frame_line tanh pow st Hok) as (st1 & l & Hf & _ & Hi & Hb).
  pose proof Hf as Hf'. apply audio_frame_inv in Hf' as (stored & _ & Hs & Hl & _ & Hv & _).
  exists stored, l, st1. split; [exact Hs|]. split; [exact Hf|]. split.
  - rewrite (dry_mix_all_off tanh pow st Hoff), Hfb in Hl. rewrite Hl.
    assert (Hvalid : F32.valid (F32.mul stored REVERB_DECAY) = true).
    { apply (SFmul_valid _ _ F32_prec_pos); [vm_compute; discriminate | | reflexivity].
      exact (Hc stored (list_elem_of_lookup_2 _ _ _ Hs)). }
    rewrite <- (to_float_of_float _ Hvalid) at 2.
    apply to_float_same. apply F64_add_zero_l.
  - split; [exact (audio_frame_reachable tanh pow st st1 _ Hr Hf)|].
    split; [|split; [exact Hi | exact Hb]].
    intros k v. rewrite Hv, (voices_all_off tanh pow st Hoff). apply Hoff.
Qed.

Lemma audioCallback_turn n : forall st,
  reachable tanh pow st -> all_off st -> (n <= Z.to_nat DELAY_SIZE)%nat ->
  exists st' out,
    audioCallback tanh pow n st = Some (st', out) /\
    (forall j (x : float), (j < n)%nat ->
       reverbDelayBuffer st !! cell_after st j = Some x ->
       exists y : float, reverbDelayBuffer st' !! cell_after st j = Some y /\
                         same_number y (F32.mul x REVERB_DECAY)) /\
    (forall p, (forall j, (j < n)%nat -> p <> cell_after st j) ->
       reverbDelayBuffer st' !! p = reverbDelayBuffer st !! p).
Proof.
  induction n as [ | n IH]; intros st Hr Hoff Hn.
  - exists st, []. split; [reflexivity|]. split; [intros j x Hj; lia | reflexivity].
  - pose proof (reachable_line tanh pow st Hr) as Hok.
    destruct (audio_frame_tail st Hr Hoff)
      as (stored & l & st1 & Hs & Hf & Hl & Hr1 & Hoff1 & Hi1 & Hb1).
    destruct (IH st1 Hr1 Hoff1 ltac:(lia)) as (st' & out & Hrun & Hwin & Hrest).
    exists st', (l :: l :: out). cbn [audioCallback]. rewrite Hf, Hrun.
    split; [reflexivity|].
    assert (Hlen : (Z.to_nat (reverbIndex st) < length (reverbDelayBuffer st))%nat)
      by (apply lookup_lt_Some in Hs; exact Hs).
    split.
    + intros [ | j] x Hj Hx.
      * rewrite (cell_after_0 st Hok) in *. exists l. split.
        -- rewrite Hrest; [rewrite Hb1; apply list_lookup_insert_eq; exact Hlen|].
           intros j Hj'. rewrite (cell_after_S st st1 j Hi1), <- (cell_after_0 st Hok).
           apply cell_after_inj; lia.
        -- assert (stored = x) as -> by congruence. exact Hl.
      * rewrite <- (cell_after_S st st1 j Hi1) in *. apply Hwin; [lia|].
        rewrite Hb1, list_lookup_insert_ne; [exact Hx|].
        rewrite <- (cell_after_0 st Hok), (cell_after_S st st1 j Hi1).
        apply cell_after_inj; lia.
    + intros p Hp. rewrite Hrest.
      * rewrite Hb1. apply list_lookup_insert_ne.
        rewrite <- (cell_after_0 st Hok). intros E. apply (Hp 0%nat); [lia | congruence].
      * intros j Hj. rewrite (cell_after_S st st1 j Hi1). apply Hp. lia.
Qed.

(** Every cell is passed once in a turn. *)
Lemma cell_after_surj st p :
  line_ok st -> (p < Z.to_nat DELAY_SIZE)%nat ->
  exists j, (j < Z.to_nat DELAY_SIZE)%nat /\ cell_after st j = p.
Proof.
  intros [_ Hi] Hp. rewrite DELAY_SIZE_val in *.
  exists (Z.to_nat ((Z.of_nat p - reverbIndex st) mod 88200)).
  pose proof (Z.mod_pos_bound (Z.of_nat p - reverbIndex st) 88200 ltac:(lia)) as Hm.
  split; [lia|]. unfold cell_after. rewrite DELAY_SIZE_val, Z2Nat.id by lia.
  rewrite Zplus_mod_idemp_r.
  replace (reverbIndex st + (Z.of_nat p - reverbIndex st)) with (Z.of_nat p) by lia.
  rewrite Z.mod_small by lia. apply Nat2Z.id.
Qed.
End Turn.

(** The reverb decays: with every voice OFF, one turn of the delay line
    ([DELAY_SIZE] frames, two seconds) from a reachable state replaces every
    sample of the line by that sample times [REVERB_DECAY] (0.5), as a
    binary32 product and up to the sign of a zero. *)
Theorem silent_turn_halves_delay_line tanh pow (st : Engine) :
  reachable tanh pow st -> all_off st ->
  exists st' out,
    audioCallback tanh pow (Z.to_nat DELAY_SIZE) st = Some (st', out) /\
    forall p (x : float),
      reverbDelayBuffer st !! p = Some x ->
      exists y : float, reverbDelayBuffer st' !! p = Some y /\
                        same_number y (F32.mul x REVERB_DECAY).
Proof.
  intros Hr Hoff. pose proof (reachable_line tanh pow st Hr) as Hok.
  destruct (audioCallback_turn tanh pow (Z.to_nat DELAY_SIZE) st Hr Hoff ltac:(lia))
    as (st' & out & Hrun & Hwin & _).
  exists st', out. split; [exact Hrun|]. intros p x Hp.
  destruct (cell_after_surj st p Hok) as (j & Hj & <-).
  { apply lookup_lt_Some in Hp. destruct Hok as [Hlen _]. rewrite <- Hlen. exact Hp. }
  exact (Hwin j x Hj Hp).
Qed.

(** * Runs of the sample engine *)

Lemma audioCallback_reachable tanh pow n : forall st st' out,
  reachable tanh pow st -> audioCallback tanh pow n st = Some (st', out) ->
  reachable tanh pow st'.
Proof.
  induction n as [ | n IH]; intros st st' out Hr Hrun.
  - cbn in Hrun. injection Hrun as <- <-. exact Hr.
  - cbn [audioCallback] in Hrun.
    destruct (audio_frame tanh pow st) as [[st1 [l r]]|] eqn:Hf; [|discriminate].
    destruct (audioCallback tanh pow n st1) as [[st2 out2]|] eqn:Hrest; [|discriminate].
    injection Hrun as <- <-.
    exact (IH st1 st2 out2 (audio_frame_reachable tanh pow st st1 _ Hr Hf) Hrest).
Qed.

Lemma frames_later_run n st :
  reachable tanh_sat pow_unit st ->
  exists out, audioCallback tanh_sat pow_unit n st = Some (frames_later n st, out).
Proof.
  intros Hr.
  destruct (audioCallback_line tanh_sat pow_unit n st (reachable_line _ _ st Hr))
    as (st' & out & Hrun & _).
  exists out. unfold frames_later. rewrite Hrun. reflexivity.
Qed.

Lemma frames_later_reachable n st :
  reachable tanh_sat pow_unit st -> reachable tanh_sat pow_unit (frames_later n st).
Proof.
  intros Hr. destruct (frames_later_run n st Hr) as (out & Hrun).
  exact (audioCallback_reachable tanh_sat pow_unit n st _ out Hr Hrun).
Qed.

Lemma frames_later_voices n st k :
  reachable tanh_sat pow_unit st ->
  voices (frames_later n st) !! k = voice_after tanh_sat pow_unit n <$> voices st !! k.
Proof.
  intros Hr. destruct (frames_later_run n st Hr) as (out & Hrun).
  rewrite (audioCallback_voices tanh_sat pow_unit n st _ out Hrun). apply lookup_fmap.
Qed.

Lemma frames_later_running n st :
  reachable tanh_sat pow_unit st -> running (frames_later n st) = running st.
Proof.
  intros Hr. destruct (frames_later_run n st Hr) as (out & Hrun).
  exact (proj1 (audioCallback_keeps tanh_sat pow_unit n st _ out Hrun)).
Qed.

(** A voice in ATTACK or in DECAY is in SUSTAIN 4858 frames later, and a
    voice in RELEASE is OFF 27608 frames later. *)
Lemma sustain_reached tanh pow n v :
  voice_inv v -> stage v = ATTACK \/ stage v = DECAY -> 4858 <= Z.of_nat n ->
  stage (voice_after tanh pow n v) = SUSTAIN /\
  envelope (voice_after tanh pow n v) = SUSTAIN_LEVEL.
Proof.
  intros Hinv Hst Hn.
  assert (Hd : exists j1, Z.of_nat j1 <= 442 /\ stage (voice_after tanh pow j1 v) = DECAY).
  { destruct Hst as [Hst | Hst].
    - destruct (attack_ends tanh pow v Hinv Hst) as (j & Hj & Hs & _). exists j. auto.
    - exists 0%nat. split; [lia | exact Hst]. }
  destruct Hd as (j1 & Hj1 & Hs1).
  destruct (decay_ends tanh pow _ (voice_after_inv tanh pow j1 v Hinv) Hs1) as (j2 & Hj2 & Hs2 & He2).
  replace n with ((n - (j2 + j1)) + (j2 + j1))%nat by lia.
  rewrite voice_after_add, (voice_after_add tanh pow j2 j1).
  destruct (sustain_stays tanh pow (n - (j2 + j1)) _ Hs2) as [H1 H2].
  split; [exact H1 | congruence].
Qed.

Lemma silence_reached tanh pow n v :
  voice_inv v -> stage v = RELEASE -> 27608 <= Z.of_nat n ->
  stage (voice_after tanh pow n v) = OFF.
Proof.
  intros Hinv Hst Hn. destruct (release_ends tanh pow v Hinv Hst) as (j & Hj & Hs & _).
  replace n with ((n - j) + j)%nat by lia.
  rewrite voice_after_add, (off_stays tanh pow _ _ Hs). exact Hs.
Qed.

(** ** [A] held, then [S] with it *)

(** With the voice of [A] in SUSTAIN and [S] not played yet: a key-down on
    [S] and 441 frames. *)
Lemma second_key_run st v :
  reachable tanh_sat pow_unit st -> running st = true ->
  voices st !! 57 = Some v -> stage v = SUSTAIN -> voices st !! 59 = None ->
  reachable tanh_sat pow_unit (frames_later 441 (key_down "S"%char st)) /\
  exists v' w,
    voices (frames_later 441 (key_down "S"%char st)) !! 57 = Some v' /\ stage v' = SUSTAIN /\
    voices (frames_later 441 (key_down "S"%char st)) !! 59 = Some w /\ stage w = DECAY.
Proof.
  intros Hr Hrun H57 Hs H59.
  assert (Hr2 : reachable tanh_sat pow_unit (key_down "S"%char st)).
  { apply (reachable_step tanh_sat pow_unit st (KeyDown "s"%char) _ Hr).
    cbn [step]. rewrite Hrun. reflexivity. }
  split; [apply frames_later_reachable; exact Hr2|].
  assert (HS : keyNoteMap !! "S"%char = Some 59) by reflexivity.
  pose proof (key_down_mapped _ _ st HS) as Hkd. rewrite H59 in Hkd. cbn [default] in Hkd.
  destruct (sustain_stays tanh_sat pow_unit 441 v Hs) as [Hs' _].
  eexists _, _.
  rewrite (frames_later_voices 441 (key_down "S"%char st) 57 Hr2).
  rewrite (frames_later_voices 441 (key_down "S"%char st) 59 Hr2).
  rewrite Hkd. cbn [with_voices voices].
  rewrite lookup_insert_ne by discriminate. rewrite lookup_insert_eq, H57.
  cbn [fmap option_fmap option_map].
  split; [reflexivity|]. split; [exact Hs'|]. split; [reflexivity|].
  change 441%nat with (Pos.to_nat 441).
  destruct timeline_from_zero as (_ & Hd & _).
  rewrite <- Hd. apply voice_after_core; reflexivity.
Qed.

Lemma engine_sustain_decay_run :
  reachable tanh_sat pow_unit engine_sustain_decay /\
  exists v w,
    voices engine_sustain_decay !! 57 = Some v /\ stage v = SUSTAIN /\
    voices engine_sustain_decay !! 59 = Some w /\ stage w = DECAY.
Proof.
  pose proof (engine_A_reachable tanh_sat pow_unit) as Hr0.
  assert (Hn : 4858 <= Z.of_nat (Z.to_nat 4858)) by (rewrite Z2Nat.id; lia).
  unfold engine_sustain_decay. revert Hn. generalize (Z.to_nat 4858). intros n Hn.
  destruct (reachable_inv tanh_sat pow_unit engine_A Hr0) as (Hinv & _).
  specialize (Hinv 57 voice_A eq_refl).
  destruct (sustain_reached tanh_sat pow_unit n voice_A Hinv (or_introl eq_refl) Hn) as [Hs _].
  apply (second_key_run (frames_later n engine_A) (voice_after tanh_sat pow_unit n voice_A)).
  - apply frames_later_reachable. exact Hr0.
  - rewrite (frames_later_running n engine_A Hr0). reflexivity.
  - rewrite (frames_later_voices n engine_A 57 Hr0). reflexivity.
  - exact Hs.
  - rewrite (frames_later_voices n engine_A 59 Hr0). reflexivity.
Qed.

(** ** [A] sounded for one frame, released, one turn later *)

Lemma first_frame_output :
  reverbIndex (frames_later 1 engine_A) = 1 /\
  reverbDelayBuffer (frames_later 1 engine_A) !! 0%nat
  = Some (S754_finite false 11300639 (-35) : float).
Proof.
  pose proof (engine_A_reachable tanh_sat pow_unit) as Hr0.
  destruct (reachable_inv tanh_sat pow_unit engine_A Hr0) as (_ & Hlen & Hidx).
  destruct (audio_frame_defined tanh_sat pow_unit engine_A) as (st1 & l & Hf).
  { rewrite Hlen, Z2Nat.id by (rewrite DELAY_SIZE_val; lia). exact Hidx. }
  rewrite (frames_later_frame _ _ _ Hf).
  apply audio_frame_inv in Hf as (stored & _ & Hs & Hl & _ & _ & Hb & Hi & _).
  change (reverbDelayBuffer engine_A) with (replicate (Z.to_nat DELAY_SIZE) F32.zero) in Hs, Hb.
  change (Z.to_nat (reverbIndex engine_A)) with 0%nat in Hs, Hb.
  apply lookup_replicate in Hs as [-> _].
  split; [rewrite Hi; reflexivity|].
  rewrite Hb, list_lookup_insert_eq by (rewrite length_replicate, DELAY_SIZE_val; lia).
  rewrite Hl. vm_compute. reflexivity.
Qed.

(** Frames without key events bring every voice in RELEASE to OFF. *)
Lemma released_run_all_off st n :
  reachable tanh_sat pow_unit st ->
  (forall k v, voices st !! k = Some v -> stage v = RELEASE \/ stage v = OFF) ->
  27608 <= Z.of_nat n -> all_off (frames_later n st).
Proof.
  intros Hr Hst Hn k v. rewrite (frames_later_voices n st k Hr).
  destruct (voices st !! k) as [w|] eqn:Hw; [|discriminate].
  cbn [fmap option_fmap option_map]. intros H.
  assert (Hv : v = voice_after tanh_sat pow_unit n w) by congruence. rewrite Hv. clear H Hv.
  destruct (reachable_inv tanh_sat pow_unit st Hr) as (Hinv & _).
  destruct (Hst k w Hw) as [Hrel | Hoff].
  - exact (silence_reached tanh_sat pow_unit n w (Hinv k w Hw) Hrel Hn).
  - rewrite (off_stays tanh_sat pow_unit n w Hoff). exact Hoff.
Qed.

(** The frames that bring the cursor from cell 1 back to cell 0 leave that
    cell as it is. *)
Lemma turn_keeps_first_cell st n (x : float) :
  reachable tanh_sat pow_unit st -> reverbIndex st = 1 -> Z.of_nat n = DELAY_SIZE - 1 ->
  reverbDelayBuffer st !! 0%nat = Some x ->
  reverbIndex (frames_later n st) = 0 /\ reverbDelayBuffer (frames_later n st) !! 0%nat = Some x.
Proof.
  intros Hr Hi Hn Hx.
  destruct (audioCallback_line tanh_sat pow_unit n st (reachable_line _ _ st Hr))
    as (st' & out & Hrun & _ & _ & Hi' & _ & Hrest).
  unfold frames_later. rewrite Hrun. split.
  - rewrite Hi', Hi, Hn. rewrite DELAY_SIZE_val. reflexivity.
  - rewrite <- Hx. apply Hrest. intros j Hj. unfold cell_after. rewrite Hi.
    rewrite DELAY_SIZE_val in *. rewrite Z.mod_small by lia. lia.
Qed.

Lemma first_frame_released :
  forall k v, voices (key_up_scan " "%char (frames_later 1 engine_A)) !! k = Some v ->
    stage v = RELEASE \/ stage v = OFF.
Proof.
  intros k v Hw. left. pose proof (engine_A_reachable tanh_sat pow_unit) as Hr0.
  rewrite key_up_scan_lookup, (frames_later_voices 1 engine_A k Hr0) in Hw.
  change (voices engine_A) with (<[57 := voice_A]> (∅ : gmap Z Voice)) in Hw.
  destruct (decide (k = 57)) as [-> | Hne].
  - rewrite lookup_insert_eq in Hw. cbn [fmap option_fmap option_map] in Hw.
    assert (Hv : v = release_voice " "%char (voice_after tanh_sat pow_unit 1 voice_A))
      by congruence.
    rewrite Hv. vm_compute. reflexivity.
  - rewrite lookup_insert_ne, lookup_empty in Hw by congruence. discriminate.
Qed.

Lemma engine_tail_run :
  reachable tanh_sat pow_unit engine_tail /\ all_off engine_tail /\
  reverbIndex engine_tail = 0 /\
  reverbDelayBuffer engine_tail !! 0%nat = Some (S754_finite false 11300639 (-35) : float).
Proof.
  pose proof (engine_A_reachable tanh_sat pow_unit) as Hr0.
  pose proof (frames_later_reachable 1 engine_A Hr0) as Hr1.
  destruct first_frame_output as [Hi1 Hc1].
  pose proof first_frame_released as Hst.
  assert (Hr2 : reachable tanh_sat pow_unit (key_up_scan " "%char (frames_later 1 engine_A)))
    by exact (reachable_step tanh_sat pow_unit _ (KeyUpScan " "%char) _ Hr1 eq_refl).
  assert (Hn : Z.of_nat (Z.to_nat (DELAY_SIZE - 1)) = DELAY_SIZE - 1)
    by (apply Z2Nat.id; rewrite DELAY_SIZE_val; lia).
  unfold engine_tail. revert Hn. generalize (Z.to_nat (DELAY_SIZE - 1)). intros n Hn.
  revert Hr2 Hst.
  change (reverbIndex (frames_later 1 engine_A))
    with (reverbIndex (key_up_scan " "%char (frames_later 1 engine_A))) in Hi1.
  change (reverbDelayBuffer (frames_later 1 engine_A))
    with (reverbDelayBuffer (key_up_scan " "%char (frames_later 1 engine_A))) in Hc1.
  revert Hi1 Hc1. generalize (key_up_scan " "%char (frames_later 1 engine_A)).
  intros st Hi Hc Hr Hst.
  split; [apply frames_later_reachable; exact Hr|].
  split; [apply (released_run_all_off st n Hr Hst); rewrite Hn, DELAY_SIZE_val; lia|].
  exact (turn_keeps_first_cell st n _ Hr Hi Hn Hc).
Qed.

(** * The envelope levels and the reverb tail on the sample runs *)

Lemma sustain_and_decay_levels_witness :
  exists v w,
    voices engine_sustain_decay !! 57 = Some v /\ stage v = SUSTAIN /\
    envelope v = SUSTAIN_LEVEL /\
    voices engine_sustain_decay !! 59 = Some w /\ stage w = DECAY /\
    F32.leb (envelope w) SUSTAIN_LEVEL = false /\
    F32.leb SUSTAIN_LEVEL (envelope w) = true /\
    F32.leb (envelope w) F32.one = true.
Proof.
  destruct engine_sustain_decay_run as (Hr & v & w & Hv & Hsv & Hw & Hsw).
  exists v, w. split; [exact Hv|]. split; [exact Hsv|].
  split; [exact (proj1 (sustain_and_decay_levels tanh_sat pow_unit engine_sustain_decay 57 v
                          Hr Hv) Hsv)|].
  split; [exact Hw|]. split; [exact Hsw|].
  exact (proj2 (sustain_and_decay_levels tanh_sat pow_unit engine_sustain_decay 59 w Hr Hw) Hsw).
Defined.

Lemma reverb_tail_halves_witness :
  exists out st',
    reverbDelayBuffer engine_tail !! Z.to_nat (reverbIndex engine_tail)
    = Some (S754_finite false 11300639 (-35) : float) /\
    audio_frame tanh_sat pow_unit engine_tail = Some (st', (out, out)) /\
    same_number out (F32.mul (S754_finite false 11300639 (-35)) REVERB_DECAY) /\
    F32.mul (S754_finite false 11300639 (-35)) REVERB_DECAY = S754_finite false 11300639 (-36).
Proof.
  destruct engine_tail_run as (Hr & Hoff & Hi & Hc).
  destruct (reverb_tail_halves tanh_sat pow_unit engine_tail Hr Hoff)
    as (stored & out & st' & Hs & Hf & Hout).
  exists out, st'. rewrite Hi in Hs |- *. change (Z.to_nat 0) with 0%nat in Hs |- *.
  assert (Hst : stored = S754_finite false 11300639 (-35)) by congruence.
  rewrite Hst in Hout.
  split; [exact Hc|]. split; [exact Hf|]. split; [exact Hout|]. vm_compute. reflexivity.
Defined.

Lemma silent_turn_halves_delay_line_witness :
  exists st' out (y : float),
    audioCallback tanh_sat pow_unit (Z.to_nat DELAY_SIZE) engine_tail = Some (st', out) /\
    reverbDelayBuffer engine_tail !! 0%nat = Some (S754_finite false 11300639 (-35) : float) /\
    reverbDelayBuffer st' !! 0%nat = Some y /\
    same_number y (F32.mul (S754_finite false 11300639 (-35)) REVERB_DECAY) /\
    F32.mul (S754_finite false 11300639 (-35)) REVERB_DECAY = S754_finite false 11300639 (-36) /\
    forall p (x : float),
      reverbDelayBuffer engine_tail !! p = Some x ->
      exists y : float, reverbDelayBuffer st' !! p = Some y /\
                        same_number y (F32.mul x REVERB_DECAY).
Proof.
  destruct engine_tail_run as (Hr & Hoff & Hi & Hc).
  destruct (silent_turn_halves_delay_line tanh_sat pow_unit engine_tail Hr Hoff)
    as (st' & out & Hrun & Hall).
  destruct (Hall 0%nat _ Hc) as (y & Hy & Hsame).
  exists st', out, y. split; [exact Hrun|]. split; [exact Hc|]. split; [exact Hy|].
  split; [exact Hsame|]. split; [vm_compute; reflexivity | exact Hall].
Defined.
